(** * Crokinole score cards: the scheduling engine

    A shallow embedding of [src/scheduler.js] (group splitting, round-robin
    pairing, the equal-games schedule builder, the export) and of the
    player list, the board rebalance layer, the group numbers, the
    games-played totals, the score card rows and the match overview of
    [App.jsx], followed by the properties of the design document that were
    checked against them and by further properties of the code.

    Conventions of the embedding.
    - Players are JavaScript strings, here [string], read as the sequence
      of their code units, each below 256; [<] on strings is the
      lexicographic order on code units, here [String.ltb].
    - JavaScript numbers that the program only uses as integers (counters,
      round and board numbers, targets) are [Z].  A numeric argument is
      taken through [Number(...)].  The first definitions take it as a
      whole number or [NaN] ([jsnum]); the module [Js] follows the same code
      for any number, a finite number being an exact rational of [Q], and
      shows where the calls end in an exception or do not end.
      [Js_splitIntoGroups_ofJsnum] and [Js_buildGlobalSchedule_ofJsnum]
      relate the two.
    - Objects used as dictionaries are [gmap string Z], [Set]s of strings
      are [gset string]; an insertion-ordered [Set] that is turned back
      into an array is the list of first occurrences ([setToArray]).
    - Arrays are lists; a loop over an array is a fold over the list, a
      loop with [break] or [continue] a structural recursion.
    - An integer written into a string is its decimal numeral, [pretty]. *)

From Stdlib Require Import ZArith List String Lia Bool.
From Stdlib Require Import Sorting.Sorted Sorting.Permutation.
From Stdlib Require Import QArith Qround Lqa.
From stdpp Require Import base gmap sets list strings fin_maps pretty sorting.

Local Open Scope Z_scope.

(** ** JavaScript values used by the program *)

(** The result of [Number(x)] on an argument when it is a whole number or
    [NaN]; [Js.number] below has the other numbers as well. *)
Inductive jsnum : Type :=
| Num (z : Z)
| NaN.

(** [Number(x) || d]: [NaN] and [0] are falsy. *)
Definition orDefault (x : jsnum) (d : Z) : Z :=
  match x with
  | Num z => if z =? 0 then d else z
  | NaN => d
  end.

(** [Math.max(1, Number(x) || 1)] *)
Definition atLeastOne (x : jsnum) : Z := Z.max 1 (orDefault x 1).

(** Results of [Math.min(...xs)] and [Math.max(...xs)], which are infinite
    on the empty argument list. *)
Inductive xnum : Type :=
| NegInf
| Fin (z : Z)
| PosInf.

Definition xmin (a b : xnum) : xnum :=
  match a, b with
  | NegInf, _ | _, NegInf => NegInf
  | PosInf, c | c, PosInf => c
  | Fin x, Fin y => Fin (Z.min x y)
  end.

Definition xmax (a b : xnum) : xnum :=
  match a, b with
  | PosInf, _ | _, PosInf => PosInf
  | NegInf, c | c, NegInf => c
  | Fin x, Fin y => Fin (Z.max x y)
  end.

Definition xeqb (a b : xnum) : bool :=
  match a, b with
  | NegInf, NegInf | PosInf, PosInf => true
  | Fin x, Fin y => x =? y
  | _, _ => false
  end.

Definition mathMin (xs : list Z) : xnum := foldr (fun z acc => xmin (Fin z) acc) PosInf xs.
Definition mathMax (xs : list Z) : xnum := foldr (fun z acc => xmax (Fin z) acc) NegInf xs.

(** [obj[p]] on a dictionary whose entries were all created with value [0]
    ([Object.fromEntries(allPlayers.map(p => [p, 0]))]); every key the
    program reads is a player of [allPlayers]. *)
Definition getZ (m : gmap string Z) (p : string) : Z := default 0 (m !! p).

(** [Array.from(new Set(xs))]: the first occurrences, in order. *)
Definition setToArray (xs : list string) : list string :=
  foldl (fun acc x => if decide (x ∈ acc) then acc else acc ++ [x]) [] xs.

(** [xs.slice(s, e)] and [xs.slice(s)] for indices within [0 .. length]. *)
Definition slice {T} (s e : nat) (xs : list T) : list T := take (e - s) (drop s xs).
Definition sliceFrom {T} (s : nat) (xs : list T) : list T := drop s xs.

(** [Array.prototype.sort(cmp)] is a stable sort; with a comparator that
    orders by keys its result does not depend on the algorithm
    ([stable_sorted_unique] below) and is the stable insertion of the
    elements from the right. *)
Fixpoint insertBy {T} (cmp : T -> T -> Z) (x : T) (l : list T) : list T :=
  match l with
  | [] => [x]
  | y :: l' => if cmp x y <=? 0 then x :: l else y :: insertBy cmp x l'
  end.

Definition sortBy {T} (cmp : T -> T -> Z) (l : list T) : list T :=
  foldr (insertBy cmp) [] l.

(** ** scheduler.js: groups and round-robin pairs *)

Definition BYE : string := "__BYE__".

(** [splitIntoGroups(players, numGroups)] for a whole or invalid group
    count, where every index [i % g] is one of the groups. *)
Definition splitIntoGroups (players : list string) (numGroups : jsnum) : list (list string) :=
  let g := Z.to_nat (atLeastOne numGroups) in
  foldl (fun groups ip => alter (fun grp => grp ++ [ip.2]) (ip.1 mod g)%nat groups)
        (replicate g []) (imap pair players).

(** The pairs of one round: [a[i]] against [b[i]], byes dropped. *)
Definition roundPairs (a b : list string) : list (string * string) :=
  filter (fun pr => pr.1 ≠ BYE ∧ pr.2 ≠ BYE) (zip a b).

(** The rotation at the end of the loop body of [roundRobinPairs]. *)
Definition rotateA (half : nat) (a b : list string) : list string :=
  let fixed := take 1 a in
  let rest := sliceFrom 1 a ++ slice 0 1 b in
  fixed ++ slice 0 (half - 1) rest.

Definition rotateB (half : nat) (a b : list string) : list string :=
  let rest := sliceFrom 1 a ++ slice 0 1 b in
  rev (sliceFrom (half - 1) rest ++ sliceFrom 1 b).

(** The [for (r = 0; r < n - 1; r++)] loop, [k] iterations left. *)
Fixpoint rrLoop (k half : nat) (a b : list string) : list (list (string * string)) :=
  match k with
  | O => []
  | S k' => roundPairs a b :: rrLoop k' half (rotateA half a b) (rotateB half a b)
  end.

(** [roundRobinPairs(group)] *)
Definition roundRobinPairs (group : list string) : list (list (string * string)) :=
  let odd := Nat.odd (length group) in
  let arr := if odd then group ++ [BYE] else group in
  let n := length arr in
  let half := (n / 2)%nat in
  let a := slice 0 half arr in
  let b := rev (sliceFrom half arr) in
  rrLoop (n - 1) half a b.

(** [buildGroupPairings(groups)] *)
Definition buildGroupPairings (groups : list (list string)) : list (list (list (string * string))) :=
  map roundRobinPairs groups.

(** ** scheduler.js: the schedule builder *)

(** An entry of [allMatches]: [{ A, B, group }]. *)
Module Cand.
Record t : Type := mk { A : string; B : string; group : Z }.
End Cand.

(** An entry of a round: [{ round, board, A, B, group }]. *)
Module Match.
Record t : Type := mk { round : Z; board : Z; A : string; B : string; group : Z }.
End Match.

(** The players named by the pairs of one group's rounds, in the order
    [s.add(A); s.add(B)] meets them. *)
Definition groupPlayers (gr : list (list (string * string))) : list string :=
  setToArray (flat_map (fun r => flat_map (fun pr => [pr.1; pr.2]) r) gr).

Definition groupsOf (groupRounds : list (list (list (string * string)))) : list (list string) :=
  map groupPlayers groupRounds.

Definition allPlayersOf (groups : list (list string)) : list string :=
  setToArray (concat groups).

(** The double loop [for i ... for j = i + 1 ...] over one group. *)
Fixpoint groupMatches (gPlayers : list string) (g : Z) : list Cand.t :=
  match gPlayers with
  | [] => []
  | p :: rest => map (fun q => Cand.mk p q g) rest ++ groupMatches rest g
  end.

Definition allMatchesOf (groups : list (list string)) : list Cand.t :=
  concat (imap (fun gi gPlayers => groupMatches gPlayers (Z.of_nat gi + 1)) groups).

(** [const N = allPlayers.length || 1] *)
Definition playerCount (allPlayers : list string) : Z :=
  if (Z.of_nat (length allPlayers) =? 0) then 1 else Z.of_nat (length allPlayers).

Definition capByBoards (boards totalRounds N : Z) : Z := (boards * totalRounds * 2) / N.

Definition capByOpponents (groups : list (list string)) : Z :=
  match map (fun g => Z.max 0 (Z.of_nat (length g) - 1)) groups with
  | [] => 0
  | c :: cs => foldl Z.min c cs
  end.

Definition initialTarget (groups : list (list string)) (boards totalRounds : Z) : Z :=
  let N := playerCount (allPlayersOf groups) in
  Z.max 0 (Z.min (Z.min (capByBoards boards totalRounds N) totalRounds) (capByOpponents groups)).

(** The key of the unordered pair in [pairPlayed]. *)
Definition pairKey (a b : string) : string :=
  if String.ltb a b then a +:+ "|" +:+ b else b +:+ "|" +:+ a.

(** The three dictionaries of one build attempt. *)
Record Tally : Type := mkTally {
  gamesPlayed : gmap string Z;
  pairPlayed : gset string;
  lastPlayedRound : gmap string Z
}.

Definition zeroed (allPlayers : list string) : gmap string Z :=
  list_to_map ((fun p => (p, 0)) <$> allPlayers).

Definition initTally (allPlayers : list string) : Tally :=
  mkTally (zeroed allPlayers) ∅ (zeroed allPlayers).

(** The predicate of [allMatches.filter(...)]. *)
Definition eligible (ta : Tally) (targetGames : Z) (m : Cand.t) : Prop :=
  (pairKey (Cand.A m) (Cand.B m) ∉ pairPlayed ta)
  ∧ ¬ (targetGames <= getZ (gamesPlayed ta) (Cand.A m))
  ∧ ¬ (targetGames <= getZ (gamesPlayed ta) (Cand.B m)).

Global Instance eligible_dec ta targetGames m : Decision (eligible ta targetGames m).
Proof. unfold eligible. apply _. Defined.

Definition hadByePrev (ta : Tally) (r : Z) (p : string) : bool :=
  if r =? 1 then false else negb (getZ (lastPlayedRound ta) p =? r - 1).

Definition byeScore (ta : Tally) (r : Z) (m : Cand.t) : Z :=
  (if hadByePrev ta r (Cand.A m) then 1 else 0) + (if hadByePrev ta r (Cand.B m) then 1 else 0).

Definition combinedNeed (ta : Tally) (targetGames : Z) (m : Cand.t) : Z :=
  (targetGames - getZ (gamesPlayed ta) (Cand.A m)) + (targetGames - getZ (gamesPlayed ta) (Cand.B m)).

Definition maxNeed (ta : Tally) (targetGames : Z) (m : Cand.t) : Z :=
  Z.max (targetGames - getZ (gamesPlayed ta) (Cand.A m)) (targetGames - getZ (gamesPlayed ta) (Cand.B m)).

(** The comparator handed to [candidates.sort]. *)
Definition compareCandidates (ta : Tally) (r targetGames : Z) (m1 m2 : Cand.t) : Z :=
  let byeScore1 := byeScore ta r m1 in
  let byeScore2 := byeScore ta r m2 in
  if negb (byeScore2 =? byeScore1) then byeScore2 - byeScore1 else
  let d1 := combinedNeed ta targetGames m1 in
  let d2 := combinedNeed ta targetGames m2 in
  if negb (d2 =? d1) then d2 - d1 else
  let mx1 := maxNeed ta targetGames m1 in
  let mx2 := maxNeed ta targetGames m2 in
  mx2 - mx1.

(** The filtered and sorted candidates of round [r]. *)
Definition rankedCandidates (allMatches : list Cand.t) (ta : Tally) (r targetGames : Z) : list Cand.t :=
  sortBy (compareCandidates ta r targetGames) (filter (eligible ta targetGames) allMatches).

(** The state of the selection loop of one round. *)
Record RoundState : Type := mkRound {
  roundMatches : list Match.t;
  usedThisRound : gset string;
  tally : Tally
}.

(** The body of the selection loop once a candidate is taken. *)
Definition commit (r : Z) (m : Cand.t) (st : RoundState) : RoundState :=
  let ta := tally st in
  let round' := roundMatches st ++
      [Match.mk r (Z.of_nat (length (roundMatches st)) + 1) (Cand.A m) (Cand.B m) (Cand.group m)] in
  let used' := usedThisRound st ∪ {[Cand.A m]} ∪ {[Cand.B m]} in
  let gp1 := <[Cand.A m := getZ (gamesPlayed ta) (Cand.A m) + 1]> (gamesPlayed ta) in
  let gp2 := <[Cand.B m := getZ gp1 (Cand.B m) + 1]> gp1 in
  let lpr' := <[Cand.B m := r]> (<[Cand.A m := r]> (lastPlayedRound ta)) in
  let pp' := pairPlayed ta ∪ {[pairKey (Cand.A m) (Cand.B m)]} in
  mkRound round' used' (mkTally gp2 pp' lpr').

(** [for (const m of candidates) { if (round.length >= boards) break;
    if (used A or B) continue; ... }] *)
Fixpoint selectLoop (boards r : Z) (candidates : list Cand.t) (st : RoundState) : RoundState :=
  match candidates with
  | [] => st
  | m :: rest =>
      if boards <=? Z.of_nat (length (roundMatches st)) then st
      else if bool_decide (Cand.A m ∈ usedThisRound st) || bool_decide (Cand.B m ∈ usedThisRound st)
      then selectLoop boards r rest st
      else selectLoop boards r rest (commit r m st)
  end.

(** One iteration of [for (let r = 1; r <= totalRounds; r++)]. *)
Definition roundStep (allMatches : list Cand.t) (boards targetGames : Z)
    (acc : Tally * list (list Match.t)) (r : Z) : Tally * list (list Match.t) :=
  let candidates := rankedCandidates allMatches acc.1 r targetGames in
  let st := selectLoop boards r candidates (mkRound [] ∅ acc.1) in
  (tally st, acc.2 ++ [roundMatches st]).

Definition roundNumbers (totalRounds : Z) : list Z :=
  map (fun i => Z.of_nat i) (seq 1 (Z.to_nat totalRounds)).

(** [tryBuild(targetGames)], returning [(schedule, equal)]. *)
Definition tryBuild (allPlayers : list string) (allMatches : list Cand.t)
    (boards totalRounds targetGames : Z) : list (list Match.t) * bool :=
  let final := foldl (roundStep allMatches boards targetGames)
                     (initTally allPlayers, []) (roundNumbers totalRounds) in
  let counts := map (getZ (gamesPlayed final.1)) allPlayers in
  let mn := mathMin counts in
  let mx := mathMax counts in
  let equal := xeqb mn mx && xeqb mx (Fin targetGames) in
  (final.2, equal).

(** [Array.from({ length: totalRounds }, () => [])] *)
Definition emptySchedule (totalRounds : Z) : list (list Match.t) :=
  replicate (Z.to_nat totalRounds) [].

(** [while (target >= 0) { ... target -= 1 }], with the target a natural
    number; below [0] the fallback is returned. *)
Fixpoint searchTarget (allPlayers : list string) (allMatches : list Cand.t)
    (boards totalRounds : Z) (target : nat) : list (list Match.t) :=
  let attempt := tryBuild allPlayers allMatches boards totalRounds (Z.of_nat target) in
  if attempt.2 then attempt.1
  else match target with
       | O => emptySchedule totalRounds
       | S target' => searchTarget allPlayers allMatches boards totalRounds target'
       end.

(** [buildGlobalSchedule(groupRounds, boards, preferredRounds)] *)
Definition buildGlobalSchedule (groupRounds : list (list (list (string * string))))
    (boards preferredRounds : jsnum) : list (list Match.t) :=
  let boards := atLeastOne boards in
  let totalRounds := atLeastOne preferredRounds in
  let groups := groupsOf groupRounds in
  let allPlayers := allPlayersOf groups in
  let allMatches := allMatchesOf groups in
  let target := initialTarget groups boards totalRounds in
  searchTarget allPlayers allMatches boards totalRounds (Z.to_nat target).

(** ** App.jsx: the board rebalance layer and the totals *)

(** [m.board = b] on a working copy. *)
Definition setBoard (m : Match.t) (b : Z) : Match.t :=
  Match.mk (Match.round m) b (Match.A m) (Match.B m) (Match.group m).

(** [lastBoard[p] === b]; [lastBoard] starts as [{}], whose inherited
    properties are never numbers. *)
Definition sameBoard (lastBoard : gmap string Z) (p : string) (b : Z) : bool :=
  bool_decide (lastBoard !! p = Some b).

Definition conflictForMatch (lastBoard : gmap string Z) (m : Match.t) : Z :=
  (if sameBoard lastBoard (Match.A m) (Match.board m) then 1 else 0)
  + (if sameBoard lastBoard (Match.B m) (Match.board m) then 1 else 0).

(** The body of the inner loop on [matches[i]] and [matches[j]]: swap the
    boards, keep the swap when it lowers the pair's conflict, else revert. *)
Definition trySwap (lastBoard : gmap string Z) (i j : nat)
    (st : list Match.t * bool) : list Match.t * bool :=
  match st.1 !! i, st.1 !! j with
  | Some m1, Some m2 =>
      let before := conflictForMatch lastBoard m1 + conflictForMatch lastBoard m2 in
      let b1 := Match.board m1 in
      let b2 := Match.board m2 in
      let m1' := setBoard m1 b2 in
      let m2' := setBoard m2 b1 in
      let after := conflictForMatch lastBoard m1' + conflictForMatch lastBoard m2' in
      if after <? before then (<[j := m2']> (<[i := m1']> st.1), true) else st
  | _, _ => st
  end.

(** [for (j = i + 1; j < matches.length; j++)] *)
Definition innerLoop (lastBoard : gmap string Z) (len i : nat)
    (st : list Match.t * bool) : list Match.t * bool :=
  foldl (fun st j => trySwap lastBoard i j st) st (seq (S i) (len - S i)).

(** One pass: [improved = false], then the double loop. *)
Definition swapPass (lastBoard : gmap string Z) (matches : list Match.t) : list Match.t * bool :=
  foldl (fun st i => innerLoop lastBoard (length matches) i st) (matches, false)
        (seq 0 (length matches)).

(** [while (improved && guard < 10)], entered with [improved = true] and
    [left = 10 - guard]; returns the matches and the final [guard]. *)
Fixpoint improveLoop (left : nat) (lastBoard : gmap string Z) (matches : list Match.t)
    (guard : nat) : list Match.t * nat :=
  match left with
  | O => (matches, guard)
  | S left' =>
      let pass := swapPass lastBoard matches in
      if pass.2 then improveLoop left' lastBoard pass.1 (S guard)
      else (pass.1, S guard)
  end.

Definition improveRound (lastBoard : gmap string Z) (matches : list Match.t) : list Match.t :=
  (improveLoop 10 lastBoard matches 0).1.

(** [lastBoard[p] = b] on an object created as [{}]: the assignment of a
    number to the key [__proto__] is dropped by the inherited setter. *)
Definition recordBoard (lastBoard : gmap string Z) (p : string) (b : Z) : gmap string Z :=
  if decide (p = "__proto__"%string) then lastBoard else <[p := b]> lastBoard.

(** [for (const m of matches) { lastBoard[m.A] = m.board; lastBoard[m.B] = m.board }] *)
Definition finalizeRound (lastBoard : gmap string Z) (matches : list Match.t) : gmap string Z :=
  foldl (fun lb m => recordBoard (recordBoard lb (Match.A m) (Match.board m))
                                 (Match.B m) (Match.board m))
        lastBoard matches.

(** One iteration of the loop over the rounds. *)
Definition rebalanceStep (acc : gmap string Z * list (list Match.t)) (matches : list Match.t)
    : gmap string Z * list (list Match.t) :=
  let matches' := improveRound acc.1 matches in
  (finalizeRound acc.1 matches', acc.2 ++ [matches']).

(** [rebalanceBoards(schedule)] *)
Definition rebalanceBoards (schedule : list (list Match.t)) : list (list Match.t) :=
  (foldl rebalanceStep (∅, []) schedule).2.

(** [totals]: the games of every listed player, one per round played.
    The entries are those of the listed players; for them [p in counts]
    holds by the entry made at the start. *)
Definition totals (players : list string) (schedule : list (list Match.t)) : gmap string Z :=
  foldl (fun counts roundMatches =>
           let playing := setToArray (flat_map (fun m => [Match.A m; Match.B m]) roundMatches) in
           foldl (fun counts p =>
                    if decide (is_Some (counts !! p)) then <[p := getZ counts p + 1]> counts
                    else counts)
                 counts playing)
        (zeroed players) schedule.

(** ** Notions of the design document *)

(** The unordered pair [{playerA, playerB}] of a match. *)
Definition unorderedPair (m : Match.t) : gset string := {[Match.A m; Match.B m]}.

Definition playsIn (p : string) (m : Match.t) : Prop := Match.A m = p ∨ Match.B m = p.

Global Instance playsIn_dec p m : Decision (playsIn p m).
Proof. unfold playsIn. apply _. Defined.

(** The players of a round, match after match. *)
Definition roundPlayers (ms : list Match.t) : list string :=
  flat_map (fun m => [Match.A m; Match.B m]) ms.

(** The number of matches of the schedule in which [p] plays. *)
Definition appearances (p : string) (schedule : list (list Match.t)) : Z :=
  Z.of_nat (length (filter (playsIn p) (concat schedule))).

(** The number of pairs [{x, y}] among the rounds of a group, either way
    round. *)
Definition pairCount (x y : string) (rounds : list (list (string * string))) : nat :=
  length (filter (fun pr => (pr.1 = x ∧ pr.2 = y) ∨ (pr.1 = y ∧ pr.2 = x)) (concat rounds)).

(** A match without its board number. *)
Definition withoutBoard (m : Match.t) : Z * string * string * Z :=
  (Match.round m, Match.A m, Match.B m, Match.group m).

(** The conflict score of a round against a last-board dictionary. *)
Definition roundConflict (lastBoard : gmap string Z) (ms : list Match.t) : Z :=
  foldr (fun m acc => conflictForMatch lastBoard m + acc) 0 ms.

(** The conflict score of a schedule as [rebalanceBoards] counts it: every
    round against the dictionary left by the rounds before it. *)
Fixpoint conflictFrom (lastBoard : gmap string Z) (schedule : list (list Match.t)) : Z :=
  match schedule with
  | [] => 0
  | ms :: rest => roundConflict lastBoard ms + conflictFrom (finalizeRound lastBoard ms) rest
  end.

Definition totalConflict (schedule : list (list Match.t)) : Z := conflictFrom ∅ schedule.

(** The conflict score in the words of the design document: one point per
    player of a match whose board in the immediately preceding round is the
    board of the match. *)
Definition boardInRound (prev : list Match.t) (p : string) : option Z :=
  Match.board <$> last (filter (playsIn p) prev).

Definition repeatsBoard (prev : list Match.t) (p : string) (b : Z) : Z :=
  if bool_decide (boardInRound prev p = Some b) then 1 else 0.

Definition matchConflictDoc (prev : list Match.t) (m : Match.t) : Z :=
  repeatsBoard prev (Match.A m) (Match.board m) + repeatsBoard prev (Match.B m) (Match.board m).

Fixpoint conflictAfter (prev : list Match.t) (schedule : list (list Match.t)) : Z :=
  match schedule with
  | [] => 0
  | ms :: rest => foldr (fun m acc => matchConflictDoc prev m + acc) 0 ms + conflictAfter ms rest
  end.

Definition totalConflictDoc (schedule : list (list Match.t)) : Z := conflictAfter [] schedule.

(** The rounds [rebalanceBoards] returns, as a recursion over the input
    rounds with the dictionary threaded through. *)
Fixpoint rebalanceFrom (lastBoard : gmap string Z) (schedule : list (list Match.t))
    : list (list Match.t) :=
  match schedule with
  | [] => []
  | ms :: rest =>
      improveRound lastBoard ms
      :: rebalanceFrom (finalizeRound lastBoard (improveRound lastBoard ms)) rest
  end.

(** The input rounds, with the boards they came with, scored against the
    dictionaries that the rebalanced rounds before them leave. *)
Fixpoint conflictAgainstRebalanced (lastBoard : gmap string Z)
    (schedule : list (list Match.t)) : Z :=
  match schedule with
  | [] => 0
  | ms :: rest =>
      roundConflict lastBoard ms
      + conflictAgainstRebalanced (finalizeRound lastBoard (improveRound lastBoard ms)) rest
  end.

(** Round by round, the output round scores no more than the input round
    against the dictionary left by the output rounds before it. *)
Fixpoint roundsImproved (lastBoard : gmap string Z)
    (input output : list (list Match.t)) : Prop :=
  match input, output with
  | [], [] => True
  | ms :: rest, ms' :: rest' =>
      roundConflict lastBoard ms' <= roundConflict lastBoard ms
      ∧ roundsImproved (finalizeRound lastBoard ms') rest rest'
  | _, _ => False
  end.

(** A schedule of four rounds on two boards, without a rematch and with
    the boards of every round numbered in order. *)
Definition fourRounds : list (list Match.t) :=
  [ [Match.mk 1 1 "P1" "P2" 1];
    [Match.mk 2 1 "P3" "P1" 1; Match.mk 2 2 "P4" "P5" 1];
    [Match.mk 3 1 "P6" "P5" 1];
    [Match.mk 4 1 "P4" "P7" 1; Match.mk 4 2 "P5" "P3" 1] ]%string.

(** The three sort keys of a candidate in round [r], and the order the
    design document gives them: bye score first, then combined need, then
    the larger need, each the higher the earlier. *)
Definition rankKey (ta : Tally) (r targetGames : Z) (m : Cand.t) : Z * Z * Z :=
  (byeScore ta r m, combinedNeed ta targetGames m, maxNeed ta targetGames m).

Definition notAfter (k1 k2 : Z * Z * Z) : Prop :=
  k1.1.1 > k2.1.1
  ∨ (k1.1.1 = k2.1.1 ∧ (k1.1.2 > k2.1.2 ∨ (k1.1.2 = k2.1.2 ∧ k1.2 >= k2.2))).

(** Greedy selection in the words of the design document: go through the
    ranked candidates in order and take one when the round has fewer than
    [boards] matches and neither player is in a match already taken. *)
Definition candPlayers (chosen : list Cand.t) : list string :=
  flat_map (fun m => [Cand.A m; Cand.B m]) chosen.

Definition takeIfFree (boards : Z) (chosen : list Cand.t) (m : Cand.t) : list Cand.t :=
  if bool_decide ((Z.of_nat (length chosen) < boards)
                  ∧ (Cand.A m ∉ candPlayers chosen) ∧ (Cand.B m ∉ candPlayers chosen))
  then chosen ++ [m] else chosen.

Definition greedyPick (boards : Z) (ranked : list Cand.t) : list Cand.t :=
  foldl (takeIfFree boards) [] ranked.

(** Board numbers in the 1-based order of selection. *)
Definition numberBoards (r : Z) (chosen : list Cand.t) : list Match.t :=
  imap (fun i m => Match.mk r (Z.of_nat i + 1) (Cand.A m) (Cand.B m) (Cand.group m)) chosen.

(** The state of the selection loop after the candidates [chosen] were
    taken, in this order, from a round entered with the tally [ta]. *)
Definition commits (r : Z) (ta : Tally) (chosen : list Cand.t) : RoundState :=
  foldl (fun st m => commit r m st) (mkRound [] ∅ ta) chosen.

(** How often [p] is named by the candidates [chosen]. *)
Definition timesNamed (p : string) (chosen : list Cand.t) : Z :=
  foldr (fun m acc => (if decide (Cand.A m = p) then 1 else 0)
                      + (if decide (Cand.B m = p) then 1 else 0) + acc) 0 chosen.

(** The unordered pair of a candidate. *)
Definition candPair (m : Cand.t) : gset string := {[Cand.A m; Cand.B m]}.

(** A round as the design document wants it: no player twice, at most
    [boards] matches, boards numbered 1, 2, ... in the order of the list. *)
Definition goodRound (boards : Z) (ms : list Match.t) : Prop :=
  NoDup (roundPlayers ms)
  ∧ Z.of_nat (length ms) <= boards
  ∧ Match.board <$> ms = Z.of_nat <$> seq 1 (length ms).

(** What holds of the tally and the rounds built so far between two rounds
    of a build attempt. *)
Definition buildInv (boards : Z) (acc : Tally * list (list Match.t)) : Prop :=
  Forall (goodRound boards) acc.2
  ∧ NoDup (unorderedPair <$> concat acc.2)
  ∧ (∀ m, m ∈ concat acc.2 -> pairKey (Match.A m) (Match.B m) ∈ pairPlayed acc.1)
  ∧ (∀ p, getZ (gamesPlayed acc.1) p = appearances p acc.2).

(** The tally and the schedule at the end of the rounds of an attempt. *)
Definition buildEnd (allPlayers : list string) (allMatches : list Cand.t)
    (boards totalRounds targetGames : Z) : Tally * list (list Match.t) :=
  foldl (roundStep allMatches boards targetGames) (initTally allPlayers, [])
        (roundNumbers totalRounds).

(** The scenario of the design document: eight players in two groups. *)
Definition eightPlayers : list (list (list (string * string))) :=
  buildGroupPairings
    (splitIntoGroups ["P1"; "P2"; "P3"; "P4"; "P5"; "P6"; "P7"; "P8"]%string (Num 2)).

(** The bye score in the words of the design document: how many of the two
    players are not in a match of the previous round [prev]. *)
Definition byeScoreDoc (prev : list Match.t) (m : Cand.t) : Z :=
  (if decide (Cand.A m ∈ roundPlayers prev) then 0 else 1)
  + (if decide (Cand.B m ∈ roundPlayers prev) then 0 else 1).

(** The last round built so far. *)
Definition previousRound (schedule : list (list Match.t)) : list Match.t :=
  default [] (last schedule).

(** What holds of [lastPlayedRound] after [k] rounds. *)
Definition lastPlayedInv (k : nat) (acc : Tally * list (list Match.t)) : Prop :=
  length acc.2 = k
  ∧ ∀ p, 0 <= getZ (lastPlayedRound acc.1) p <= Z.of_nat k
         ∧ ((1 <= k)%nat ->
            (getZ (lastPlayedRound acc.1) p = Z.of_nat k
             <-> p ∈ roundPlayers (previousRound acc.2))).

(** The schedule the builder gives ten players in one group on three
    boards over five rounds. *)
Definition tenPlayersSchedule : list (list Match.t) :=
  buildGlobalSchedule
    (buildGroupPairings
       (splitIntoGroups ["P1"; "P2"; "P3"; "P4"; "P5"; "P6"; "P7"; "P8"; "P9"; "P10"]%string
                        (Num 1)))
    (Num 3) (Num 5).



(** ** scheduler.js and App.jsx: names, group numbers and the export *)

(** A number in a template literal or in [Array.prototype.join]: for the
    integers of the program, the decimal numeral. *)
Definition numberToString (z : Z) : string := pretty z.

(** [xs.join(sep)] on an array of strings. *)
Definition joinWith (sep : string) (xs : list string) : string :=
  match xs with
  | [] => ""
  | x :: rest => foldl (fun acc y => acc +:+ sep +:+ y) x rest
  end.

(** [buildPlayers(n)] *)
Definition buildPlayers (n : jsnum) : list string :=
  let n := Z.max 0 (orDefault n 0) in
  map (fun i => "P" +:+ numberToString (Z.of_nat i + 1)) (seq 0 (Z.to_nat n)).

(** The [players] of the app, from the names [entered] (the text field
    split at commas and line breaks, trimmed, empty names dropped): missing
    names are filled in and the list is cut at the player count. *)
Definition appPlayers (entered : list string) (numPlayers : jsnum) : list string :=
  let count := Z.to_nat (Z.max 0 (orDefault numPlayers 0)) in
  let out := entered
             ++ map (fun i => "P" +:+ numberToString (Z.of_nat i + 1))
                    (seq (length entered) (count - length entered)) in
  slice 0 count out.

(** [playerGroupMap]: [m[p] = gi + 1] for the players of every group, on an
    object created as [{}]. *)
Definition playerGroupMap (groups : list (list string)) : gmap string Z :=
  foldl (fun m ig => foldl (fun m p => recordBoard m p (Z.of_nat ig.1 + 1)) m ig.2)
        ∅ (imap pair groups).

(** A value of the [assigned] map of [toCSVWithOff]: [{ board, group, opp }]. *)
Module Slot.
Record t : Type := mk { board : Z; group : Z; opp : string }.
End Slot.

(** [assigned], a [Map]: both players of every match, later matches
    overwriting earlier ones. *)
Definition assignedOf (matches : list Match.t) : gmap string Slot.t :=
  foldl (fun assigned m =>
           <[Match.B m := Slot.mk (Match.board m) (Match.group m) (Match.A m)]>
             (<[Match.A m := Slot.mk (Match.board m) (Match.group m) (Match.B m)]> assigned))
        ∅ matches.

(** The line of player [p] in the round with index [r]; [groupText p] is
    the text that [playerGroupMap[p] ?? ''] contributes to the line. *)
Definition csvRow (r : nat) (assigned : gmap string Slot.t) (groupText : string -> string)
    (p : string) : string :=
  match assigned !! p with
  | Some a =>
      joinWith "," [numberToString (Z.of_nat r + 1); numberToString (Slot.board a);
                    numberToString (Slot.group a); p; Slot.opp a]
  | None =>
      joinWith "," [numberToString (Z.of_nat r + 1); "OFF"; groupText p; p; ""]
  end.

(** The array [lines] at the end of [toCSVWithOff]. *)
Definition csvLines (players : list string) (groupText : string -> string)
    (schedule : list (list Match.t)) : list string :=
  joinWith "," ["Round"; "Board"; "Group"; "Player"; "Opponent"]
  :: concat (imap (fun r matches => map (csvRow r (assignedOf matches) groupText) players)
                  schedule).

Definition newline : string := String (Ascii.ascii_of_nat 10) "".

(** [toCSVWithOff(players, playerGroupMap, schedule)], the group map
    given by [groupText]. *)
Definition toCSVWithOff (players : list string) (groupText : string -> string)
    (schedule : list (list Match.t)) : string :=
  joinWith newline (csvLines players groupText schedule) +:+ newline.

(** The table and opponent cells of a score card row: the first match of
    the round with the player, if any. *)
Definition scorecardCell (round : list Match.t) (pName : string) : option (Z * string) :=
  (fun m => (Match.board m, if decide (Match.A m = pName) then Match.B m else Match.A m))
    <$> head (filter (playsIn pName) round).

(** The comparator of the match overview:
    [a.round - b.round || a.board - b.board]. *)
Definition compareOverview (a b : Match.t) : Z :=
  if negb (Match.round a - Match.round b =? 0) then Match.round a - Match.round b
  else Match.board a - Match.board b.

(** The rows of the match overview: [schedule.flat().sort(...)]. *)
Definition matchOverview (schedule : list (list Match.t)) : list Match.t :=
  sortBy compareOverview (concat schedule).

(** ** Further notions *)

(** The number of rounds in which [p] is in a match. *)
Definition roundsPlayed (p : string) (schedule : list (list Match.t)) : Z :=
  Z.of_nat (length (filter (fun ms => p ∈ roundPlayers ms) schedule)).

(** Round and board of a match, and their order in the match overview. *)
Definition roundAndBoard (m : Match.t) : Z * Z := (Match.round m, Match.board m).

Definition roundThenBoard (k1 k2 : Z * Z) : Prop :=
  k1.1 < k2.1 ∨ (k1.1 = k2.1 ∧ k1.2 <= k2.2).

(** ** Counts that are not whole numbers *)

(** [Number(x)] can be any number, and neither [scheduler.js] nor the page
    rounds it.  The definitions of this module follow the same code as the
    ones above for every such argument; [Js.ofJsnum] is the place of the
    whole numbers among them. *)
Module Js.

(** The result of [Number(x)]: a finite number, an infinity or [NaN].  A
    finite number is taken as an exact rational and arithmetic as exact: the
    rounding of floating-point arithmetic is left out, as is the size of the
    integers above. *)
Inductive number : Type :=
| Finite (q : Q)
| PlusInfinity
| MinusInfinity
| NotANumber.

Definition ofJsnum (x : jsnum) : number :=
  match x with
  | Num z => Finite (inject_Z z)
  | NaN => NotANumber
  end.

(** A number that is at least 1: finite or [Infinity]. *)
Inductive count : Type :=
| Bounded (q : Q)
| Unbounded.

(** [Math.max(x, y)] and [Math.min(x, y)] on finite numbers. *)
Definition qmax (x y : Q) : Q := if Qle_bool x y then y else x.
Definition qmin (x y : Q) : Q := if Qle_bool x y then x else y.

(** [Math.max(1, Number(x) || 1)]: [NaN] and [0] are falsy. *)
Definition atLeastOne (x : number) : count :=
  match x with
  | Finite q => if Qeq_bool q 0 then Bounded 1 else Bounded (qmax 1 q)
  | PlusInfinity => Unbounded
  | MinusInfinity => Bounded 1
  | NotANumber => Bounded 1
  end.

(** Whether a finite number is a whole number. *)
Definition isWhole (q : Q) : bool := Qeq_bool q (inject_Z (Qfloor q)).

(** How a call ends: with a value, with an exception, or not at all. *)
Inductive thrown : Type :=
| TypeError
| RangeError.

Inductive outcome (T : Type) : Type :=
| Returned (x : T)
| Throws (e : thrown)
| NeverReturns.

Arguments Returned {T} x.
Arguments Throws {T} e.
Arguments NeverReturns {T}.

(** *** splitIntoGroups *)

(** [i % g] for an index [i] and a finite [g >= 1]. *)
Definition remainder (i : nat) (g : Q) : Q :=
  (inject_Z (Z.of_nat i) - g * inject_Z (Qfloor (inject_Z (Z.of_nat i) / g)))%Q.

(** The position that [xs[x]] reads: [x] when it is one of the indices of
    the array; otherwise the value read is [undefined]. *)
Definition position {T} (xs : list T) (x : Q) : option nat :=
  if isWhole x && (0 <=? Qfloor x) && (Qfloor x <? Z.of_nat (length xs))
  then Some (Z.to_nat (Qfloor x)) else None.

(** [groups[i % g].push(p)]; [undefined.push] is a [TypeError], which ends
    the [forEach]. *)
Definition pushPlayer (g : Q) (acc : outcome (list (list string))) (ip : nat * string)
    : outcome (list (list string)) :=
  match acc with
  | Returned groups =>
      match position groups (remainder ip.1 g) with
      | Some k => Returned (alter (fun grp => grp ++ [ip.2]) k groups)
      | None => Throws TypeError
      end
  | Throws e => Throws e
  | NeverReturns => NeverReturns
  end.

(** [splitIntoGroups(players, numGroups)]: [Array.from({ length: g })]
    makes [floor(g)] groups for a finite [g], an array of any finite length
    being taken as possible, and is a [RangeError] for [Infinity]. *)
Definition splitIntoGroups (players : list string) (numGroups : number)
    : outcome (list (list string)) :=
  match atLeastOne numGroups with
  | Unbounded => Throws RangeError
  | Bounded g =>
      foldl (pushPlayer g) (Returned (replicate (Z.to_nat (Qfloor g)) [])) (imap pair players)
  end.

(** *** buildGlobalSchedule *)

(** [Math.floor((boards * totalRounds * 2) / N)] *)
Definition capByBoards (boards : count) (totalRounds : Q) (N : Z) : count :=
  match boards with
  | Bounded b => Bounded (inject_Z (Qfloor (b * totalRounds * 2 / inject_Z N)))
  | Unbounded => Unbounded
  end.

(** [Math.max(0, Math.min(capByBoards, capByRounds, capByOpponents))] *)
Definition initialTarget (groups : list (list string)) (boards : count) (totalRounds : Q) : Q :=
  let N := playerCount (allPlayersOf groups) in
  let others := qmin totalRounds (inject_Z (capByOpponents groups)) in
  qmax 0 (match capByBoards boards totalRounds N with
          | Bounded c => qmin c others
          | Unbounded => others
          end).

(** [gamesPlayed[p] >= targetGames] *)
Definition reached (ta : Tally) (targetGames : Q) (p : string) : bool :=
  Qle_bool targetGames (inject_Z (getZ (gamesPlayed ta) p)).

(** The predicate of [allMatches.filter(...)]. *)
Definition eligible (ta : Tally) (targetGames : Q) (m : Cand.t) : Prop :=
  (pairKey (Cand.A m) (Cand.B m) ∉ pairPlayed ta)
  ∧ reached ta targetGames (Cand.A m) = false
  ∧ reached ta targetGames (Cand.B m) = false.

Global Instance eligible_dec ta targetGames m : Decision (eligible ta targetGames m).
Proof. unfold eligible. apply _. Defined.

(** [targetGames - gamesPlayed[p]] *)
Definition need (ta : Tally) (targetGames : Q) (p : string) : Q :=
  (targetGames - inject_Z (getZ (gamesPlayed ta) p))%Q.

Definition combinedNeed (ta : Tally) (targetGames : Q) (m : Cand.t) : Q :=
  (need ta targetGames (Cand.A m) + need ta targetGames (Cand.B m))%Q.

Definition maxNeed (ta : Tally) (targetGames : Q) (m : Cand.t) : Q :=
  qmax (need ta targetGames (Cand.A m)) (need ta targetGames (Cand.B m)).

(** The comparator handed to [candidates.sort]. *)
Definition compareCandidates (ta : Tally) (r : Z) (targetGames : Q) (m1 m2 : Cand.t) : Q :=
  let byeScore1 := byeScore ta r m1 in
  let byeScore2 := byeScore ta r m2 in
  if negb (byeScore2 =? byeScore1) then inject_Z (byeScore2 - byeScore1) else
  let d1 := combinedNeed ta targetGames m1 in
  let d2 := combinedNeed ta targetGames m2 in
  if negb (Qeq_bool d2 d1) then (d2 - d1)%Q else
  let mx1 := maxNeed ta targetGames m1 in
  let mx2 := maxNeed ta targetGames m2 in
  (mx2 - mx1)%Q.

(** The stable insertion sort of [sortBy], for a comparator whose result
    is any finite number. *)
Fixpoint insertByQ {T} (cmp : T -> T -> Q) (x : T) (l : list T) : list T :=
  match l with
  | [] => [x]
  | y :: l' => if Qle_bool (cmp x y) 0 then x :: l else y :: insertByQ cmp x l'
  end.

Definition sortByQ {T} (cmp : T -> T -> Q) (l : list T) : list T :=
  foldr (insertByQ cmp) [] l.

Definition rankedCandidates (allMatches : list Cand.t) (ta : Tally) (r : Z) (targetGames : Q)
    : list Cand.t :=
  sortByQ (compareCandidates ta r targetGames) (filter (eligible ta targetGames) allMatches).

(** [round.length >= boards] *)
Definition full (boards : count) (round : list Match.t) : bool :=
  match boards with
  | Bounded b => Qle_bool b (inject_Z (Z.of_nat (length round)))
  | Unbounded => false
  end.

(** The selection loop of one round. *)
Fixpoint selectLoop (boards : count) (r : Z) (candidates : list Cand.t) (st : RoundState)
    : RoundState :=
  match candidates with
  | [] => st
  | m :: rest =>
      if full boards (roundMatches st) then st
      else if bool_decide (Cand.A m ∈ usedThisRound st) || bool_decide (Cand.B m ∈ usedThisRound st)
      then selectLoop boards r rest st
      else selectLoop boards r rest (commit r m st)
  end.

Definition roundStep (allMatches : list Cand.t) (boards : count) (targetGames : Q)
    (acc : Tally * list (list Match.t)) (r : Z) : Tally * list (list Match.t) :=
  let candidates := rankedCandidates allMatches acc.1 r targetGames in
  let st := selectLoop boards r candidates (mkRound [] ∅ acc.1) in
  (tally st, acc.2 ++ [roundMatches st]).

(** [mx === targetGames] *)
Definition isTarget (mx : xnum) (targetGames : Q) : bool :=
  match mx with
  | Fin z => Qeq_bool (inject_Z z) targetGames
  | _ => false
  end.

(** [tryBuild(targetGames)] for a finite number of rounds: the loop
    [for (r = 1; r <= totalRounds; r++)] runs for the whole numbers up to
    [totalRounds]. *)
Definition tryBuild (allPlayers : list string) (allMatches : list Cand.t)
    (boards : count) (totalRounds targetGames : Q) : list (list Match.t) * bool :=
  let final := foldl (roundStep allMatches boards targetGames)
                     (initTally allPlayers, []) (roundNumbers (Qfloor totalRounds)) in
  let counts := map (getZ (gamesPlayed final.1)) allPlayers in
  let mn := mathMin counts in
  let mx := mathMax counts in
  let equal := xeqb mn mx && isTarget mx targetGames in
  (final.2, equal).

(** [while (target >= 0) { ... target -= 1 }], at most [left] times; the
    fallback [Array.from({ length: totalRounds }, () => [])] has
    [floor(totalRounds)] rounds. *)
Fixpoint searchTarget (allPlayers : list string) (allMatches : list Cand.t)
    (boards : count) (totalRounds target : Q) (left : nat) : list (list Match.t) :=
  match left with
  | O => emptySchedule (Qfloor totalRounds)
  | S left' =>
      if Qle_bool 0 target then
        let attempt := tryBuild allPlayers allMatches boards totalRounds target in
        if attempt.2 then attempt.1
        else searchTarget allPlayers allMatches boards totalRounds (target - 1)%Q left'
      else emptySchedule (Qfloor totalRounds)
  end.

(** [buildGlobalSchedule(groupRounds, boards, preferredRounds)].  With
    [Infinity] rounds the loop over the rounds of the first attempt has no
    end.  Otherwise the targets tried are [target], [target - 1], ... as
    long as they are not negative, which [floor(target) + 1] steps cover
    ([Js_searchTarget_fuel]). *)
Definition buildGlobalSchedule (groupRounds : list (list (list (string * string))))
    (boards preferredRounds : number) : outcome (list (list Match.t)) :=
  let boards := atLeastOne boards in
  match atLeastOne preferredRounds with
  | Unbounded => NeverReturns
  | Bounded totalRounds =>
      let groups := groupsOf groupRounds in
      let allPlayers := allPlayersOf groups in
      let allMatches := allMatchesOf groups in
      let target := initialTarget groups boards totalRounds in
      Returned (searchTarget allPlayers allMatches boards totalRounds target
                             (Z.to_nat (Qfloor target + 1)))
  end.

End Js.

(** The number of matches at which [round.length >= boards] first holds:
    the board count rounded up.  With [Infinity] boards it never holds; the
    number of candidates stands for it, which no round reaches before its
    candidates are used up. *)
Definition boardLimit (boards : Js.count) (allMatches : list Cand.t) : Z :=
  match boards with
  | Js.Bounded b => Qceiling b
  | Js.Unbounded => Z.of_nat (length allMatches)
  end.

(** * Properties *)

(** ** Coercion of the numeric arguments *)

Lemma atLeastOne_ge x : 1 <= atLeastOne x.
Proof. unfold atLeastOne. lia. Qed.

Lemma atLeastOne_pos n : 1 <= n -> atLeastOne (Num n) = n.
Proof.
  intros Hn. unfold atLeastOne, orDefault.
  destruct (Z.eqb_spec n 0); lia.
Qed.

Lemma atLeastOne_invalid x :
  x = NaN ∨ (∃ z, x = Num z ∧ z <= 0) -> atLeastOne x = 1.
Proof.
  intros [-> | (z & -> & Hz)]; unfold atLeastOne, orDefault; [reflexivity|].
  destruct (Z.eqb_spec z 0); lia.
Qed.

Lemma splitIntoGroups_fold_one (h : nat -> nat) (players acc : list string) :
  foldl (fun groups ip => alter (fun grp => grp ++ [ip.2]) (ip.1 mod 1)%nat groups)
        [acc] (imap (fun i p => (h i, p)) players) = [acc ++ players].
Proof.
  revert h acc. induction players as [|p players IH]; intros h acc.
  - simpl. by rewrite app_nil_r.
  - rewrite imap_cons. cbn [foldl fst snd]. rewrite Nat.mod_1_r.
    change (alter _ 0%nat [acc]) with [acc ++ [p]].
    change (imap ((fun i p0 => (h i, p0)) ∘ S) players)
      with (imap (fun i p0 => (h (S i), p0)) players).
    rewrite (IH (fun i => h (S i))). by rewrite <- app_assoc.
Qed.

Lemma splitIntoGroups_one (players : list string) (x : jsnum) :
  atLeastOne x = 1 -> splitIntoGroups players x = [players].
Proof.
  intros Hx. unfold splitIntoGroups. rewrite Hx. simpl.
  apply (splitIntoGroups_fold_one (fun i => i) players []).
Qed.

(** C8. A board count, round count or group count that is not a number or
    is not positive is read as [1]: the schedule builder and the group
    splitter, which are total functions, give the result they give on [1];
    with one group the splitter returns the whole player list as that
    group. *)
Theorem invalid_counts_coerced_to_one (x : jsnum) :
  x = NaN ∨ (∃ z, x = Num z ∧ z <= 0) ->
  atLeastOne x = 1
  ∧ (∀ groupRounds preferredRounds,
        buildGlobalSchedule groupRounds x preferredRounds
        = buildGlobalSchedule groupRounds (Num 1) preferredRounds)
  ∧ (∀ groupRounds boards,
        buildGlobalSchedule groupRounds boards x
        = buildGlobalSchedule groupRounds boards (Num 1))
  ∧ (∀ players, splitIntoGroups players x = splitIntoGroups players (Num 1))
  ∧ (∀ players, splitIntoGroups players x = [players]).
Proof.
  intros Hx. pose proof (atLeastOne_invalid x Hx) as H1.
  assert (atLeastOne (Num 1) = 1) as H1' by reflexivity.
  repeat split.
  - exact H1.
  - intros. unfold buildGlobalSchedule. by rewrite H1, H1'.
  - intros. unfold buildGlobalSchedule. by rewrite H1, H1'.
  - intros. by rewrite !splitIntoGroups_one.
  - intros. by rewrite splitIntoGroups_one.
Qed.

Lemma invalid_counts_coerced_to_one_witness :
  atLeastOne (Num (-3)) = 1
  ∧ (∀ groupRounds preferredRounds,
        buildGlobalSchedule groupRounds (Num (-3)) preferredRounds
        = buildGlobalSchedule groupRounds (Num 1) preferredRounds)
  ∧ (∀ groupRounds boards,
        buildGlobalSchedule groupRounds boards (Num (-3))
        = buildGlobalSchedule groupRounds boards (Num 1))
  ∧ (∀ players, splitIntoGroups players (Num (-3)) = splitIntoGroups players (Num 1))
  ∧ (∀ players, splitIntoGroups players (Num (-3)) = [players]).
Proof.
  apply (invalid_counts_coerced_to_one (Num (-3))).
  right. exists (-3). split; [reflexivity | lia].
Defined.

(** ** No players *)

Lemma tryBuild_no_players allMatches boards totalRounds targetGames :
  (tryBuild [] allMatches boards totalRounds targetGames).2 = false.
Proof. reflexivity. Qed.

Lemma searchTarget_no_players allMatches boards totalRounds target :
  searchTarget [] allMatches boards totalRounds target = emptySchedule totalRounds.
Proof.
  induction target as [|target IH]; cbn [searchTarget];
    rewrite tryBuild_no_players; [reflexivity | exact IH].
Qed.

Lemma buildGlobalSchedule_no_players groupRounds boards preferredRounds :
  allPlayersOf (groupsOf groupRounds) = [] ->
  buildGlobalSchedule groupRounds boards preferredRounds
  = emptySchedule (atLeastOne preferredRounds).
Proof.
  intros Hnone. unfold buildGlobalSchedule. rewrite Hnone.
  apply searchTarget_no_players.
Qed.

Lemma concat_replicate_nil {T} (k : nat) : concat (replicate k (@nil T)) = [].
Proof. induction k as [|k IH]; [reflexivity | exact IH]. Qed.

Lemma no_players_no_groups_members (numGroups : jsnum) :
  allPlayersOf (groupsOf (buildGroupPairings (splitIntoGroups [] numGroups))) = [].
Proof.
  unfold splitIntoGroups, buildGroupPairings, groupsOf, allPlayersOf. cbn [imap foldl].
  change (map roundRobinPairs ?l) with (roundRobinPairs <$> l).
  rewrite fmap_replicate.
  change (map groupPlayers ?l) with (groupPlayers <$> l).
  rewrite fmap_replicate.
  change (groupPlayers (roundRobinPairs [])) with (@nil string).
  by rewrite concat_replicate_nil.
Qed.

Lemma improveRound_nil lastBoard : improveRound lastBoard [] = [].
Proof. reflexivity. Qed.

Lemma rebalance_fold_empty_rounds (k : nat) acc :
  foldl rebalanceStep acc (replicate k []) = (acc.1, acc.2 ++ replicate k []).
Proof.
  revert acc. induction k as [|k IH]; intros [lb out]; cbn [replicate foldl].
  - cbn. by rewrite app_nil_r.
  - unfold rebalanceStep at 2. cbn [fst snd]. rewrite improveRound_nil.
    rewrite IH. cbn [fst snd finalizeRound foldl].
    by rewrite <- app_assoc.
Qed.

Lemma rebalanceBoards_emptySchedule totalRounds :
  rebalanceBoards (emptySchedule totalRounds) = emptySchedule totalRounds.
Proof.
  unfold rebalanceBoards, emptySchedule. by rewrite rebalance_fold_empty_rounds.
Qed.

Lemma totals_empty_rounds players (k : nat) :
  totals players (replicate k []) = zeroed players.
Proof.
  unfold totals. generalize (zeroed players) as counts.
  induction k as [|k IH]; intros counts; [reflexivity|].
  cbn [replicate foldl]. exact (IH counts).
Qed.

(** C7. When the group pairings name no player -- there is no group, or
    the groups were split from an empty player list -- the builder returns
    the fallback: as many empty rounds as the coerced round count, which is
    the round count itself when that is a positive integer; the totals over
    the rebalanced schedule for the empty player list are the empty
    dictionary. *)
Theorem no_players_empty_schedule groupRounds boards preferredRounds :
  groupRounds = []
  ∨ (∃ numGroups, groupRounds = buildGroupPairings (splitIntoGroups [] numGroups))
  ∨ allPlayersOf (groupsOf groupRounds) = [] ->
  buildGlobalSchedule groupRounds boards preferredRounds
  = replicate (Z.to_nat (atLeastOne preferredRounds)) []
  ∧ (∀ n, 1 <= n -> preferredRounds = Num n ->
       buildGlobalSchedule groupRounds boards preferredRounds = replicate (Z.to_nat n) [])
  ∧ totals [] (rebalanceBoards (buildGlobalSchedule groupRounds boards preferredRounds)) = ∅.
Proof.
  intros Hnone.
  assert (allPlayersOf (groupsOf groupRounds) = []) as Hnil.
  { destruct Hnone as [-> | [(numGroups & ->) | H]];
      [reflexivity | apply no_players_no_groups_members | exact H]. }
  pose proof (buildGlobalSchedule_no_players groupRounds boards preferredRounds Hnil) as Hb.
  rewrite Hb. repeat split.
  - intros n Hn ->. unfold emptySchedule. by rewrite atLeastOne_pos.
  - rewrite rebalanceBoards_emptySchedule. unfold emptySchedule.
    by rewrite totals_empty_rounds.
Qed.

Lemma no_players_empty_schedule_witness :
  buildGlobalSchedule [] (Num 3) (Num 6) = replicate 6 []
  ∧ totals [] (rebalanceBoards (buildGlobalSchedule [] (Num 3) (Num 6))) = ∅.
Proof.
  destruct (no_players_empty_schedule [] (Num 3) (Num 6)) as (H1 & _ & H3).
  - left. reflexivity.
  - split; [exact H1 | exact H3].
Defined.

(** ** The round-robin pairer *)

Lemma rrLoop_length k half a b : length (rrLoop k half a b) = k.
Proof.
  revert a b. induction k as [|k IH]; intros a b; [reflexivity|].
  cbn [rrLoop length]. by rewrite IH.
Qed.

(** The number of rounds: the padded size minus one. *)
Lemma roundRobinPairs_length (group : list string) :
  length (roundRobinPairs group)
  = if Nat.odd (length group) then length group else (length group - 1)%nat.
Proof.
  unfold roundRobinPairs. rewrite rrLoop_length.
  destruct (Nat.odd (length group)); [|reflexivity].
  rewrite length_app. cbn [length]. lia.
Qed.

(** The rotation leaves [a] as it is and reverses [b]. *)
Lemma rotateA_same half (a b : list string) :
  length a = half -> length b = half -> (1 <= half)%nat -> rotateA half a b = a.
Proof.
  intros Ha Hb Hh. unfold rotateA, slice, sliceFrom.
  destruct a as [|x a]; [cbn in Ha; lia|].
  cbn [length] in Ha. subst half.
  replace (S (length a) - 1 - 0)%nat with (length a) by lia.
  cbn [take drop app]. rewrite take_0, !drop_0. cbn [app].
  by rewrite take_app_length.
Qed.

Lemma rotateB_reverse half (a b : list string) :
  length a = half -> length b = half -> (1 <= half)%nat -> rotateB half a b = rev b.
Proof.
  intros Ha Hb Hh. unfold rotateB, slice, sliceFrom.
  destruct a as [|x a]; [cbn in Ha; lia|].
  destruct b as [|y b]; [cbn in Hb; lia|].
  cbn [length] in Ha. subst half.
  replace (S (length a) - 1)%nat with (length a) by lia.
  change (1 - 0)%nat with 1%nat. cbn [take drop app].
  rewrite take_0, !drop_0. by rewrite drop_app_length.
Qed.

(** Hence every round is played again two rounds later. *)
Lemma rrLoop_period k half (a b : list string) (r : nat) :
  length a = half -> length b = half -> (1 <= half)%nat -> (r + 2 < k)%nat ->
  rrLoop k half a b !! (r + 2)%nat = rrLoop k half a b !! r.
Proof.
  revert k a b. induction r as [|r IH]; intros k a b Ha Hb Hh Hk.
  - destruct k as [|[|[|k]]]; try lia. cbn [rrLoop].
    rewrite (rotateA_same half a b), (rotateB_reverse half a b) by done.
    rewrite rotateA_same, rotateB_reverse by (rewrite ?length_rev; done).
    by rewrite rev_involutive.
  - destruct k as [|k]; [lia|]. cbn [rrLoop].
    change (S r + 2)%nat with (S (r + 2)). cbn [lookup list_lookup].
    rewrite rotateA_same, rotateB_reverse by done.
    apply IH; rewrite ?length_rev; try done. lia.
Qed.

(** With no player named like the bye slot, every round has
    [floor(k / 2)] pairs. *)
Lemma roundPairs_length (a b : list string) :
  Forall (fun p => p ≠ BYE) a -> length a = length b ->
  length (roundPairs a b) = length (filter (fun q => q ≠ BYE) b).
Proof.
  intros Ha. revert b. induction Ha as [|x a Hx Ha IH]; intros [|y b] Hlen; try done.
  unfold roundPairs in *. cbn [zip zip_with]. rewrite !filter_cons. cbn [fst snd].
  cbn [length] in Hlen. specialize (IH b ltac:(lia)).
  destruct (decide (y ≠ BYE)) as [Hy|Hy].
  - rewrite decide_True by done. cbn [length]. by rewrite IH.
  - rewrite decide_False by tauto. done.
Qed.

Lemma filter_rev_length (b : list string) :
  length (filter (fun q => q ≠ BYE) (rev b)) = length (filter (fun q => q ≠ BYE) b).
Proof. apply Permutation_length. by rewrite <- Permutation_rev. Qed.

Lemma rrLoop_pairs_per_round k half (a b : list string) :
  length a = half -> length b = half -> (1 <= half)%nat ->
  Forall (fun p => p ≠ BYE) a ->
  Forall (fun round => length round = length (filter (fun q => q ≠ BYE) b))
         (rrLoop k half a b).
Proof.
  intros Ha Hb Hh Hbye. revert b Hb.
  induction k as [|k IH]; intros b Hb; cbn [rrLoop]; constructor.
  - apply roundPairs_length; [done | lia].
  - rewrite rotateA_same, rotateB_reverse by done.
    rewrite <- filter_rev_length. apply IH. by rewrite length_rev.
Qed.

Lemma filter_not_bye_all (l : list string) :
  BYE ∉ l -> filter (fun q => q ≠ BYE) l = l.
Proof.
  induction l as [|x l IH]; [done|].
  intros Hnot. rewrite filter_cons, decide_True.
  - f_equal. apply IH. intros ?. apply Hnot. by right.
  - intros ->. apply Hnot. by left.
Qed.

Lemma div2_double (h : nat) : (2 * h / 2 = h)%nat.
Proof. rewrite Nat.mul_comm. apply Nat.div_mul. lia. Qed.

Lemma div2_double_plus_one (h : nat) : ((2 * h + 1) / 2 = h)%nat.
Proof. symmetry. apply (Nat.div_unique _ 2 h 1); lia. Qed.

Lemma roundRobinPairs_pairs_per_round (group : list string) :
  BYE ∉ group ->
  Forall (fun round => length round = (length group / 2)%nat) (roundRobinPairs group).
Proof.
  intros Hbye. unfold roundRobinPairs, slice, sliceFrom.
  rewrite Nat.sub_0_r, drop_0.
  assert (∀ n : nat, Forall (fun p => p ≠ BYE) (take n group)
                     ∧ BYE ∉ drop n group) as Hparts.
  { intros n. split.
    - apply Forall_forall. intros p Hp ->. apply Hbye. by apply (subseteq_take n group).
    - intros Hin. apply Hbye. by apply (subseteq_drop n group). }
  destruct (Nat.odd (length group)) eqn:Hodd.
  - apply Nat.odd_spec in Hodd as [h Hh].
    rewrite length_app. cbn [length].
    replace ((length group + 1) / 2)%nat with (S h)
      by (rewrite Hh; replace (2 * h + 1 + 1)%nat with (2 * S h)%nat by lia;
          by rewrite div2_double).
    replace (length group / 2)%nat with h by (by rewrite Hh, div2_double_plus_one).
    rewrite take_app_le, drop_app_le by lia.
    destruct (Hparts (S h)) as [Ha Hb].
    eapply Forall_impl.
    + apply (rrLoop_pairs_per_round _ (S h)); [ | | lia | exact Ha].
      * rewrite length_take. lia.
      * rewrite length_rev, length_app, length_drop. cbn [length]. lia.
    + cbn beta. intros round ->.
      rewrite filter_rev_length, filter_app, filter_not_bye_all by done.
      rewrite filter_cons, decide_False by (by intros ?). rewrite filter_nil.
      rewrite length_app, length_drop. cbn [length]. lia.
  - assert (Nat.even (length group) = true) as Heven
      by (rewrite <- Nat.negb_odd, Hodd; done).
    apply Nat.even_spec in Heven as [h Hh].
    replace (length group / 2)%nat with h by (by rewrite Hh, div2_double).
    destruct h as [|h].
    { replace (length group - 1)%nat with 0%nat by lia. constructor. }
    destruct (Hparts (S h)) as [Ha Hb].
    eapply Forall_impl.
    + apply (rrLoop_pairs_per_round _ (S h)); [ | | lia | exact Ha].
      * rewrite length_take. lia.
      * rewrite length_rev, length_drop. lia.
    + cbn beta. intros round ->.
      rewrite filter_rev_length, filter_not_bye_all by done.
      rewrite length_drop. lia.
Qed.

(** A player named like the bye slot is dropped with it. *)
Example roundRobinPairs_player_named_bye :
  roundRobinPairs ["__BYE__"; "P2"]%string = [[]].
Proof. vm_compute. reflexivity. Qed.

(** C4, at a group of four: the three rounds have two pairs each, but the
    third round is the first one again, so [{P1, P4}] and [{P2, P3}] are
    paired twice and [{P1, P2}] and [{P3, P4}] never. *)
Theorem roundRobinPairs_repeats_first_round :
  roundRobinPairs ["P1"; "P2"; "P3"; "P4"]%string
  = [[("P1", "P4"); ("P2", "P3")]; [("P1", "P3"); ("P2", "P4")];
     [("P1", "P4"); ("P2", "P3")]]%string
  ∧ pairCount "P1" "P4" (roundRobinPairs ["P1"; "P2"; "P3"; "P4"]%string) = 2%nat
  ∧ pairCount "P1" "P2" (roundRobinPairs ["P1"; "P2"; "P3"; "P4"]%string) = 0%nat.
Proof. repeat split; vm_compute; reflexivity. Qed.

(** ** The board rebalance layer *)

Lemma setBoard_same m : setBoard m (Match.board m) = m.
Proof. by destruct m. Qed.

Lemma withoutBoard_setBoard m b : withoutBoard (setBoard m b) = withoutBoard m.
Proof. reflexivity. Qed.

Lemma conflictForMatch_range lastBoard m : 0 <= conflictForMatch lastBoard m <= 2.
Proof.
  unfold conflictForMatch.
  destruct (sameBoard _ (Match.A m) _), (sameBoard _ (Match.B m) _); lia.
Qed.

Lemma roundConflict_cons lastBoard m ms :
  roundConflict lastBoard (m :: ms) = conflictForMatch lastBoard m + roundConflict lastBoard ms.
Proof. reflexivity. Qed.

Lemma roundConflict_insert lastBoard (ms : list Match.t) (i : nat) m m' :
  ms !! i = Some m ->
  roundConflict lastBoard (<[i := m']> ms)
  = roundConflict lastBoard ms - conflictForMatch lastBoard m + conflictForMatch lastBoard m'.
Proof.
  revert i. induction ms as [|x ms IH]; intros [|i] Hi; try done.
  - cbn in Hi. injection Hi as ->. cbn. lia.
  - cbn in Hi. change (<[S i := m']> (x :: ms)) with (x :: <[i := m']> ms).
    rewrite !roundConflict_cons, (IH i Hi). lia.
Qed.

(** What one visit of the inner loop does: nothing, or a swap of the boards
    of two different matches that lowers their combined conflict. *)
Lemma trySwap_cases lastBoard (i j : nat) (st : list Match.t * bool) :
  trySwap lastBoard i j st = st
  ∨ ∃ m1 m2,
      i ≠ j ∧ st.1 !! i = Some m1 ∧ st.1 !! j = Some m2
      ∧ conflictForMatch lastBoard (setBoard m1 (Match.board m2))
        + conflictForMatch lastBoard (setBoard m2 (Match.board m1))
        < conflictForMatch lastBoard m1 + conflictForMatch lastBoard m2
      ∧ trySwap lastBoard i j st
        = (<[j := setBoard m2 (Match.board m1)]> (<[i := setBoard m1 (Match.board m2)]> st.1),
           true).
Proof.
  unfold trySwap.
  destruct (st.1 !! i) as [m1|] eqn:Hi; [|by left].
  destruct (st.1 !! j) as [m2|] eqn:Hj; [|by left].
  match goal with |- context [if ?c then _ else _] => destruct c eqn:Hlt end; [|by left].
  right. exists m1, m2. apply Z.ltb_lt in Hlt.
  split; [|done].
  intros ->. rewrite Hi in Hj. injection Hj as ->.
  rewrite !setBoard_same in Hlt. lia.
Qed.

Lemma trySwap_length lastBoard i j st :
  length (trySwap lastBoard i j st).1 = length st.1.
Proof.
  destruct (trySwap_cases lastBoard i j st) as [-> | (m1 & m2 & _ & _ & _ & _ & ->)];
    [done|]. cbn [fst]. by rewrite !length_insert.
Qed.

Lemma trySwap_withoutBoard lastBoard i j st :
  withoutBoard <$> (trySwap lastBoard i j st).1 = withoutBoard <$> st.1.
Proof.
  destruct (trySwap_cases lastBoard i j st) as [-> | (m1 & m2 & _ & Hi & Hj & _ & ->)];
    [done|]. cbn [fst].
  rewrite !list_fmap_insert, !withoutBoard_setBoard.
  rewrite (list_insert_id (withoutBoard <$> st.1) i).
  - apply list_insert_id. by rewrite list_lookup_fmap, Hj.
  - by rewrite list_lookup_fmap, Hi.
Qed.

Lemma insert_swap_head (bs : list Z) (j : nat) (b1 b2 : Z) :
  bs !! j = Some b2 -> b2 :: <[j := b1]> bs ≡ₚ b1 :: bs.
Proof.
  revert j. induction bs as [|b bs IH]; intros [|j] Hj; try done; cbn in Hj.
  - injection Hj as ->. apply perm_swap.
  - change (<[S j := b1]> (b :: bs)) with (b :: <[j := b1]> bs).
    rewrite (perm_swap b b2), (IH j Hj). apply perm_swap.
Qed.

Lemma insert_swap_perm (bs : list Z) (i j : nat) (b1 b2 : Z) :
  i ≠ j -> bs !! i = Some b1 -> bs !! j = Some b2 ->
  <[j := b1]> (<[i := b2]> bs) ≡ₚ bs.
Proof.
  revert i j. induction bs as [|b bs IH]; intros [|i] [|j] Hne Hi Hj; try done; cbn in Hi, Hj.
  - injection Hi as ->.
    change (<[S j := b1]> (<[0%nat := b2]> (b1 :: bs))) with (b2 :: <[j := b1]> bs).
    by apply insert_swap_head.
  - injection Hj as ->.
    change (<[0%nat := b1]> (<[S i := b2]> (b2 :: bs))) with (b1 :: <[i := b2]> bs).
    by apply insert_swap_head.
  - change (<[S j := b1]> (<[S i := b2]> (b :: bs)))
      with (b :: <[j := b1]> (<[i := b2]> bs)).
    apply Permutation_cons; [done|]. apply IH; [congruence | done | done].
Qed.

Lemma trySwap_boards lastBoard i j st :
  Match.board <$> (trySwap lastBoard i j st).1 ≡ₚ Match.board <$> st.1.
Proof.
  destruct (trySwap_cases lastBoard i j st) as [-> | (m1 & m2 & Hne & Hi & Hj & _ & ->)];
    [done|]. cbn [fst].
  rewrite !list_fmap_insert. cbn [setBoard Match.board].
  apply insert_swap_perm; [done | |]; rewrite list_lookup_fmap.
  - by rewrite Hi.
  - by rewrite Hj.
Qed.

Lemma trySwap_conflict lastBoard i j st :
  roundConflict lastBoard (trySwap lastBoard i j st).1 <= roundConflict lastBoard st.1.
Proof.
  destruct (trySwap_cases lastBoard i j st) as [-> | (m1 & m2 & Hne & Hi & Hj & Hlt & ->)];
    [lia|]. cbn [fst].
  rewrite (roundConflict_insert _ _ j m2) by (by rewrite list_lookup_insert_ne).
  rewrite (roundConflict_insert _ _ i m1) by done. lia.
Qed.

(** A swap leaves every other match of the round as it was. *)
Lemma trySwap_others lastBoard i j st (k : nat) :
  k ≠ i -> k ≠ j -> (trySwap lastBoard i j st).1 !! k = st.1 !! k.
Proof.
  intros Hki Hkj.
  destruct (trySwap_cases lastBoard i j st) as [-> | (m1 & m2 & _ & _ & _ & _ & ->)];
    [done|]. cbn [fst]. by rewrite !list_lookup_insert_ne.
Qed.

(** Whatever relation every visit of the inner loop maintains is
    maintained by the passes and by the whole loop of a round. *)
Section SwapLoop.
Variable lastBoard : gmap string Z.
Variable R : list Match.t -> list Match.t -> Prop.
Hypothesis R_refl : ∀ ms, R ms ms.
Hypothesis R_trans : ∀ ms1 ms2 ms3, R ms1 ms2 -> R ms2 ms3 -> R ms1 ms3.
Hypothesis R_swap : ∀ i j st, R st.1 (trySwap lastBoard i j st).1.

Lemma innerLoop_related len i st : R st.1 (innerLoop lastBoard len i st).1.
Proof.
  unfold innerLoop. generalize (seq (S i) (len - S i)) as js.
  intros js. revert st. induction js as [|j js IH]; intros st; cbn [foldl].
  - apply R_refl.
  - eapply R_trans; [apply (R_swap i j st) | apply IH].
Qed.

Lemma swapPass_related ms : R ms (swapPass lastBoard ms).1.
Proof.
  unfold swapPass. generalize (length ms) as len. intros len.
  change ms with ((ms, false).1) at 1. generalize (ms, false) as st.
  generalize (seq 0 len) as idx.
  intros idx. induction idx as [|i idx IH]; intros st; cbn [foldl].
  - apply R_refl.
  - eapply R_trans; [apply (innerLoop_related len i st) | apply IH].
Qed.

Lemma improveLoop_related left ms guard : R ms (improveLoop left lastBoard ms guard).1.
Proof.
  revert ms guard. induction left as [|left IH]; intros ms guard; cbn [improveLoop].
  - apply R_refl.
  - destruct (swapPass lastBoard ms).2.
    + eapply R_trans; [apply swapPass_related | apply IH].
    + apply swapPass_related.
Qed.

Lemma improveRound_related ms : R ms (improveRound lastBoard ms).
Proof. apply improveLoop_related. Qed.
End SwapLoop.

Lemma improveRound_withoutBoard lastBoard ms :
  withoutBoard <$> improveRound lastBoard ms = withoutBoard <$> ms.
Proof.
  symmetry.
  apply (improveRound_related lastBoard
           (fun ms1 ms2 => withoutBoard <$> ms1 = withoutBoard <$> ms2)); try done.
  - intros ??? -> ->. done.
  - intros. by rewrite trySwap_withoutBoard.
Qed.

Lemma improveRound_boards lastBoard ms :
  Match.board <$> improveRound lastBoard ms ≡ₚ Match.board <$> ms.
Proof.
  symmetry.
  apply (improveRound_related lastBoard
           (fun ms1 ms2 => Match.board <$> ms1 ≡ₚ Match.board <$> ms2)); try done.
  - intros ??? -> ->. done.
  - intros. by rewrite trySwap_boards.
Qed.

Lemma swapPass_conflict lastBoard ms :
  roundConflict lastBoard (swapPass lastBoard ms).1 <= roundConflict lastBoard ms.
Proof.
  apply (swapPass_related lastBoard
           (fun ms1 ms2 => roundConflict lastBoard ms2 <= roundConflict lastBoard ms1)).
  - intros. lia.
  - intros. lia.
  - intros. apply trySwap_conflict.
Qed.

Lemma improveLoop_conflict left lastBoard ms guard :
  roundConflict lastBoard (improveLoop left lastBoard ms guard).1
  <= roundConflict lastBoard ms.
Proof.
  apply (improveLoop_related lastBoard
           (fun ms1 ms2 => roundConflict lastBoard ms2 <= roundConflict lastBoard ms1)).
  - intros. lia.
  - intros. lia.
  - intros. apply trySwap_conflict.
Qed.

Lemma improveRound_conflict lastBoard ms :
  roundConflict lastBoard (improveRound lastBoard ms) <= roundConflict lastBoard ms.
Proof. apply improveLoop_conflict. Qed.

(** The guard counts the passes and stops the loop at ten. *)
Lemma improveLoop_guard left lastBoard ms guard :
  ((improveLoop left lastBoard ms guard).2 <= guard + left)%nat.
Proof.
  revert ms guard. induction left as [|left IH]; intros ms guard; cbn [improveLoop].
  - cbn. lia.
  - destruct (swapPass lastBoard ms).2.
    + specialize (IH (swapPass lastBoard ms).1 (S guard)). lia.
    + cbn. lia.
Qed.

Lemma rebalance_fold acc schedule :
  (foldl rebalanceStep acc schedule).2 = acc.2 ++ rebalanceFrom acc.1 schedule.
Proof.
  revert acc. induction schedule as [|ms rest IH]; intros [lb out]; cbn [foldl rebalanceFrom].
  - cbn. by rewrite app_nil_r.
  - rewrite IH. unfold rebalanceStep. cbn [fst snd]. by rewrite <- app_assoc.
Qed.

Lemma rebalanceBoards_unfold schedule :
  rebalanceBoards schedule = rebalanceFrom ∅ schedule.
Proof. unfold rebalanceBoards. by rewrite rebalance_fold. Qed.

Lemma rebalanceFrom_frame lastBoard schedule :
  Forall2 (fun ms' ms => withoutBoard <$> ms' = withoutBoard <$> ms
                         ∧ Match.board <$> ms' ≡ₚ Match.board <$> ms)
          (rebalanceFrom lastBoard schedule) schedule.
Proof.
  revert lastBoard. induction schedule as [|ms rest IH]; intros lb; cbn [rebalanceFrom].
  - constructor.
  - constructor; [|apply IH].
    split; [apply improveRound_withoutBoard | apply improveRound_boards].
Qed.

Lemma rebalanceFrom_roundsImproved lastBoard schedule :
  roundsImproved lastBoard schedule (rebalanceFrom lastBoard schedule).
Proof.
  revert lastBoard. induction schedule as [|ms rest IH]; intros lb; cbn; [done|].
  split; [apply improveRound_conflict | apply IH].
Qed.

Lemma rebalanceFrom_conflict lastBoard schedule :
  conflictFrom lastBoard (rebalanceFrom lastBoard schedule)
  <= conflictAgainstRebalanced lastBoard schedule.
Proof.
  revert lastBoard. induction schedule as [|ms rest IH]; intros lb; cbn; [lia|].
  pose proof (improveRound_conflict lb ms).
  specialize (IH (finalizeRound lb (improveRound lb ms))). lia.
Qed.

(** C5. [rebalanceBoards] returns the rounds of its input, each with the
    matches of the input round in their order: round number, players and
    group index of every match are kept, so no match is added, dropped or
    given other players; only board numbers change, and the board numbers
    of a round are those of the input round in another order. *)
Theorem rebalanceBoards_changes_boards_only (schedule : list (list Match.t)) :
  length (rebalanceBoards schedule) = length schedule
  ∧ Forall2 (fun ms' ms => length ms' = length ms
                           ∧ withoutBoard <$> ms' = withoutBoard <$> ms
                           ∧ Match.board <$> ms' ≡ₚ Match.board <$> ms)
            (rebalanceBoards schedule) schedule.
Proof.
  rewrite rebalanceBoards_unfold.
  pose proof (rebalanceFrom_frame ∅ schedule) as Hf.
  split.
  - by apply Forall2_length in Hf.
  - eapply Forall2_impl; [exact Hf|]. intros ms' ms [Hw Hperm]. split; [|done].
    apply Permutation_length in Hperm. by rewrite !length_fmap in Hperm.
Qed.

(** C6, as stated, fails on [fourRounds]: the rebalanced schedule scores
    2 where the input scores 1, both when a player's board of the
    immediately preceding round is compared and when the board of the
    latest round the player played is. *)
Lemma rebalanceBoards_raises_total_conflict :
  ¬ (totalConflictDoc (rebalanceBoards fourRounds) <= totalConflictDoc fourRounds)
  ∧ ¬ (totalConflict (rebalanceBoards fourRounds) <= totalConflict fourRounds).
Proof. split; vm_compute; intros H; apply H; reflexivity. Qed.

(** A schedule that comes from the builder: rebalancing lowers the score
    that [rebalanceBoards] works with, which remembers a player's board
    over rounds the player sat out, from 6 to 4, and raises the score of
    the design document, which looks at the preceding round only, from 0
    to 3. *)
Example tenPlayersSchedule_conflicts :
  totalConflict tenPlayersSchedule = 6
  ∧ totalConflict (rebalanceBoards tenPlayersSchedule) = 4
  ∧ totalConflictDoc tenPlayersSchedule = 0
  ∧ totalConflictDoc (rebalanceBoards tenPlayersSchedule) = 3.
Proof. repeat split; vm_compute; reflexivity. Qed.

(** C6, amended. Every round returned by [rebalanceBoards] scores, against
    the last-board dictionary left by the returned rounds before it, no
    more than the input round does against that dictionary; summed over
    the rounds, the conflict score of the returned schedule is at most the
    score of the input rounds against those dictionaries. *)
Theorem rebalanceBoards_round_conflict_not_raised (schedule : list (list Match.t)) :
  roundsImproved ∅ schedule (rebalanceBoards schedule)
  ∧ totalConflict (rebalanceBoards schedule) <= conflictAgainstRebalanced ∅ schedule.
Proof.
  rewrite rebalanceBoards_unfold. split.
  - apply rebalanceFrom_roundsImproved.
  - apply rebalanceFrom_conflict.
Qed.

(** C10. Against a fixed last-board dictionary, a visit of the inner loop
    either leaves the round as it is or swaps the boards of two different
    matches whose combined conflict the swap strictly lowers; it leaves
    every other match, hence its conflict, untouched and never raises the
    round's conflict score.  So the score does not rise over a pass nor over
    the whole loop, which makes at most ten passes. *)
Theorem swap_loop_never_raises_round_conflict (lastBoard : gmap string Z) :
  (∀ i j st,
      (trySwap lastBoard i j st = st
       ∨ ∃ m1 m2,
           i ≠ j ∧ st.1 !! i = Some m1 ∧ st.1 !! j = Some m2
           ∧ conflictForMatch lastBoard (setBoard m1 (Match.board m2))
             + conflictForMatch lastBoard (setBoard m2 (Match.board m1))
             < conflictForMatch lastBoard m1 + conflictForMatch lastBoard m2
           ∧ trySwap lastBoard i j st
             = (<[j := setBoard m2 (Match.board m1)]>
                  (<[i := setBoard m1 (Match.board m2)]> st.1), true))
      ∧ (∀ k : nat, k ≠ i -> k ≠ j -> (trySwap lastBoard i j st).1 !! k = st.1 !! k)
      ∧ roundConflict lastBoard (trySwap lastBoard i j st).1 <= roundConflict lastBoard st.1)
  ∧ (∀ ms, roundConflict lastBoard (swapPass lastBoard ms).1 <= roundConflict lastBoard ms)
  ∧ (∀ ms, roundConflict lastBoard (improveLoop 10 lastBoard ms 0).1
           <= roundConflict lastBoard ms
           ∧ ((improveLoop 10 lastBoard ms 0).2 <= 10)%nat).
Proof.
  split; [|split].
  - intros i j st. split; [apply trySwap_cases | split].
    + intros k. apply trySwap_others.
    + apply trySwap_conflict.
  - intros ms. apply swapPass_conflict.
  - intros ms. split; [apply improveLoop_conflict|].
    pose proof (improveLoop_guard 10 lastBoard ms 0). lia.
Qed.

(** ** Sorting the candidates *)

Section StableSort.
Context {T : Type} (cmp : T -> T -> Z).

Lemma insertBy_perm x l : insertBy cmp x l ≡ₚ x :: l.
Proof.
  induction l as [|y l IH]; cbn [insertBy]; [done|].
  destruct (cmp x y <=? 0); [done|].
  rewrite IH. apply perm_swap.
Qed.

Lemma sortBy_perm l : sortBy cmp l ≡ₚ l.
Proof.
  induction l as [|x l IH]; [done|].
  cbn [sortBy foldr]. fold (sortBy cmp l). by rewrite insertBy_perm, IH.
Qed.

Section Sorted.
Hypothesis cmp_total : ∀ x y, ¬ (cmp x y <= 0) -> cmp y x <= 0.
Hypothesis cmp_trans : ∀ x y z, cmp x y <= 0 -> cmp y z <= 0 -> cmp x z <= 0.

Lemma insertBy_sorted x l :
  StronglySorted (fun a b => cmp a b <= 0) l ->
  StronglySorted (fun a b => cmp a b <= 0) (insertBy cmp x l).
Proof.
  induction l as [|y l IH]; intros Hs; cbn [insertBy].
  - repeat constructor.
  - apply StronglySorted_inv in Hs as [Hs Hy].
    destruct (Z.leb_spec (cmp x y) 0) as [Hxy|Hxy].
    + constructor; [by constructor|].
      constructor; [done|].
      eapply Forall_impl; [exact Hy|]. intros z Hz. by eapply cmp_trans.
    + constructor; [by apply IH|].
      rewrite insertBy_perm. constructor; [|done].
      apply cmp_total. lia.
Qed.

Lemma sortBy_sorted l : StronglySorted (fun a b => cmp a b <= 0) (sortBy cmp l).
Proof.
  induction l as [|x l IH]; [constructor|].
  cbn [sortBy foldr]. by apply insertBy_sorted.
Qed.
End Sorted.

Section Stable.
Context {K : Type} `{EqDecision K} (key : T -> K).
Hypothesis cmp_key : ∀ x y, key x = key y -> cmp x y <= 0.

Lemma insertBy_same_key k x l :
  filter (fun y => key y = k) (insertBy cmp x l) = filter (fun y => key y = k) (x :: l).
Proof.
  induction l as [|y l IH]; cbn [insertBy]; [done|].
  destruct (Z.leb_spec (cmp x y) 0) as [Hxy|Hxy]; [done|].
  rewrite filter_cons, IH, !filter_cons.
  destruct (decide (key y = k)) as [Hy|Hy], (decide (key x = k)) as [Hx|Hx]; try done.
  specialize (cmp_key x y). rewrite Hx, Hy in cmp_key. specialize (cmp_key eq_refl). lia.
Qed.

Lemma sortBy_stable k l :
  filter (fun y => key y = k) (sortBy cmp l) = filter (fun y => key y = k) l.
Proof.
  induction l as [|x l IH]; [done|].
  cbn [sortBy foldr]. fold (sortBy cmp l).
  by rewrite insertBy_same_key, !filter_cons, IH.
Qed.
End Stable.
End StableSort.

Lemma compareCandidates_le ta r targetGames m1 m2 :
  compareCandidates ta r targetGames m1 m2 <= 0
  <-> notAfter (rankKey ta r targetGames m1) (rankKey ta r targetGames m2).
Proof.
  unfold compareCandidates, notAfter, rankKey. cbn [fst snd].
  destruct (Z.eqb_spec (byeScore ta r m2) (byeScore ta r m1));
    destruct (Z.eqb_spec (combinedNeed ta targetGames m2) (combinedNeed ta targetGames m1));
    cbn [negb]; lia.
Qed.

Lemma notAfter_total k1 k2 : ¬ notAfter k1 k2 -> notAfter k2 k1.
Proof. unfold notAfter. lia. Qed.

Lemma notAfter_trans k1 k2 k3 : notAfter k1 k2 -> notAfter k2 k3 -> notAfter k1 k3.
Proof. unfold notAfter. lia. Qed.

Lemma notAfter_refl k : notAfter k k.
Proof. unfold notAfter. lia. Qed.

Lemma rankedCandidates_perm allMatches ta r targetGames :
  rankedCandidates allMatches ta r targetGames ≡ₚ filter (eligible ta targetGames) allMatches.
Proof. apply sortBy_perm. Qed.

Lemma StronglySorted_weaken {T} (R R' : T -> T -> Prop) (l : list T) :
  (∀ x y, R x y -> R' x y) -> StronglySorted R l -> StronglySorted R' l.
Proof.
  intros HR. induction 1 as [|x l Hs IH Hx]; constructor; [done|].
  eapply Forall_impl; [exact Hx | apply HR].
Qed.

Lemma rankedCandidates_sorted allMatches ta r targetGames :
  StronglySorted (fun m1 m2 => notAfter (rankKey ta r targetGames m1) (rankKey ta r targetGames m2))
                 (rankedCandidates allMatches ta r targetGames).
Proof.
  eapply StronglySorted_weaken;
    [|apply (sortBy_sorted (compareCandidates ta r targetGames))].
  - intros m1 m2 H. by apply compareCandidates_le.
  - intros m1 m2 H. apply compareCandidates_le, notAfter_total.
    intros H'. by apply H, compareCandidates_le.
  - intros m1 m2 m3 H12 H23. apply compareCandidates_le.
    eapply notAfter_trans; by apply compareCandidates_le.
Qed.

Lemma rankedCandidates_stable allMatches ta r targetGames (k : Z * Z * Z) :
  filter (fun m => rankKey ta r targetGames m = k) (rankedCandidates allMatches ta r targetGames)
  = filter (fun m => rankKey ta r targetGames m = k) (filter (eligible ta targetGames) allMatches).
Proof.
  apply (sortBy_stable (compareCandidates ta r targetGames)).
  intros m1 m2 Hk. apply compareCandidates_le. rewrite Hk. apply notAfter_refl.
Qed.

(** A list is determined by being sorted on a key and listing the elements
    of every key in a given order: whatever stable sort the engine runs, it
    returns the list computed by [sortBy]. *)
Lemma stable_sorted_unique {T K : Type} `{EqDecision K} (key : T -> K) (R : K -> K -> Prop)
    (l1 l2 : list T) :
  (∀ k1 k2, R k1 k2 -> R k2 k1 -> k1 = k2) ->
  StronglySorted (fun x y => R (key x) (key y)) l1 ->
  StronglySorted (fun x y => R (key x) (key y)) l2 ->
  (∀ k, filter (fun x => key x = k) l1 = filter (fun x => key x = k) l2) ->
  l1 = l2.
Proof.
  intros Hanti. revert l2. induction l1 as [|x l1 IH]; intros l2 Hs1 Hs2 Hsame.
  - destruct l2 as [|y l2]; [done|].
    specialize (Hsame (key y)). rewrite filter_nil, filter_cons, decide_True in Hsame; done.
  - apply StronglySorted_inv in Hs1 as [Hs1 Hx].
    destruct l2 as [|y l2].
    { specialize (Hsame (key x)). rewrite filter_nil, filter_cons, decide_True in Hsame; done. }
    apply StronglySorted_inv in Hs2 as [Hs2 Hy].
    assert (key y = key x) as Hkey.
    { destruct (decide (key y = key x)) as [|Hne]; [done|]. exfalso.
      pose proof (Hsame (key x)) as Hkx. pose proof (Hsame (key y)) as Hky.
      rewrite (filter_cons _ x), (filter_cons _ y), decide_True, decide_False in Hkx by done.
      rewrite (filter_cons _ x), (filter_cons _ y), decide_False, decide_True in Hky
        by (done || by intros ?).
      assert (x ∈ l2) as Hx2.
      { assert (x ∈ filter (fun z => key z = key x) l2) as Hin by (rewrite <- Hkx; by left).
        by apply list_elem_of_filter in Hin as [_ ?]. }
      assert (y ∈ l1) as Hy1.
      { assert (y ∈ filter (fun z => key z = key y) l1) as Hin by (rewrite Hky; by left).
        by apply list_elem_of_filter in Hin as [_ ?]. }
      rewrite Forall_forall in Hx, Hy.
      apply Hne, Hanti; [by apply Hy | by apply Hx]. }
    assert (x = y) as <-.
    { specialize (Hsame (key x)).
      rewrite (filter_cons _ x), (filter_cons _ y), !decide_True in Hsame by done.
      by injection Hsame. }
    f_equal. apply IH; [done | done |].
    intros k. specialize (Hsame k). rewrite !(filter_cons _ x) in Hsame.
    destruct (decide (key x = k)); [by injection Hsame | done].
Qed.

Lemma notAfter_antisym k1 k2 : notAfter k1 k2 -> notAfter k2 k1 -> k1 = k2.
Proof.
  destruct k1 as [[b1 d1] x1], k2 as [[b2 d2] x2]. unfold notAfter. cbn [fst snd].
  intros H1 H2. repeat f_equal; lia.
Qed.

(** The ranked candidates are the only list that is sorted by the three
    keys and keeps the candidates of equal keys in their order. *)
Lemma rankedCandidates_unique allMatches ta r targetGames (l : list Cand.t) :
  StronglySorted (fun m1 m2 => notAfter (rankKey ta r targetGames m1) (rankKey ta r targetGames m2)) l ->
  (∀ k : Z * Z * Z,
      filter (fun m => rankKey ta r targetGames m = k) l
      = filter (fun m => rankKey ta r targetGames m = k) (filter (eligible ta targetGames) allMatches)) ->
  l = rankedCandidates allMatches ta r targetGames.
Proof.
  intros Hsorted Hstable.
  apply (stable_sorted_unique (rankKey ta r targetGames) notAfter).
  - apply notAfter_antisym.
  - exact Hsorted.
  - apply rankedCandidates_sorted.
  - intros k. by rewrite rankedCandidates_stable.
Qed.

(** ** The selection loop of a round *)

Lemma commits_snoc r ta chosen m :
  commits r ta (chosen ++ [m]) = commit r m (commits r ta chosen).
Proof. unfold commits. by rewrite foldl_app. Qed.

Lemma numberBoards_snoc r chosen m :
  numberBoards r (chosen ++ [m])
  = numberBoards r chosen
    ++ [Match.mk r (Z.of_nat (length chosen) + 1) (Cand.A m) (Cand.B m) (Cand.group m)].
Proof.
  unfold numberBoards. rewrite imap_app. cbn [imap]. by rewrite Nat.add_0_r.
Qed.

Lemma numberBoards_length r chosen : length (numberBoards r chosen) = length chosen.
Proof. unfold numberBoards. by rewrite length_imap. Qed.

Lemma candPlayers_snoc chosen m :
  candPlayers (chosen ++ [m]) = candPlayers chosen ++ [Cand.A m; Cand.B m].
Proof. unfold candPlayers. by rewrite flat_map_app. Qed.

Lemma commits_roundMatches r ta chosen :
  roundMatches (commits r ta chosen) = numberBoards r chosen.
Proof.
  induction chosen as [|m chosen IH] using rev_ind; [done|].
  rewrite commits_snoc, numberBoards_snoc. cbn [commit roundMatches].
  by rewrite IH, numberBoards_length.
Qed.

Lemma commits_used r ta chosen p :
  p ∈ usedThisRound (commits r ta chosen) <-> p ∈ candPlayers chosen.
Proof.
  induction chosen as [|m chosen IH] using rev_ind.
  - cbn. set_solver.
  - rewrite commits_snoc, candPlayers_snoc. cbn [commit usedThisRound].
    rewrite !elem_of_union, IH, elem_of_app, !elem_of_singleton.
    rewrite elem_of_cons, list_elem_of_singleton. tauto.
Qed.

Lemma getZ_insert m p q v :
  getZ (<[p := v]> m) q = if decide (p = q) then v else getZ m q.
Proof.
  unfold getZ. rewrite lookup_insert. by destruct (decide (p = q)).
Qed.

Lemma commits_gamesPlayed r ta chosen p :
  getZ (gamesPlayed (tally (commits r ta chosen))) p
  = getZ (gamesPlayed ta) p + timesNamed p chosen.
Proof.
  induction chosen as [|m chosen IH] using rev_ind.
  - cbn. lia.
  - rewrite commits_snoc. cbn [commit tally gamesPlayed].
    assert (timesNamed p (chosen ++ [m])
            = timesNamed p chosen + (if decide (Cand.A m = p) then 1 else 0)
              + (if decide (Cand.B m = p) then 1 else 0)) as ->.
    { clear. induction chosen as [|c chosen IH]; cbn; [lia|].
      unfold timesNamed in IH. rewrite IH. lia. }
    rewrite !getZ_insert.
    destruct (decide (Cand.A m = p)) as [Ha|Ha], (decide (Cand.B m = p)) as [Hb|Hb];
      subst; rewrite ?decide_True by done; try lia.
    rewrite decide_False by congruence. lia.
Qed.

Lemma commits_pairPlayed r ta chosen k :
  k ∈ pairPlayed (tally (commits r ta chosen))
  <-> k ∈ pairPlayed ta ∨ ∃ m, m ∈ chosen ∧ k = pairKey (Cand.A m) (Cand.B m).
Proof.
  induction chosen as [|m chosen IH] using rev_ind.
  - cbn. split; [by left|]. intros [H | (m & Hm & _)]; [done|]. by apply elem_of_nil in Hm.
  - rewrite commits_snoc. cbn [commit tally pairPlayed].
    rewrite elem_of_union, IH, elem_of_singleton. split.
    + intros [[H | (m' & Hm' & ->)] | ->]; [by left | right | right].
      * exists m'. split; [|done]. apply elem_of_app. by left.
      * exists m. split; [|done]. apply elem_of_app. right. by apply list_elem_of_singleton.
    + intros [H | (m' & Hm' & ->)]; [by left; left|].
      apply elem_of_app in Hm' as [Hm' | Hm'].
      * left. right. by exists m'.
      * apply list_elem_of_singleton in Hm' as ->. by right.
Qed.

Lemma takeIfFree_full boards chosen cands :
  boards <= Z.of_nat (length chosen) -> foldl (takeIfFree boards) chosen cands = chosen.
Proof.
  intros Hfull. induction cands as [|m cands IH]; [done|].
  cbn [foldl]. unfold takeIfFree at 2.
  rewrite bool_decide_eq_false_2 by lia. exact IH.
Qed.

(** The loop with [break] and [continue] takes what the greedy selection
    of the design document takes. *)
Lemma selectLoop_commits boards r ta cands chosen :
  selectLoop boards r cands (commits r ta chosen)
  = commits r ta (foldl (takeIfFree boards) chosen cands).
Proof.
  revert chosen. induction cands as [|m cands IH]; intros chosen; [done|].
  cbn [selectLoop foldl].
  rewrite commits_roundMatches, numberBoards_length.
  destruct (Z.leb_spec boards (Z.of_nat (length chosen))) as [Hfull|Hroom].
  - assert (takeIfFree boards chosen m = chosen) as ->
      by (unfold takeIfFree; rewrite bool_decide_eq_false_2; [done | lia]).
    by rewrite takeIfFree_full.
  - unfold takeIfFree at 2.
    destruct (decide (Cand.A m ∈ candPlayers chosen)) as [Ha|Ha].
    { rewrite (bool_decide_eq_true_2 (Cand.A m ∈ usedThisRound _)) by (by apply commits_used).
      cbn [orb]. rewrite bool_decide_eq_false_2 by tauto. apply IH. }
    rewrite (bool_decide_eq_false_2 (Cand.A m ∈ usedThisRound _))
      by (by rewrite commits_used).
    cbn [orb].
    destruct (decide (Cand.B m ∈ candPlayers chosen)) as [Hb|Hb].
    { rewrite (bool_decide_eq_true_2 (Cand.B m ∈ usedThisRound _)) by (by apply commits_used).
      rewrite bool_decide_eq_false_2 by tauto. apply IH. }
    rewrite (bool_decide_eq_false_2 (Cand.B m ∈ usedThisRound _))
      by (by rewrite commits_used).
    rewrite bool_decide_eq_true_2 by done.
    rewrite <- commits_snoc. apply IH.
Qed.

Lemma selectLoop_greedyPick boards r ta cands :
  selectLoop boards r cands (mkRound [] ∅ ta) = commits r ta (greedyPick boards cands).
Proof. apply (selectLoop_commits boards r ta cands []). Qed.

(** An induction principle for what the greedy selection has taken. *)
Lemma greedyPick_ind boards (cands : list Cand.t) (P : list Cand.t -> Prop) :
  P [] ->
  (∀ chosen m, P chosen -> m ∈ cands -> Z.of_nat (length chosen) < boards ->
               Cand.A m ∉ candPlayers chosen -> Cand.B m ∉ candPlayers chosen ->
               P (chosen ++ [m])) ->
  P (greedyPick boards cands).
Proof.
  intros Hnil Hstep. unfold greedyPick.
  assert (∀ rest chosen, P chosen -> (∀ m, m ∈ rest -> m ∈ cands) ->
                         P (foldl (takeIfFree boards) chosen rest)) as Hgen.
  { induction rest as [|m rest IH]; intros chosen Hc Hin; [done|].
    cbn [foldl]. apply IH.
    - unfold takeIfFree. case_bool_decide as Hfree; [|done].
      destruct Hfree as (? & ? & ?). apply Hstep; try done. apply Hin. by left.
    - intros m' Hm'. apply Hin. by right. }
  by apply Hgen.
Qed.

Lemma roundStep_greedyPick allMatches boards targetGames ta schedule r :
  roundStep allMatches boards targetGames (ta, schedule) r
  = (tally (commits r ta (greedyPick boards (rankedCandidates allMatches ta r targetGames))),
     schedule ++ [numberBoards r (greedyPick boards (rankedCandidates allMatches ta r targetGames))]).
Proof.
  unfold roundStep. cbn [fst snd].
  by rewrite selectLoop_greedyPick, commits_roundMatches.
Qed.

(** ** Players and candidate matches *)

Lemma elem_of_concat {T} (x : T) (ls : list (list T)) :
  x ∈ concat ls <-> ∃ l, x ∈ l ∧ l ∈ ls.
Proof.
  induction ls as [|l ls IH]; cbn [concat].
  - split; [by intros ?%elem_of_nil | by intros (l & _ & ?%elem_of_nil)].
  - rewrite elem_of_app, IH. split.
    + intros [H | (l' & H & H')]; [exists l; split; [done | by left]|].
      exists l'. split; [done | by right].
    + intros (l' & H & H'). apply elem_of_cons in H' as [-> | H']; [by left|].
      right. by exists l'.
Qed.

Lemma setToArray_fold_elem (xs acc : list string) (x : string) :
  x ∈ foldl (fun acc x => if decide (x ∈ acc) then acc else acc ++ [x]) acc xs
  <-> x ∈ acc ∨ x ∈ xs.
Proof.
  revert acc. induction xs as [|y xs IH]; intros acc; cbn [foldl].
  - rewrite elem_of_nil. tauto.
  - rewrite IH, elem_of_cons. destruct (decide (y ∈ acc)) as [Hy|Hy].
    + split; [tauto|]. intros [H | [-> | H]]; tauto.
    + rewrite elem_of_app, list_elem_of_singleton. tauto.
Qed.

Lemma setToArray_fold_NoDup (xs acc : list string) :
  NoDup acc ->
  NoDup (foldl (fun acc x => if decide (x ∈ acc) then acc else acc ++ [x]) acc xs).
Proof.
  revert acc. induction xs as [|y xs IH]; intros acc Hacc; cbn [foldl]; [done|].
  apply IH. destruct (decide (y ∈ acc)) as [Hy|Hy]; [done|].
  apply NoDup_app. split; [done|]. split; [|apply NoDup_singleton].
  intros z Hz Hz'. apply list_elem_of_singleton in Hz' as ->. done.
Qed.

Lemma setToArray_elem xs x : x ∈ setToArray xs <-> x ∈ xs.
Proof.
  unfold setToArray. rewrite setToArray_fold_elem, elem_of_nil. tauto.
Qed.

Lemma setToArray_NoDup xs : NoDup (setToArray xs).
Proof. apply setToArray_fold_NoDup, NoDup_nil_2. Qed.

Lemma groupMatches_elem gPlayers g m :
  m ∈ groupMatches gPlayers g ->
  Cand.A m ∈ gPlayers ∧ Cand.B m ∈ gPlayers ∧ (NoDup gPlayers -> Cand.A m ≠ Cand.B m).
Proof.
  induction gPlayers as [|p rest IH]; cbn [groupMatches]; [by intros ?%elem_of_nil|].
  rewrite elem_of_app. intros [Hm | Hm].
  - apply list_elem_of_fmap in Hm as (q & -> & Hq). cbn.
    split; [by left|]. split; [by right|].
    intros Hnd ->. apply NoDup_cons in Hnd as [Hnotin _]. done.
  - destruct (IH Hm) as (Ha & Hb & Hne).
    split; [by right|]. split; [by right|].
    intros Hnd. apply Hne. by apply NoDup_cons in Hnd as [_ ?].
Qed.

Lemma allMatchesOf_elem groups m :
  m ∈ allMatchesOf groups ->
  ∃ g, g ∈ groups ∧ Cand.A m ∈ g ∧ Cand.B m ∈ g ∧ (NoDup g -> Cand.A m ≠ Cand.B m).
Proof.
  unfold allMatchesOf. intros Hm.
  apply elem_of_concat in Hm as (ms & Hm & Hms).
  apply list_elem_of_lookup in Hms as (i & Hi).
  rewrite list_lookup_imap in Hi.
  destruct (groups !! i) as [g|] eqn:Hg; [|done]. cbn in Hi. injection Hi as <-.
  exists g. split; [by eapply list_elem_of_lookup_2|].
  by apply groupMatches_elem in Hm.
Qed.

Lemma groupsOf_NoDup groupRounds g : g ∈ groupsOf groupRounds -> NoDup g.
Proof.
  unfold groupsOf. intros Hg.
  apply list_elem_of_fmap in Hg as (gr & -> & _). apply setToArray_NoDup.
Qed.

(** The candidate matches of [buildGlobalSchedule] pair two different
    players, both among [allPlayers]. *)
Lemma allMatches_players groupRounds m :
  m ∈ allMatchesOf (groupsOf groupRounds) ->
  Cand.A m ≠ Cand.B m
  ∧ Cand.A m ∈ allPlayersOf (groupsOf groupRounds)
  ∧ Cand.B m ∈ allPlayersOf (groupsOf groupRounds).
Proof.
  intros Hm. apply allMatchesOf_elem in Hm as (g & Hg & Ha & Hb & Hne).
  split; [apply Hne; by eapply groupsOf_NoDup|].
  unfold allPlayersOf. rewrite !setToArray_elem.
  split; apply elem_of_concat; by exists g.
Qed.

(** ** The key of an unordered pair *)

Lemma pairKey_comm a b : pairKey a b = pairKey b a.
Proof.
  unfold pairKey, String.ltb. rewrite (String.compare_antisym a b).
  destruct (String.compare b a) eqn:Hc; simpl; try done.
  apply String.compare_eq_iff in Hc. by subst.
Qed.

Lemma elem_of_pair_set (x a b : string) : x ∈ ({[a; b]} : gset string) <-> x = a ∨ x = b.
Proof. by rewrite elem_of_union, !elem_of_singleton. Qed.

Lemma pairKey_unordered (a b c d : string) :
  ({[a; b]} : gset string) = {[c; d]} -> pairKey a b = pairKey c d.
Proof.
  intros Heq.
  assert (a = c ∨ a = d) as Ha by (apply elem_of_pair_set; rewrite <- Heq, elem_of_pair_set; tauto).
  assert (b = c ∨ b = d) as Hb by (apply elem_of_pair_set; rewrite <- Heq, elem_of_pair_set; tauto).
  assert (c = a ∨ c = b) as Hc by (apply elem_of_pair_set; rewrite Heq, elem_of_pair_set; tauto).
  assert (d = a ∨ d = b) as Hd by (apply elem_of_pair_set; rewrite Heq, elem_of_pair_set; tauto).
  destruct Ha as [-> | ->], Hb as [-> | ->]; try done.
  - destruct Hd as [-> | ->]; done.
  - apply pairKey_comm.
  - destruct Hc as [-> | ->]; done.
Qed.

(** ** One round of a build attempt *)

Lemma candPlayers_elem chosen m :
  m ∈ chosen -> Cand.A m ∈ candPlayers chosen ∧ Cand.B m ∈ candPlayers chosen.
Proof.
  induction chosen as [|c chosen IH]; [by intros ?%elem_of_nil|].
  intros [-> | Hm]%elem_of_cons; cbn.
  - split; [by left | right; by left].
  - destruct (IH Hm). split; by do 2 right.
Qed.

Lemma roundPlayers_numberBoards r chosen :
  roundPlayers (numberBoards r chosen) = candPlayers chosen.
Proof.
  induction chosen as [|m chosen IH] using rev_ind; [done|].
  rewrite numberBoards_snoc, candPlayers_snoc. unfold roundPlayers in *.
  by rewrite flat_map_app, IH.
Qed.

Lemma unorderedPair_numberBoards r chosen :
  unorderedPair <$> numberBoards r chosen = candPair <$> chosen.
Proof.
  induction chosen as [|m chosen IH] using rev_ind; [done|].
  by rewrite numberBoards_snoc, !fmap_app, IH.
Qed.

Lemma board_numberBoards r chosen :
  Match.board <$> numberBoards r chosen = Z.of_nat <$> seq 1 (length chosen).
Proof.
  induction chosen as [|m chosen IH] using rev_ind; [done|].
  rewrite numberBoards_snoc, length_app, fmap_app, IH. cbn [length].
  rewrite Nat.add_1_r, seq_S, fmap_app. cbn. do 3 f_equal. lia.
Qed.

Lemma numberBoards_elem r chosen m :
  m ∈ numberBoards r chosen ->
  ∃ c, c ∈ chosen ∧ Match.A m = Cand.A c ∧ Match.B m = Cand.B c
       ∧ Match.group m = Cand.group c ∧ Match.round m = r.
Proof.
  induction chosen as [|c chosen IH] using rev_ind; [by intros ?%elem_of_nil|].
  rewrite numberBoards_snoc. intros [Hm | Hm]%elem_of_app.
  - destruct (IH Hm) as (c' & Hc' & H). exists c'. split; [|done].
    apply elem_of_app. by left.
  - apply list_elem_of_singleton in Hm as ->. exists c. split; [|done].
    apply elem_of_app. right. by apply list_elem_of_singleton.
Qed.

Lemma playsIn_numberBoards r chosen p :
  (∀ m, m ∈ chosen -> Cand.A m ≠ Cand.B m) ->
  Z.of_nat (length (filter (playsIn p) (numberBoards r chosen))) = timesNamed p chosen.
Proof.
  induction chosen as [|m chosen IH]  using rev_ind; intros Hne; [done|].
  rewrite numberBoards_snoc, filter_app, length_app, Nat2Z.inj_add, IH.
  2:{ intros m' Hm'. apply Hne, elem_of_app. by left. }
  assert (timesNamed p (chosen ++ [m])
          = timesNamed p chosen + ((if decide (Cand.A m = p) then 1 else 0)
            + (if decide (Cand.B m = p) then 1 else 0))) as ->.
  { clear. induction chosen as [|c chosen IH]; cbn; [lia|].
    unfold timesNamed in IH. rewrite IH. lia. }
  f_equal. rewrite filter_cons, filter_nil.
  assert (Cand.A m ≠ Cand.B m) as Hm
    by (apply Hne, elem_of_app; right; by apply list_elem_of_singleton).
  destruct (decide (playsIn p _)) as [Hp|Hp]; unfold playsIn in Hp; cbn [Match.A Match.B] in Hp;
    destruct (decide (Cand.A m = p)) as [Ha|Ha], (decide (Cand.B m = p)) as [Hb|Hb];
    cbn [length]; try lia; try tauto; congruence.
Qed.

Lemma rankedCandidates_elem allMatches ta r targetGames m :
  m ∈ rankedCandidates allMatches ta r targetGames ->
  m ∈ allMatches ∧ eligible ta targetGames m.
Proof.
  rewrite rankedCandidates_perm. intros Hm%list_elem_of_filter. tauto.
Qed.

(** What the greedy selection has taken in a round. *)
Lemma greedyPick_props boards (cands : list Cand.t) :
  0 <= boards ->
  (∀ m, m ∈ cands -> Cand.A m ≠ Cand.B m) ->
  let chosen := greedyPick boards cands in
  NoDup (candPlayers chosen)
  ∧ Z.of_nat (length chosen) <= boards
  ∧ (∀ m, m ∈ chosen -> m ∈ cands)
  ∧ NoDup (candPair <$> chosen).
Proof.
  intros Hboards Hne. cbn zeta. apply greedyPick_ind.
  - split; [apply NoDup_nil_2|]. split; [cbn; lia|].
    split; [by intros m ?%elem_of_nil | apply NoDup_nil_2].
  - intros chosen m (Hnd & Hlen & Hin & Hpairs) Hm Hroom Ha Hb.
    split; [|split; [|split]].
    + rewrite candPlayers_snoc. apply NoDup_app. split; [done|]. split.
      * intros p Hp [-> | [-> | ?%elem_of_nil]%elem_of_cons]%elem_of_cons; done.
      * apply NoDup_cons. split; [|apply NoDup_singleton].
        intros ?%list_elem_of_singleton. by apply (Hne m).
    + rewrite length_app. cbn [length]. lia.
    + intros m' [Hm' | ->%list_elem_of_singleton]%elem_of_app; [by apply Hin | done].
    + rewrite fmap_app. apply NoDup_app. split; [done|]. split; [|apply NoDup_singleton].
      intros pr Hpr Hpr'. apply list_elem_of_singleton in Hpr' as ->.
      apply list_elem_of_fmap in Hpr as (m' & Heq & Hm').
      destruct (candPlayers_elem chosen m' Hm') as [Ha' Hb'].
      assert (Cand.A m ∈ candPair m') as Hin'
        by (rewrite <- Heq; apply elem_of_pair_set; tauto).
      apply elem_of_pair_set in Hin' as [Hin' | Hin']; rewrite Hin' in Ha; done.
Qed.

Lemma appearances_snoc p schedule ms :
  appearances p (schedule ++ [ms])
  = appearances p schedule + Z.of_nat (length (filter (playsIn p) ms)).
Proof.
  unfold appearances. rewrite concat_app. cbn [concat].
  rewrite app_nil_r, filter_app, length_app. lia.
Qed.

Lemma appearances_nonneg p schedule : 0 <= appearances p schedule.
Proof. unfold appearances. lia. Qed.

(** A round of a build attempt keeps [buildInv]. *)
Lemma roundStep_buildInv allMatches boards targetGames ta schedule r :
  0 <= boards ->
  (∀ m, m ∈ allMatches -> Cand.A m ≠ Cand.B m) ->
  buildInv boards (ta, schedule) ->
  buildInv boards (roundStep allMatches boards targetGames (ta, schedule) r).
Proof.
  intros Hboards Hne (Hgood & Hpairs & Hkeys & Hgames).
  rewrite roundStep_greedyPick.
  set (ranked := rankedCandidates allMatches ta r targetGames).
  assert (∀ m, m ∈ ranked -> Cand.A m ≠ Cand.B m) as Hne'
    by (intros m Hm%rankedCandidates_elem; apply Hne; tauto).
  destruct (greedyPick_props boards ranked Hboards Hne') as (Hnd & Hlen & Hin & Hcp).
  set (chosen := greedyPick boards ranked) in *.
  cbn [fst snd] in *. unfold buildInv. cbn [fst snd].
  split; [|split; [|split]].
  - apply Forall_app. split; [done|]. constructor; [|constructor].
    unfold goodRound.
    rewrite roundPlayers_numberBoards, numberBoards_length, board_numberBoards. done.
  - rewrite concat_app. cbn [concat]. rewrite app_nil_r, fmap_app.
    apply NoDup_app. split; [done|]. rewrite unorderedPair_numberBoards. split; [|done].
    intros pr Hold Hnew.
    apply list_elem_of_fmap in Hold as (mo & -> & Hmo).
    apply list_elem_of_fmap in Hnew as (c & Heq & Hc).
    destruct (rankedCandidates_elem _ _ _ _ _ (Hin c Hc)) as [_ (Hfresh & _)].
    apply Hfresh. rewrite <- (pairKey_unordered _ _ _ _ Heq). by apply Hkeys.
  - intros m. rewrite concat_app. cbn [concat]. rewrite app_nil_r.
    intros [Hm | Hm]%elem_of_app; apply commits_pairPlayed.
    + left. by apply Hkeys.
    + right. apply numberBoards_elem in Hm as (c & Hc & -> & -> & _). by exists c.
  - intros p. rewrite commits_gamesPlayed, appearances_snoc, Hgames.
    rewrite playsIn_numberBoards; [done|].
    intros m Hm. by apply Hne', Hin.
Qed.

Lemma build_fold_buildInv allMatches boards targetGames rounds acc :
  0 <= boards ->
  (∀ m, m ∈ allMatches -> Cand.A m ≠ Cand.B m) ->
  buildInv boards acc ->
  buildInv boards (foldl (roundStep allMatches boards targetGames) acc rounds).
Proof.
  intros Hboards Hne. revert acc.
  induction rounds as [|r rounds IH]; intros [ta schedule] Hinv; [done|].
  cbn [foldl]. apply IH.
  destruct (roundStep allMatches boards targetGames (ta, schedule) r) as [ta' schedule'] eqn:Hstep.
  rewrite <- Hstep. by apply roundStep_buildInv.
Qed.

Lemma getZ_zeroed allPlayers p : getZ (zeroed allPlayers) p = 0.
Proof.
  unfold getZ, zeroed.
  destruct (list_to_map _ !! p) as [z|] eqn:Hz; [|done].
  apply elem_of_list_to_map_2 in Hz. apply list_elem_of_fmap in Hz as (q & Heq & _).
  by injection Heq as -> ->.
Qed.

Lemma initial_buildInv boards allPlayers : buildInv boards (initTally allPlayers, []).
Proof.
  unfold buildInv. cbn [fst snd concat fmap list_fmap].
  split; [constructor|]. split; [apply NoDup_nil_2|].
  split; [by intros m ?%elem_of_nil|].
  intros p. cbn [initTally gamesPlayed]. by rewrite getZ_zeroed.
Qed.

Lemma buildEnd_buildInv allPlayers allMatches boards totalRounds targetGames :
  0 <= boards ->
  (∀ m, m ∈ allMatches -> Cand.A m ≠ Cand.B m) ->
  buildInv boards (buildEnd allPlayers allMatches boards totalRounds targetGames).
Proof.
  intros Hboards Hne. apply build_fold_buildInv; [done | done | apply initial_buildInv].
Qed.

Lemma tryBuild_schedule allPlayers allMatches boards totalRounds targetGames :
  (tryBuild allPlayers allMatches boards totalRounds targetGames).1
  = (buildEnd allPlayers allMatches boards totalRounds targetGames).2.
Proof. reflexivity. Qed.

(** ** The equality test at the end of an attempt *)

Lemma mathMin_mathMax_nonempty (c : Z) (cs : list Z) :
  ∃ mn mx, mathMin (c :: cs) = Fin mn ∧ mathMax (c :: cs) = Fin mx
           ∧ mn ∈ c :: cs ∧ mx ∈ c :: cs
           ∧ Forall (fun x => mn <= x <= mx) (c :: cs).
Proof.
  revert c. induction cs as [|d cs IH]; intros c.
  - exists c, c. cbn. repeat split; try (by left). constructor; [lia | constructor].
  - destruct (IH d) as (mn & mx & Hmn & Hmx & Hin & Hax & Hall).
    exists (Z.min c mn), (Z.max c mx).
    change (mathMin (c :: d :: cs)) with (xmin (Fin c) (mathMin (d :: cs))).
    change (mathMax (c :: d :: cs)) with (xmax (Fin c) (mathMax (d :: cs))).
    rewrite Hmn, Hmx. cbn [xmin xmax].
    split; [done|]. split; [done|]. split; [|split].
    + destruct (Z.min_spec c mn) as [[_ ->] | [_ ->]]; [by left | by right].
    + destruct (Z.max_spec c mx) as [[_ ->] | [_ ->]]; [by right | by left].
    + constructor; [lia|]. eapply Forall_impl; [exact Hall|]. cbn. intros x Hx. lia.
Qed.

Lemma counts_equal_iff (counts : list Z) (targetGames : Z) :
  xeqb (mathMin counts) (mathMax counts) && xeqb (mathMax counts) (Fin targetGames) = true
  <-> counts ≠ [] ∧ Forall (fun c => c = targetGames) counts.
Proof.
  destruct counts as [|c cs].
  - cbn. split; [done | by intros [? _]].
  - destruct (mathMin_mathMax_nonempty c cs) as (mn & mx & -> & -> & Hin & Hax & Hall).
    cbn [xeqb]. rewrite andb_true_iff, !Z.eqb_eq. split.
    + intros [-> ->]. split; [done|].
      eapply Forall_impl; [exact Hall|]. cbn. intros x Hx. lia.
    + intros [_ Heq]. rewrite Forall_forall in Heq.
      rewrite (Heq mn Hin), (Heq mx Hax). done.
Qed.

(** An attempt reports [equal] exactly when there is a player and every
    player of [allPlayers] is in [targetGames] matches of its schedule. *)
Lemma tryBuild_equal_iff allPlayers allMatches boards totalRounds targetGames :
  0 <= boards ->
  (∀ m, m ∈ allMatches -> Cand.A m ≠ Cand.B m) ->
  (tryBuild allPlayers allMatches boards totalRounds targetGames).2 = true
  <-> allPlayers ≠ []
      ∧ ∀ p, p ∈ allPlayers ->
             appearances p (tryBuild allPlayers allMatches boards totalRounds targetGames).1
             = targetGames.
Proof.
  intros Hboards Hne.
  destruct (buildEnd_buildInv allPlayers allMatches boards totalRounds targetGames Hboards Hne)
    as (_ & _ & _ & Hgames).
  rewrite tryBuild_schedule. unfold tryBuild. cbn [snd].
  fold (buildEnd allPlayers allMatches boards totalRounds targetGames).
  rewrite counts_equal_iff. rewrite Forall_forall. split.
  - intros [Hnil Hall]. split; [by intros ->|].
    intros p Hp. rewrite <- Hgames. apply Hall.
    apply list_elem_of_In, in_map, list_elem_of_In, Hp.
  - intros [Hnil Hall]. split; [by destruct allPlayers|].
    intros c Hc. apply list_elem_of_In, in_map_iff in Hc as (p & <- & Hp%list_elem_of_In).
    rewrite Hgames. by apply Hall.
Qed.

(** ** The bye score *)

Lemma commits_lastPlayedRound r ta chosen p :
  getZ (lastPlayedRound (tally (commits r ta chosen))) p
  = if decide (p ∈ candPlayers chosen) then r else getZ (lastPlayedRound ta) p.
Proof.
  induction chosen as [|m chosen IH] using rev_ind.
  - cbn. rewrite decide_False; [done | by intros ?%elem_of_nil].
  - rewrite commits_snoc. cbn [commit tally lastPlayedRound].
    rewrite !getZ_insert, IH, candPlayers_snoc.
    destruct (decide (Cand.B m = p)) as [<-|Hb].
    { rewrite decide_True; [done|]. apply elem_of_app. right. right. by left. }
    destruct (decide (Cand.A m = p)) as [<-|Ha].
    { rewrite decide_True; [done|]. apply elem_of_app. right. by left. }
    destruct (decide (p ∈ candPlayers chosen)) as [Hp|Hp].
    + rewrite decide_True; [done|]. apply elem_of_app. by left.
    + rewrite decide_False; [done|].
      intros [? | [-> | [-> | ?%elem_of_nil]%elem_of_cons]%elem_of_cons]%elem_of_app; done.
Qed.

Lemma roundNumbers_succ (k : nat) :
  roundNumbers (Z.of_nat (S k)) = roundNumbers (Z.of_nat k) ++ [Z.of_nat (S k)].
Proof.
  unfold roundNumbers. rewrite !Nat2Z.id, seq_S, map_app. reflexivity.
Qed.

(** The state before round [k + 1] of an attempt is the end of an attempt
    of [k] rounds. *)
Lemma buildEnd_succ allPlayers allMatches boards targetGames (k : nat) :
  buildEnd allPlayers allMatches boards (Z.of_nat (S k)) targetGames
  = roundStep allMatches boards targetGames
      (buildEnd allPlayers allMatches boards (Z.of_nat k) targetGames) (Z.of_nat (S k)).
Proof. unfold buildEnd. by rewrite roundNumbers_succ, foldl_app. Qed.

Lemma buildEnd_lastPlayedInv allPlayers allMatches boards targetGames (k : nat) :
  lastPlayedInv k (buildEnd allPlayers allMatches boards (Z.of_nat k) targetGames).
Proof.
  induction k as [|k IH].
  - change (buildEnd allPlayers allMatches boards (Z.of_nat 0) targetGames)
      with (initTally allPlayers, @nil (list Match.t)).
    split; [done|]. intros p. cbn [fst snd initTally lastPlayedRound].
    rewrite getZ_zeroed. split; [lia | lia].
  - rewrite buildEnd_succ.
    destruct (buildEnd allPlayers allMatches boards (Z.of_nat k) targetGames) as [ta schedule].
    destruct IH as [Hlen Hlast]. cbn [fst snd] in Hlen, Hlast.
    rewrite roundStep_greedyPick. split; cbn [fst snd].
    + rewrite length_app. cbn [length]. lia.
    + intros p. rewrite commits_lastPlayedRound.
      unfold previousRound. rewrite last_snoc. unfold default. cbn [from_option id].
      rewrite roundPlayers_numberBoards.
      destruct (Hlast p) as [Hrange _].
      destruct (decide (p ∈ candPlayers _)) as [Hp|Hp].
      * split; [lia | done].
      * split; [lia|]. intros _. split; [lia | done].
Qed.

(** Before round [k + 1] the bye score of a candidate counts its players
    that are not in round [k]; in the first round it is [0]. *)
Lemma byeScore_previous_round allPlayers allMatches boards targetGames (k : nat) m :
  let st := buildEnd allPlayers allMatches boards (Z.of_nat k) targetGames in
  byeScore st.1 (Z.of_nat (S k)) m
  = if decide (k = 0%nat) then 0 else byeScoreDoc (previousRound st.2) m.
Proof.
  cbn zeta. replace (Z.of_nat (S k)) with (Z.of_nat k + 1) by lia.
  destruct (buildEnd_lastPlayedInv allPlayers allMatches boards targetGames k) as [_ Hlast].
  unfold byeScore, byeScoreDoc, hadByePrev.
  destruct (decide (k = 0%nat)) as [-> | Hk]; [done|].
  destruct (Z.eqb_spec (Z.of_nat k + 1) 1) as [|_]; [lia|].
  replace (Z.of_nat k + 1 - 1) with (Z.of_nat k) by lia.
  destruct (Hlast (Cand.A m)) as [_ Ha], (Hlast (Cand.B m)) as [_ Hb].
  specialize (Ha ltac:(lia)). specialize (Hb ltac:(lia)).
  destruct (Z.eqb_spec (getZ (lastPlayedRound (buildEnd allPlayers allMatches boards
                                                 (Z.of_nat k) targetGames).1) (Cand.A m))
                       (Z.of_nat k)) as [Ea|Ea];
    destruct (Z.eqb_spec (getZ (lastPlayedRound (buildEnd allPlayers allMatches boards
                                                   (Z.of_nat k) targetGames).1) (Cand.B m))
                         (Z.of_nat k)) as [Eb|Eb];
    cbn [negb];
    destruct (decide (Cand.A m ∈ _)) as [Pa|Pa]; destruct (decide (Cand.B m ∈ _)) as [Pb|Pb];
    try done; tauto.
Qed.

Lemma roundStep_fold_extends allMatches boards targetGames rounds acc :
  ∃ more, (foldl (roundStep allMatches boards targetGames) acc rounds).2 = acc.2 ++ more
          ∧ length more = length rounds.
Proof.
  revert acc. induction rounds as [|r rounds IH]; intros acc; cbn [foldl].
  - exists []. by rewrite app_nil_r.
  - destruct (IH (roundStep allMatches boards targetGames acc r)) as (more & -> & Hlen).
    exists ((selectLoop boards r (rankedCandidates allMatches acc.1 r targetGames)
                        (mkRound [] ∅ acc.1)).(roundMatches) :: more).
    unfold roundStep at 1. cbn [snd length]. rewrite <- app_assoc. split; [done | lia].
Qed.

(** The rounds of an attempt are built one after the other: round [k + 1]
    of an attempt of more rounds is the round added to the first [k]. *)
Lemma tryBuild_round allPlayers allMatches boards targetGames (k totalRounds : nat) :
  (k < totalRounds)%nat ->
  (tryBuild allPlayers allMatches boards (Z.of_nat totalRounds) targetGames).1 !! k
  = (buildEnd allPlayers allMatches boards (Z.of_nat (S k)) targetGames).2 !! k.
Proof.
  intros Hk. rewrite tryBuild_schedule.
  assert (roundNumbers (Z.of_nat totalRounds)
          = roundNumbers (Z.of_nat (S k))
            ++ map (fun i => Z.of_nat i) (seq (S (S k)) (totalRounds - S k))) as Hsplit.
  { unfold roundNumbers. rewrite !Nat2Z.id, <- map_app, <- seq_app. do 2 f_equal. lia. }
  unfold buildEnd at 1. rewrite Hsplit, foldl_app.
  fold (buildEnd allPlayers allMatches boards (Z.of_nat (S k)) targetGames).
  destruct (roundStep_fold_extends allMatches boards targetGames
              (map (fun i => Z.of_nat i) (seq (S (S k)) (totalRounds - S k)))
              (buildEnd allPlayers allMatches boards (Z.of_nat (S k)) targetGames))
    as (more & -> & _).
  apply lookup_app_l.
  destruct (buildEnd_lastPlayedInv allPlayers allMatches boards targetGames (S k)) as [-> _].
  lia.
Qed.

(** C9. In round [k + 1] of a build attempt the eligible candidates are
    put in the order of three keys, each descending -- the bye score, which
    counts the players of the candidate that are not in a match of round
    [k] (and is [0] in the first round), then the combined need, then the
    larger need, where the need of a player is the target minus
    [gamesPlayed], the player's matches in the rounds so far when the
    candidates pair different players -- by a stable sort: the ranked list is a rearrangement of
    the filtered one, sorted by the keys, and candidates with the same
    three keys keep the order of [allMatches]; no other list has these two
    properties.  Round [k + 1] of the attempt's schedule then is the greedy
    selection from the ranked list, its boards numbered in the order of
    selection. *)
Theorem candidates_ranked_by_three_keys allPlayers allMatches boards targetGames (k : nat) :
  let st := buildEnd allPlayers allMatches boards (Z.of_nat k) targetGames in
  let r := Z.of_nat (S k) in
  let candidates := filter (eligible st.1 targetGames) allMatches in
  let ranked := rankedCandidates allMatches st.1 r targetGames in
  ranked ≡ₚ candidates
  ∧ StronglySorted
      (fun m1 m2 => notAfter (rankKey st.1 r targetGames m1) (rankKey st.1 r targetGames m2))
      ranked
  ∧ (∀ key : Z * Z * Z,
        filter (fun m => rankKey st.1 r targetGames m = key) ranked
        = filter (fun m => rankKey st.1 r targetGames m = key) candidates)
  ∧ (∀ l : list Cand.t,
        StronglySorted
          (fun m1 m2 => notAfter (rankKey st.1 r targetGames m1) (rankKey st.1 r targetGames m2))
          l ->
        (∀ key : Z * Z * Z,
            filter (fun m => rankKey st.1 r targetGames m = key) l
            = filter (fun m => rankKey st.1 r targetGames m = key) candidates) ->
        l = ranked)
  ∧ (∀ m, rankKey st.1 r targetGames m
          = (if decide (k = 0%nat) then 0 else byeScoreDoc (previousRound st.2) m,
             (targetGames - getZ (gamesPlayed st.1) (Cand.A m))
             + (targetGames - getZ (gamesPlayed st.1) (Cand.B m)),
             Z.max (targetGames - getZ (gamesPlayed st.1) (Cand.A m))
                   (targetGames - getZ (gamesPlayed st.1) (Cand.B m))))
  ∧ (0 <= boards -> (∀ m, m ∈ allMatches -> Cand.A m ≠ Cand.B m) ->
     ∀ p, getZ (gamesPlayed st.1) p = appearances p st.2)
  ∧ (∀ totalRounds : nat,
        (k < totalRounds)%nat ->
        (tryBuild allPlayers allMatches boards (Z.of_nat totalRounds) targetGames).1 !! k
        = Some (numberBoards r (greedyPick boards ranked))).
Proof.
  cbn zeta. split; [|split; [|split; [|split; [|split; [|split]]]]].
  - apply rankedCandidates_perm.
  - apply rankedCandidates_sorted.
  - apply rankedCandidates_stable.
  - apply rankedCandidates_unique.
  - intros m. unfold rankKey. by rewrite byeScore_previous_round.
  - intros Hboards Hne.
    by destruct (buildEnd_buildInv allPlayers allMatches boards (Z.of_nat k) targetGames
                   Hboards Hne) as (_ & _ & _ & Hgames).
  - intros totalRounds Hk. rewrite tryBuild_round by done. rewrite buildEnd_succ.
    destruct (buildEnd_lastPlayedInv allPlayers allMatches boards targetGames k) as [Hlen _].
    destruct (buildEnd allPlayers allMatches boards (Z.of_nat k) targetGames) as [ta schedule].
    rewrite roundStep_greedyPick. cbn [fst snd] in *.
    rewrite lookup_app_r by lia. by rewrite Hlen, Nat.sub_diag.
Qed.

(** ** The search for the target *)

(** The search returns the fallback after every attempt failed, or the
    schedule of the first attempt, counting down, that reports [equal]. *)
Lemma searchTarget_cases allPlayers allMatches boards totalRounds (target : nat) :
  (searchTarget allPlayers allMatches boards totalRounds target = emptySchedule totalRounds
   ∧ ∀ t : nat, (t <= target)%nat ->
       (tryBuild allPlayers allMatches boards totalRounds (Z.of_nat t)).2 = false)
  ∨ ∃ found : nat,
      (found <= target)%nat
      ∧ tryBuild allPlayers allMatches boards totalRounds (Z.of_nat found)
        = (searchTarget allPlayers allMatches boards totalRounds target, true)
      ∧ ∀ t : nat, (found < t <= target)%nat ->
          (tryBuild allPlayers allMatches boards totalRounds (Z.of_nat t)).2 = false.
Proof.
  induction target as [|target IH]; cbn [searchTarget].
  - destruct (tryBuild allPlayers allMatches boards totalRounds (Z.of_nat 0)) as [s e] eqn:Htry.
    cbn [fst snd]. destruct e.
    + right. exists 0%nat. split; [lia|]. split; [done|]. intros t Ht. lia.
    + left. split; [done|]. intros t Ht. assert (t = 0%nat) as -> by lia. by rewrite Htry.
  - destruct (tryBuild allPlayers allMatches boards totalRounds (Z.of_nat (S target)))
      as [s e] eqn:Htry.
    cbn [fst snd]. destruct e.
    + right. exists (S target). split; [lia|]. split; [done|]. intros t Ht. lia.
    + destruct IH as [[Hempty Hfail] | (found & Hle & Hfound & Hfail)].
      * left. split; [done|]. intros t Ht.
        destruct (decide (t = S target)) as [-> | Hne]; [by rewrite Htry|].
        apply Hfail. lia.
      * right. exists found. split; [lia|]. split; [done|]. intros t Ht.
        destruct (decide (t = S target)) as [-> | Hne]; [by rewrite Htry|].
        apply Hfail. lia.
Qed.

Lemma sortBy_nil {T} (cmp : T -> T -> Z) : sortBy cmp [] = [].
Proof. reflexivity. Qed.

(** With target [0] nobody is eligible: every round stays empty. *)
Lemma roundStep_target_zero allMatches boards ta schedule r :
  (∀ p, 0 <= getZ (gamesPlayed ta) p) ->
  roundStep allMatches boards 0 (ta, schedule) r = (ta, schedule ++ [[]]).
Proof.
  intros Hgames. rewrite roundStep_greedyPick.
  assert (rankedCandidates allMatches ta r 0 = []) as ->.
  { unfold rankedCandidates.
    assert (filter (eligible ta 0) allMatches = []) as ->; [|done].
    induction allMatches as [|m ms IH]; [done|].
    rewrite filter_cons, IH. rewrite decide_False; [done|].
    intros (_ & Ha & _). apply Ha, Hgames. }
  done.
Qed.

Lemma build_fold_target_zero allMatches boards rounds ta schedule :
  (∀ p, 0 <= getZ (gamesPlayed ta) p) ->
  foldl (roundStep allMatches boards 0) (ta, schedule) rounds
  = (ta, schedule ++ replicate (length rounds) []).
Proof.
  intros Hgames. revert schedule.
  induction rounds as [|r rounds IH]; intros schedule; cbn [foldl length replicate].
  - by rewrite app_nil_r.
  - rewrite roundStep_target_zero by done. rewrite IH. by rewrite <- app_assoc.
Qed.

Lemma tryBuild_target_zero allPlayers allMatches boards totalRounds :
  (tryBuild allPlayers allMatches boards totalRounds 0).1 = emptySchedule totalRounds.
Proof.
  unfold tryBuild. cbn [fst]. rewrite build_fold_target_zero.
  - cbn [snd app]. unfold emptySchedule, roundNumbers.
    change (map ?f ?l) with (f <$> l). by rewrite length_fmap, length_seq.
  - intros p. cbn [initTally gamesPlayed]. rewrite getZ_zeroed. lia.
Qed.

(** ** The caps *)

Lemma foldl_min_le (c : Z) (cs : list Z) :
  foldl Z.min c cs <= c ∧ Forall (fun x => foldl Z.min c cs <= x) cs.
Proof.
  revert c. induction cs as [|d cs IH]; intros c; cbn [foldl].
  - split; [lia | constructor].
  - destruct (IH (Z.min c d)) as [Hle Hall]. split; [lia|].
    constructor; [lia | done].
Qed.


(** ** The schedule returned by the builder *)

Lemma emptySchedule_buildInv boards totalRounds allPlayers :
  0 <= boards -> buildInv boards (initTally allPlayers, emptySchedule totalRounds).
Proof.
  intros Hboards. unfold buildInv, emptySchedule. cbn [fst snd].
  rewrite concat_replicate_nil. split; [|split; [|split]].
  - apply Forall_replicate. split; [apply NoDup_nil_2|]. split; [cbn; lia | done].
  - apply NoDup_nil_2.
  - by intros m ?%elem_of_nil.
  - intros p. cbn [initTally gamesPlayed]. rewrite getZ_zeroed.
    unfold appearances. by rewrite concat_replicate_nil.
Qed.

(** Whatever the search returns satisfies [buildInv] with some tally. *)
Lemma buildGlobalSchedule_buildInv groupRounds boards preferredRounds :
  ∃ ta, buildInv (atLeastOne boards)
                 (ta, buildGlobalSchedule groupRounds boards preferredRounds).
Proof.
  unfold buildGlobalSchedule.
  pose proof (atLeastOne_ge boards) as Hb.
  set (groups := groupsOf groupRounds).
  destruct (searchTarget_cases (allPlayersOf groups) (allMatchesOf groups)
              (atLeastOne boards) (atLeastOne preferredRounds)
              (Z.to_nat (initialTarget groups (atLeastOne boards) (atLeastOne preferredRounds))))
    as [[-> _] | (found & _ & Hfound & _)].
  - exists (initTally []). apply emptySchedule_buildInv. lia.
  - apply (f_equal fst) in Hfound. cbn [fst] in Hfound. rewrite <- Hfound.
    rewrite tryBuild_schedule.
    exists (buildEnd (allPlayersOf groups) (allMatchesOf groups) (atLeastOne boards)
              (atLeastOne preferredRounds) (Z.of_nat found)).1.
    rewrite <- surjective_pairing. apply buildEnd_buildInv; [lia|].
    intros m Hm. by apply allMatches_players in Hm as [? _].
Qed.

(** The schedule has as many rounds as the coerced round count. *)
Lemma buildGlobalSchedule_length groupRounds boards preferredRounds :
  length (buildGlobalSchedule groupRounds boards preferredRounds)
  = Z.to_nat (atLeastOne preferredRounds).
Proof.
  unfold buildGlobalSchedule.
  set (groups := groupsOf groupRounds).
  destruct (searchTarget_cases (allPlayersOf groups) (allMatchesOf groups)
              (atLeastOne boards) (atLeastOne preferredRounds)
              (Z.to_nat (initialTarget groups (atLeastOne boards) (atLeastOne preferredRounds))))
    as [[-> _] | (found & _ & Hfound & _)].
  - unfold emptySchedule. by rewrite length_replicate.
  - apply (f_equal fst) in Hfound. cbn [fst] in Hfound. rewrite <- Hfound.
    rewrite tryBuild_schedule.
    pose proof (atLeastOne_ge preferredRounds) as Hr.
    rewrite <- (Z2Nat.id (atLeastOne preferredRounds)) at 1 by lia.
    by destruct (buildEnd_lastPlayedInv (allPlayersOf groups) (allMatchesOf groups)
                   (atLeastOne boards) (Z.of_nat found)
                   (Z.to_nat (atLeastOne preferredRounds))) as [-> _].
Qed.

(** C2. No unordered pair of players is matched twice in the schedule
    that [buildGlobalSchedule] returns. *)
Theorem no_pair_meets_twice groupRounds boards preferredRounds :
  NoDup (unorderedPair <$> concat (buildGlobalSchedule groupRounds boards preferredRounds)).
Proof.
  destruct (buildGlobalSchedule_buildInv groupRounds boards preferredRounds)
    as (ta & _ & Hpairs & _).
  exact Hpairs.
Qed.

(** With a player the attempt at target [0] succeeds, so the fallback is
    only returned when the group pairings name nobody. *)
Lemma tryBuild_target_zero_equal allPlayers allMatches boards totalRounds :
  0 <= boards ->
  (∀ m, m ∈ allMatches -> Cand.A m ≠ Cand.B m) ->
  allPlayers ≠ [] ->
  (tryBuild allPlayers allMatches boards totalRounds 0).2 = true.
Proof.
  intros Hboards Hne Hsome. apply tryBuild_equal_iff; [done | done |].
  split; [done|]. intros p _. rewrite tryBuild_target_zero.
  unfold appearances, emptySchedule. by rewrite concat_replicate_nil.
Qed.

(** For every input that names a player the search succeeds, the attempt
    at [0] included; the cap is the one the code computes, where an empty
    group counts [0] opponents. *)
Lemma equal_games_with_players groupRounds boards preferredRounds :
  let b := atLeastOne boards in
  let totalRounds := atLeastOne preferredRounds in
  let groups := groupsOf groupRounds in
  let allPlayers := allPlayersOf groups in
  let allMatches := allMatchesOf groups in
  let result := buildGlobalSchedule groupRounds boards preferredRounds in
  allPlayers ≠ [] ->
  ∃ target : Z,
    0 <= target <= initialTarget groups b totalRounds
    ∧ tryBuild allPlayers allMatches b totalRounds target = (result, true)
    ∧ (∀ p, p ∈ allPlayers -> appearances p result = target)
    ∧ (∀ t, target < t <= initialTarget groups b totalRounds ->
         (tryBuild allPlayers allMatches b totalRounds t).2 = false).
Proof.
  intros b totalRounds groups allPlayers allMatches result Hsome.
  assert (0 <= b) as Hb by (pose proof (atLeastOne_ge boards); subst b; lia).
  assert (∀ m, m ∈ allMatches -> Cand.A m ≠ Cand.B m) as Hne
    by (intros m Hm; by apply allMatches_players in Hm as [? _]).
  set (start := initialTarget groups b totalRounds).
  assert (0 <= start) as Hstart by (unfold start, initialTarget; lia).
  destruct (searchTarget_cases allPlayers allMatches b totalRounds (Z.to_nat start))
    as [[_ Hfail] | (found & Hle & Hfound & Hfail)].
  - specialize (Hfail 0%nat ltac:(lia)). change (Z.of_nat 0) with 0 in Hfail.
    rewrite (tryBuild_target_zero_equal allPlayers allMatches b totalRounds Hb Hne Hsome)
      in Hfail. done.
  - change (searchTarget allPlayers allMatches b totalRounds (Z.to_nat start)) with result
      in Hfound.
    exists (Z.of_nat found). split; [lia|]. split; [done|]. split.
    + assert ((tryBuild allPlayers allMatches b totalRounds (Z.of_nat found)).2 = true) as Heq
        by (by rewrite Hfound).
      apply tryBuild_equal_iff in Heq as [_ Hall]; [|done|done].
      by rewrite Hfound in Hall.
    + intros t Ht. rewrite <- (Z2Nat.id t) by lia. apply Hfail. lia.
Qed.



(** The scenario of the design document: eight players, two groups, three
    boards, six rounds; everybody plays three games. *)
Example eightPlayers_three_games_each :
  map (fun p => appearances p (buildGlobalSchedule eightPlayers (Num 3) (Num 6)))
      (allPlayersOf (groupsOf eightPlayers))
  = [3; 3; 3; 3; 3; 3; 3; 3].
Proof. vm_compute. reflexivity. Qed.

(** * Further properties of the code *)

(** ** Player names *)

Lemma defaultName_inj (i j : Z) :
  "P" +:+ numberToString i = "P" +:+ numberToString j -> i = j.
Proof.
  unfold numberToString. intros H. cbn [String.append] in H. injection H as H.
  exact (inj pretty i j H).
Qed.

Lemma defaultName_not_reserved (i : Z) :
  "P" +:+ numberToString i ≠ BYE ∧ "P" +:+ numberToString i ≠ "__proto__"%string.
Proof. split; cbn [String.append]; intros H; discriminate H. Qed.

Lemma defaultNames_NoDup (start len : nat) :
  NoDup (map (fun i => "P" +:+ numberToString (Z.of_nat i + 1)) (seq start len)).
Proof.
  change (map ?f ?l) with (f <$> l). apply NoDup_fmap_2_strong; [|apply NoDup_seq].
  intros i j _ _ H. apply defaultName_inj in H. lia.
Qed.

(** X1. [buildPlayers(n)] returns [max(0, n)] names, none for a count that
    is not a number, the name at index [i] being [P] followed by the decimal
    numeral of [i + 1]; the names are pairwise different and none is the
    reserved [__BYE__] or [__proto__]. *)
Theorem buildPlayers_distinct_names (n : jsnum) :
  length (buildPlayers n) = Z.to_nat (Z.max 0 (orDefault n 0))
  ∧ buildPlayers NaN = []
  ∧ (∀ i : nat, (i < length (buildPlayers n))%nat ->
        buildPlayers n !! i = Some ("P" +:+ numberToString (Z.of_nat i + 1)))
  ∧ NoDup (buildPlayers n)
  ∧ (BYE ∉ buildPlayers n)
  ∧ ("__proto__"%string ∉ buildPlayers n).
Proof.
  unfold buildPlayers. split; [|split; [|split; [|split; [|split]]]].
  - by rewrite length_map, length_seq.
  - reflexivity.
  - intros i Hi. rewrite length_map, length_seq in Hi.
    change (map ?f ?l) with (f <$> l). rewrite list_lookup_fmap, lookup_seq_lt by done.
    reflexivity.
  - apply defaultNames_NoDup.
  - intros Hin. change (map ?f ?l) with (f <$> l) in Hin.
    apply list_elem_of_fmap in Hin as (i & Heq & _).
    by destruct (defaultName_not_reserved (Z.of_nat i + 1)) as [H _].
  - intros Hin. change (map ?f ?l) with (f <$> l) in Hin.
    apply list_elem_of_fmap in Hin as (i & Heq & _).
    by destruct (defaultName_not_reserved (Z.of_nat i + 1)) as [_ H].
Qed.

(** X2. The player list of the app has exactly as many names as the
    coerced player count: the entered names come first, cut at the count,
    and every missing position [i] gets the default name of [i + 1],
    whether or not that name was entered; with no name entered the list is
    that of [buildPlayers]. *)
Theorem appPlayers_fills_to_count (entered : list string) (numPlayers : jsnum) :
  let count := Z.to_nat (Z.max 0 (orDefault numPlayers 0)) in
  length (appPlayers entered numPlayers) = count
  ∧ take (length entered) (appPlayers entered numPlayers) = take count entered
  ∧ (∀ i : nat, (length entered <= i < count)%nat ->
        appPlayers entered numPlayers !! i = Some ("P" +:+ numberToString (Z.of_nat i + 1)))
  ∧ appPlayers [] numPlayers = buildPlayers numPlayers.
Proof.
  cbn zeta. unfold appPlayers, slice.
  set (count := Z.to_nat (Z.max 0 (orDefault numPlayers 0))).
  rewrite Nat.sub_0_r, drop_0.
  split; [|split; [|split]].
  - rewrite length_take, length_app, length_map, length_seq. lia.
  - rewrite take_take.
    destruct (decide (count <= length entered)%nat) as [Hle|Hgt].
    + rewrite Nat.min_r by lia. rewrite take_app_le by lia. done.
    + rewrite Nat.min_l by lia. rewrite take_app_length.
      by rewrite (take_ge entered count) by lia.
  - intros i Hi. rewrite lookup_take_lt by lia.
    rewrite lookup_app_r by lia.
    change (map ?f ?l) with (f <$> l). rewrite list_lookup_fmap, lookup_seq_lt by lia.
    cbn. do 3 f_equal. lia.
  - cbn [length app]. rewrite Nat.sub_0_r. unfold buildPlayers. fold count.
    apply take_ge. by rewrite length_map, length_seq.
Qed.

(** ** Splitting the players into groups *)

Lemma splitIntoGroups_nil (numGroups : jsnum) :
  splitIntoGroups [] numGroups = replicate (Z.to_nat (atLeastOne numGroups)) [].
Proof. reflexivity. Qed.

Lemma splitIntoGroups_snoc (players : list string) (p : string) (numGroups : jsnum) :
  splitIntoGroups (players ++ [p]) numGroups
  = alter (fun grp => grp ++ [p])
          (length players mod Z.to_nat (atLeastOne numGroups))%nat
          (splitIntoGroups players numGroups).
Proof.
  unfold splitIntoGroups. rewrite imap_app, foldl_app. cbn [imap foldl fst snd].
  by rewrite Nat.add_0_r.
Qed.

Lemma groupCount_pos (numGroups : jsnum) : (1 <= Z.to_nat (atLeastOne numGroups))%nat.
Proof. pose proof (atLeastOne_ge numGroups). lia. Qed.

Lemma div_mod_succ (n g : nat) :
  (1 <= g)%nat ->
  if decide (n mod g + 1 < g)%nat
  then (S n / g = n / g ∧ S n mod g = n mod g + 1)%nat
  else (S n / g = n / g + 1 ∧ S n mod g = 0)%nat.
Proof.
  intros Hg. pose proof (Nat.div_mod_eq n g) as Hn.
  pose proof (Nat.mod_upper_bound n g ltac:(lia)) as Hr.
  destruct (decide (n mod g + 1 < g)%nat) as [Hlt|Hge].
  - split.
    + symmetry. apply (Nat.div_unique _ g _ (n mod g + 1)); lia.
    + symmetry. apply (Nat.mod_unique _ g (n / g)); lia.
  - split.
    + symmetry. apply (Nat.div_unique _ g _ 0); lia.
    + symmetry. apply (Nat.mod_unique _ g (n / g + 1)); lia.
Qed.

(** The sizes of the groups after [n] players. *)
Lemma splitIntoGroups_sizes (players : list string) (numGroups : jsnum) :
  let g := Z.to_nat (atLeastOne numGroups) in
  length (splitIntoGroups players numGroups) = g
  ∧ ∀ j : nat, (j < g)%nat ->
      ∃ grp, splitIntoGroups players numGroups !! j = Some grp
             ∧ length grp
               = (length players / g + if decide (j < length players mod g)%nat then 1 else 0)%nat.
Proof.
  cbn zeta. pose proof (groupCount_pos numGroups) as Hg.
  set (g := Z.to_nat (atLeastOne numGroups)) in *.
  induction players as [|p players IH] using rev_ind.
  - rewrite splitIntoGroups_nil. fold g. split; [by rewrite length_replicate|].
    intros j Hj. exists []. split; [by apply lookup_replicate_2|].
    cbn [length]. rewrite Nat.Div0.div_0_l, Nat.Div0.mod_0_l.
    by rewrite decide_False by lia.
  - destruct IH as [Hlen Hsize]. rewrite splitIntoGroups_snoc. fold g.
    split; [by rewrite length_alter|].
    intros j Hj. destruct (Hsize j Hj) as (grp & Hgrp & Hl).
    rewrite length_app. cbn [length]. rewrite Nat.add_1_r.
    pose proof (div_mod_succ (length players) g Hg) as Hstep.
    pose proof (Nat.mod_upper_bound (length players) g ltac:(lia)) as Hr.
    destruct (decide (j = length players mod g)%nat) as [->|Hne].
    + exists (grp ++ [p]). split.
      * rewrite list_lookup_alter_eq, Hgrp. done.
      * rewrite length_app, Hl. cbn [length].
        rewrite decide_False by lia.
        destruct (decide (length players mod g + 1 < g)%nat); destruct Hstep as [-> ->].
        -- rewrite decide_True by lia. lia.
        -- rewrite decide_False by lia. lia.
    + exists grp. split; [by rewrite list_lookup_alter_ne|].
      rewrite Hl.
      destruct (decide (length players mod g + 1 < g)%nat); destruct Hstep as [-> ->].
      * destruct (decide (j < length players mod g)%nat).
        -- rewrite decide_True by lia. lia.
        -- rewrite decide_False by lia. lia.
      * rewrite decide_True by lia. rewrite decide_False by lia. lia.
Qed.

Lemma concat_alter_snoc {T} (groups : list (list T)) (j : nat) (x : T) :
  (j < length groups)%nat ->
  concat (alter (fun grp => grp ++ [x]) j groups) ≡ₚ concat groups ++ [x].
Proof.
  revert j. induction groups as [|grp groups IH]; intros [|j] Hj; cbn in Hj; try lia.
  - cbn. rewrite <- !app_assoc. apply Permutation_app_head, Permutation_app_comm.
  - change (alter ?f (S j) (grp :: groups)) with (grp :: alter f j groups).
    cbn [concat]. rewrite IH by lia. by rewrite app_assoc.
Qed.

Lemma splitIntoGroups_perm (players : list string) (numGroups : jsnum) :
  concat (splitIntoGroups players numGroups) ≡ₚ players.
Proof.
  induction players as [|p players IH] using rev_ind.
  - rewrite splitIntoGroups_nil. by rewrite concat_replicate_nil.
  - rewrite splitIntoGroups_snoc, concat_alter_snoc, IH; [done|].
    destruct (splitIntoGroups_sizes players numGroups) as [-> _].
    apply Nat.mod_upper_bound. pose proof (groupCount_pos numGroups). lia.
Qed.

(** The player at index [i] is the member [i / g] of group [i mod g]. *)
Lemma splitIntoGroups_position (players : list string) (numGroups : jsnum) (i : nat) p :
  let g := Z.to_nat (atLeastOne numGroups) in
  players !! i = Some p ->
  ∃ grp, splitIntoGroups players numGroups !! (i mod g)%nat = Some grp
         ∧ grp !! (i / g)%nat = Some p.
Proof.
  cbn zeta. pose proof (groupCount_pos numGroups) as Hg.
  set (g := Z.to_nat (atLeastOne numGroups)) in *.
  induction players as [|x players IH] using rev_ind; [done|].
  intros Hi. rewrite splitIntoGroups_snoc. fold g.
  pose proof (Nat.mod_upper_bound (length players) g ltac:(lia)) as Hr.
  destruct (decide (i < length players)%nat) as [Hlt|Hge].
  - rewrite lookup_app_l in Hi by done. destruct (IH Hi) as (grp & Hgrp & Hp).
    destruct (decide (i mod g = length players mod g)%nat) as [Heq|Hne].
    + exists (grp ++ [x]). split.
      * rewrite <- Heq, list_lookup_alter_eq, Hgrp. done.
      * apply lookup_app_l_Some, Hp.
    + exists grp. split; [|done]. by rewrite list_lookup_alter_ne.
  - assert (i = length players) as ->.
    { apply lookup_lt_Some in Hi. rewrite length_app in Hi. cbn in Hi. lia. }
    rewrite lookup_app_r, Nat.sub_diag in Hi by lia. cbn in Hi. injection Hi as ->.
    destruct (splitIntoGroups_sizes players numGroups) as [_ Hsize].
    destruct (Hsize (length players mod g)%nat Hr) as (grp & Hgrp & Hl).
    fold g in Hl. rewrite decide_False in Hl by lia.
    exists (grp ++ [p]). split.
    + rewrite list_lookup_alter_eq. fold g. by rewrite Hgrp.
    + rewrite lookup_app_r by lia. rewrite Hl, Nat.add_0_r, Nat.sub_diag. done.
Qed.

(** X4. The groups of [splitIntoGroups] are balanced: with [n] players
    and [g] groups the first [n mod g] groups have [n / g + 1] members and
    the others [n / g]. *)
Theorem splitIntoGroups_balanced (players : list string) (numGroups : jsnum)
    (j : nat) (grp : list string) :
  let g := Z.to_nat (atLeastOne numGroups) in
  splitIntoGroups players numGroups !! j = Some grp ->
  length grp = (length players / g + if decide (j < length players mod g)%nat then 1 else 0)%nat.
Proof.
  cbn zeta. intros Hj.
  destruct (splitIntoGroups_sizes players numGroups) as [Hlen Hsize].
  assert (j < Z.to_nat (atLeastOne numGroups))%nat as Hlt
    by (rewrite <- Hlen; by eapply lookup_lt_Some).
  destruct (Hsize j Hlt) as (grp' & Hgrp' & Hl). congruence.
Qed.

Lemma splitIntoGroups_balanced_witness :
  length ["P1"; "P3"; "P5"]%string = (5 / 2 + 1)%nat.
Proof.
  pose proof (splitIntoGroups_balanced ["P1"; "P2"; "P3"; "P4"; "P5"]%string (Num 2) 0
                ["P1"; "P3"; "P5"]%string eq_refl) as H.
  exact H.
Defined.

(** ** More on the round-robin pairer *)

Lemma elem_of_rev {T} (x : T) (l : list T) : x ∈ rev l <-> x ∈ l.
Proof. rewrite !list_elem_of_In. symmetry. apply in_rev. Qed.

(** The two halves the loop of [roundRobinPairs] starts from. *)
Lemma roundRobinPairs_halves (group : list string) :
  group ≠ [] ->
  ∃ (half : nat) (a b : list string),
    (1 <= half)%nat ∧ length a = half ∧ length b = half
    ∧ a ++ rev b = (if Nat.odd (length group) then group ++ [BYE] else group)
    ∧ roundRobinPairs group = rrLoop (2 * half - 1) half a b.
Proof.
  intros Hne. unfold roundRobinPairs, slice, sliceFrom.
  rewrite Nat.sub_0_r, drop_0.
  set (arr := if Nat.odd (length group) then group ++ [BYE] else group).
  assert (∃ half, (1 <= half)%nat ∧ length arr = (2 * half)%nat) as (half & Hhalf & Harr).
  { unfold arr. destruct (Nat.odd (length group)) eqn:Hodd.
    - apply Nat.odd_spec in Hodd as [h Hh]. exists (S h).
      rewrite length_app. cbn [length]. lia.
    - assert (Nat.even (length group) = true) as Heven
        by (rewrite <- Nat.negb_odd, Hodd; done).
      apply Nat.even_spec in Heven as [h Hh]. exists h. split; [|done].
      destruct group; [done|]. cbn [length] in Hh. lia. }
  exists half, (take half arr), (rev (drop half arr)).
  rewrite Harr, div2_double, rev_involutive, take_drop.
  split; [done|]. split; [rewrite length_take; lia|].
  split; [rewrite length_rev, length_drop; lia|]. done.
Qed.

(** The rounds alternate between two pairings. *)
Lemma rrLoop_round k half (a b : list string) (r : nat) round :
  length a = half -> length b = half -> (1 <= half)%nat ->
  rrLoop k half a b !! r = Some round ->
  round = roundPairs a (if Nat.even r then b else rev b).
Proof.
  intros Ha Hb Hh. revert b r Hb. induction k as [|k IH]; intros b r Hb Hr; [done|].
  cbn [rrLoop] in Hr. destruct r as [|r].
  - cbn in Hr. by injection Hr as <-.
  - cbn [lookup list_lookup] in Hr.
    rewrite rotateA_same, rotateB_reverse in Hr by done.
    apply IH in Hr; [|by rewrite length_rev].
    rewrite Nat.even_succ, <- Nat.negb_even.
    destruct (Nat.even r); cbn [negb]; [done|]. by rewrite rev_involutive in Hr.
Qed.

Lemma rrLoop_first_rounds k half (a b : list string) :
  length a = half -> length b = half -> (1 <= half)%nat ->
  ((1 <= k)%nat -> roundPairs a b ∈ rrLoop k half a b)
  ∧ ((2 <= k)%nat -> roundPairs a (rev b) ∈ rrLoop k half a b).
Proof.
  intros Ha Hb Hh. split; intros Hk.
  - destruct k as [|k]; [lia|]. cbn [rrLoop]. by left.
  - destruct k as [|[|k]]; try lia. cbn [rrLoop].
    rewrite rotateA_same, rotateB_reverse by done. right. by left.
Qed.

Lemma roundPairs_elem (a b : list string) x y :
  (x, y) ∈ roundPairs a b
  <-> x ≠ BYE ∧ y ≠ BYE ∧ ∃ i : nat, a !! i = Some x ∧ b !! i = Some y.
Proof.
  unfold roundPairs. rewrite list_elem_of_filter. cbn [fst snd].
  rewrite elem_of_lookup_zip_with. split.
  - intros [[Hx Hy] (i & x' & y' & Heq & Hi & Hj)]. injection Heq as -> ->.
    split; [done|]. split; [done|]. by exists i.
  - intros (Hx & Hy & i & Hi & Hj). split; [done|]. by exists i, x, y.
Qed.

(** X5. In the rounds that [roundRobinPairs] returns, every round after
    the second is the round two places before it: a group is given at most
    two different rounds, however many players it has. *)
Theorem roundRobinPairs_round_recurs (group : list string) (r : nat) :
  (r + 2 < length (roundRobinPairs group))%nat ->
  roundRobinPairs group !! (r + 2)%nat = roundRobinPairs group !! r.
Proof.
  intros Hr. destruct group as [|p group]; [cbn in Hr; lia|].
  destruct (roundRobinPairs_halves (p :: group)) as (half & a & b & Hh & Ha & Hb & _ & Heq);
    [done|].
  rewrite Heq in *. rewrite rrLoop_length in Hr. by apply rrLoop_period.
Qed.

Lemma roundRobinPairs_round_recurs_witness :
  roundRobinPairs ["P1"; "P2"; "P3"; "P4"; "P5"; "P6"]%string !! 4%nat
  = roundRobinPairs ["P1"; "P2"; "P3"; "P4"; "P5"; "P6"]%string !! 2%nat.
Proof.
  apply (roundRobinPairs_round_recurs ["P1"; "P2"; "P3"; "P4"; "P5"; "P6"]%string 2).
  vm_compute. lia.
Defined.

Lemma filter_bye_singleton : filter (fun q => q ≠ BYE) [BYE] = [].
Proof. rewrite filter_cons, decide_False; [done|]. intros Hq. by apply Hq. Qed.

(** The pairs of a round name members of the group, never the bye slot. *)
Lemma roundRobinPairs_pair_members (group : list string) round x y :
  round ∈ roundRobinPairs group -> (x, y) ∈ round ->
  x ∈ group ∧ y ∈ group ∧ x ≠ BYE ∧ y ≠ BYE ∧ (NoDup group -> x ≠ y).
Proof.
  intros Hround Hpair.
  destruct group as [|p group]; [by apply elem_of_nil in Hround|].
  destruct (roundRobinPairs_halves (p :: group)) as (half & a & b & Hh & Ha & Hb & Harr & Heq);
    [done|].
  rewrite Heq in Hround. apply list_elem_of_lookup in Hround as (r & Hr).
  apply (rrLoop_round _ half) in Hr; [|done..]. subst round.
  apply roundPairs_elem in Hpair as (Hx & Hy & i & Hi & Hj).
  assert (x ∈ a) as Hxa by (by eapply list_elem_of_lookup_2).
  assert (y ∈ rev b) as Hyb.
  { apply list_elem_of_lookup_2 in Hj. destruct (Nat.even r); [by apply elem_of_rev | done]. }
  assert (∀ z, z ∈ a ++ rev b -> z ≠ BYE -> z ∈ p :: group) as Hin.
  { intros z Hz Hne. rewrite Harr in Hz. destruct (Nat.odd _); [|done].
    apply elem_of_app in Hz as [Hz | Hz%list_elem_of_singleton]; done. }
  split; [apply Hin; [apply elem_of_app; by left | done]|].
  split; [apply Hin; [apply elem_of_app; by right | done]|].
  split; [done|]. split; [done|].
  intros Hnd ->.
  assert (NoDup (filter (fun q => q ≠ BYE) (a ++ rev b))) as Hnd'.
  { rewrite Harr. destruct (Nat.odd _).
    - rewrite filter_app, filter_bye_singleton, app_nil_r.
      by apply NoDup_filter.
    - by apply NoDup_filter. }
  rewrite filter_app in Hnd'. apply NoDup_app in Hnd' as (_ & Hdisj & _).
  apply (Hdisj y); by apply list_elem_of_filter.
Qed.

(** X6. Every pair that [roundRobinPairs] returns names two members of
    the group, neither of them the bye slot, and two different members when
    the group has no player twice. *)
Theorem roundRobinPairs_pairs_within_group (group : list string) :
  Forall (fun round =>
            Forall (fun pr => pr.1 ∈ group ∧ pr.2 ∈ group ∧ pr.1 ≠ BYE ∧ pr.2 ≠ BYE
                              ∧ (NoDup group -> pr.1 ≠ pr.2))
                   round)
         (roundRobinPairs group).
Proof.
  apply Forall_forall. intros round Hround.
  apply Forall_forall. intros [x y] Hpair. cbn [fst snd].
  by eapply roundRobinPairs_pair_members.
Qed.

(** ** The players the builder reads out of the pairings *)

Lemma groupPlayers_elem (gr : list (list (string * string))) (p : string) :
  p ∈ groupPlayers gr
  <-> ∃ round pr, round ∈ gr ∧ pr ∈ round ∧ (p = pr.1 ∨ p = pr.2).
Proof.
  unfold groupPlayers. rewrite setToArray_elem, list_elem_of_In, in_flat_map. split.
  - intros (round & Hround & Hp). apply in_flat_map in Hp as (pr & Hpr & Hp).
    exists round, pr. rewrite !list_elem_of_In. split; [done|]. split; [done|].
    destruct Hp as [<- | [<- | []]]; tauto.
  - intros (round & pr & Hround & Hpr & Hp). exists round.
    rewrite <- list_elem_of_In. split; [done|]. apply in_flat_map. exists pr.
    rewrite <- list_elem_of_In. split; [done|]. cbn. destruct Hp as [-> | ->]; tauto.
Qed.

Lemma groupPlayers_subset (group : list string) (p : string) :
  p ∈ groupPlayers (roundRobinPairs group) -> p ∈ group ∧ p ≠ BYE.
Proof.
  intros (round & [x y] & Hround & Hpr & Hp)%groupPlayers_elem. cbn [fst snd] in Hp.
  destruct (roundRobinPairs_pair_members group round x y Hround Hpr) as (? & ? & ? & ? & _).
  destruct Hp as [-> | ->]; done.
Qed.

(** A group of one player, or of none, gives no pair and so names nobody. *)
Lemma groupPlayers_small_group (group : list string) :
  (length group <= 1)%nat -> groupPlayers (roundRobinPairs group) = [].
Proof.
  intros Hlen.
  destruct (groupPlayers (roundRobinPairs group)) as [|p rest] eqn:Hplayers; [done|].
  exfalso.
  assert (p ∈ groupPlayers (roundRobinPairs group)) as Hp by (rewrite Hplayers; by left).
  apply groupPlayers_elem in Hp as (round & [x y] & Hround & Hpr & _).
  destruct (roundRobinPairs_pair_members group round x y Hround Hpr)
    as (Hx & Hy & _ & _ & Hne).
  destruct group as [|q [|q' group]]; cbn in Hlen; try lia.
  - by apply elem_of_nil in Hx.
  - apply list_elem_of_singleton in Hx, Hy. subst.
    apply Hne; [apply NoDup_singleton | done].
Qed.

(** In a group of two or more, none named like the bye slot, every member
    is named by a pair of the first or of the second round. *)
Lemma groupPlayers_names_all (group : list string) (p : string) :
  (2 <= length group)%nat -> BYE ∉ group -> p ∈ group ->
  p ∈ groupPlayers (roundRobinPairs group).
Proof.
  intros Hlen Hbye Hp.
  destruct (roundRobinPairs_halves group) as (half & a & b & Hh & Ha & Hb & Harr & Heq);
    [intros ->; cbn in Hlen; lia|].
  rewrite Heq. apply groupPlayers_elem.
  destruct (rrLoop_first_rounds (2 * half - 1) half a b Ha Hb Hh) as [Hfirst Hsecond].
  specialize (Hfirst ltac:(lia)).
  destruct (Nat.odd (length group)) eqn:Hodd.
  - (* odd: [b] starts with the bye slot *)
    assert (rev b ≠ []) as Hnil
      by (intros Hnil%(f_equal length); rewrite length_rev in Hnil; cbn in Hnil; lia).
    destruct (exists_last Hnil) as (c & z & Hc).
    rewrite Hc, app_assoc in Harr. apply app_inj_tail in Harr as [Hgroup ->].
    assert (b = BYE :: rev c) as Hb'.
    { rewrite <- (rev_involutive b), Hc, rev_app_distr. done. }
    assert (length c = (half - 1)%nat) as Hlc.
    { apply (f_equal length) in Hb'. cbn [length] in Hb'. rewrite length_rev in Hb'. lia. }
    assert (2 <= half)%nat as Hhalf.
    { apply (f_equal length) in Hgroup. rewrite length_app in Hgroup. lia. }
    specialize (Hsecond ltac:(lia)).
    assert (∀ q, q ∈ a ∨ q ∈ c -> q ≠ BYE) as Hreal.
    { intros q Hq ->. apply Hbye. rewrite <- Hgroup. by apply elem_of_app. }
    rewrite <- Hgroup in Hp. apply elem_of_app in Hp as [Hp | Hp].
    + apply list_elem_of_lookup in Hp as ([|i] & Hi).
      * (* the player against the bye slot in the first round plays in the second *)
        destruct c as [|y c]; [cbn in Hlc; lia|].
        exists (roundPairs a (rev b)), (p, y). split; [done|]. split; [|by left].
        apply roundPairs_elem. split; [apply Hreal; left; by eapply list_elem_of_lookup_2|].
        split; [apply Hreal; right; by left|].
        exists 0%nat. split; [done|]. by rewrite Hc.
      * assert (is_Some (rev c !! i)) as [y Hy].
        { apply lookup_lt_is_Some. rewrite length_rev.
          apply lookup_lt_Some in Hi. lia. }
        exists (roundPairs a b), (p, y). split; [done|]. split; [|by left].
        apply roundPairs_elem. split; [apply Hreal; left; by eapply list_elem_of_lookup_2|].
        split; [apply Hreal; right; apply elem_of_rev; by eapply list_elem_of_lookup_2|].
        exists (S i). split; [done|]. by rewrite Hb'.
    + apply (proj2 (elem_of_rev _ _)) in Hp. apply list_elem_of_lookup in Hp as (i & Hi).
      assert (is_Some (a !! S i)) as [x Hx].
      { apply lookup_lt_is_Some. apply lookup_lt_Some in Hi.
        rewrite length_rev in Hi. lia. }
      exists (roundPairs a b), (x, p). split; [done|]. split; [|by right].
      apply roundPairs_elem. split; [apply Hreal; left; by eapply list_elem_of_lookup_2|].
      split; [apply Hreal; right; apply elem_of_rev; by eapply list_elem_of_lookup_2|].
      exists (S i). split; [done|]. by rewrite Hb'.
  - (* even: nobody has a bye *)
    assert (∀ q, q ∈ a ∨ q ∈ b -> q ≠ BYE) as Hreal.
    { intros q Hq ->. apply Hbye. rewrite <- Harr. apply elem_of_app.
      destruct Hq as [?|?]; [by left | right; by apply elem_of_rev]. }
    rewrite <- Harr in Hp. apply elem_of_app in Hp as [Hp | Hp].
    + apply list_elem_of_lookup in Hp as (i & Hi).
      assert (is_Some (b !! i)) as [y Hy].
      { apply lookup_lt_is_Some. apply lookup_lt_Some in Hi. lia. }
      exists (roundPairs a b), (p, y). split; [done|]. split; [|by left].
      apply roundPairs_elem. split; [apply Hreal; left; by eapply list_elem_of_lookup_2|].
      split; [apply Hreal; right; by eapply list_elem_of_lookup_2|]. by exists i.
    + apply (proj1 (elem_of_rev _ _)) in Hp. apply list_elem_of_lookup in Hp as (i & Hi).
      assert (is_Some (a !! i)) as [x Hx].
      { apply lookup_lt_is_Some. apply lookup_lt_Some in Hi. lia. }
      exists (roundPairs a b), (x, p). split; [done|]. split; [|by right].
      apply roundPairs_elem. split; [apply Hreal; left; by eapply list_elem_of_lookup_2|].
      split; [apply Hreal; right; by eapply list_elem_of_lookup_2|]. by exists i.
Qed.

(** X7. The group that [buildGlobalSchedule] reads out of the pairings of
    [roundRobinPairs] has no player twice and only members of the group;
    it has all of them when the group has two or more members, none named
    like the bye slot, and it is empty for a group of one: that player is
    unknown to the builder. *)
Theorem groupPlayers_of_roundRobinPairs (group : list string) :
  NoDup (groupPlayers (roundRobinPairs group))
  ∧ (∀ p, p ∈ groupPlayers (roundRobinPairs group) -> p ∈ group ∧ p ≠ BYE)
  ∧ ((2 <= length group)%nat -> BYE ∉ group ->
     ∀ p, p ∈ groupPlayers (roundRobinPairs group) <-> p ∈ group)
  ∧ ((length group <= 1)%nat -> groupPlayers (roundRobinPairs group) = []).
Proof.
  split; [apply setToArray_NoDup|]. split; [apply groupPlayers_subset|].
  split; [|apply groupPlayers_small_group].
  intros Hlen Hbye p. split.
  - by intros [? _]%groupPlayers_subset.
  - by apply groupPlayers_names_all.
Qed.

(** ** The shape of the schedule the builder returns *)

Lemma groupMatches_group gPlayers g m : m ∈ groupMatches gPlayers g -> Cand.group m = g.
Proof.
  induction gPlayers as [|p rest IH]; cbn [groupMatches]; [by intros ?%elem_of_nil|].
  rewrite elem_of_app. intros [Hm | Hm]; [|by apply IH].
  by apply list_elem_of_fmap in Hm as (q & -> & _).
Qed.

Lemma allMatchesOf_elem_index groups m :
  m ∈ allMatchesOf groups ->
  ∃ (gi : nat) g, groups !! gi = Some g ∧ Cand.group m = Z.of_nat gi + 1
                  ∧ Cand.A m ∈ g ∧ Cand.B m ∈ g ∧ (NoDup g -> Cand.A m ≠ Cand.B m).
Proof.
  unfold allMatchesOf. intros Hm.
  apply elem_of_concat in Hm as (ms & Hm & Hms).
  apply list_elem_of_lookup in Hms as (i & Hi).
  rewrite list_lookup_imap in Hi.
  destruct (groups !! i) as [g|] eqn:Hg; [|done]. cbn in Hi. injection Hi as <-.
  exists i, g. split; [done|]. split; [by eapply groupMatches_group|].
  by apply groupMatches_elem in Hm.
Qed.

(** Round [k + 1] of an attempt: the greedy selection from the candidates
    ranked in the state after [k] rounds. *)
Lemma tryBuild_round_selection allPlayers allMatches boards targetGames (k totalRounds : nat) :
  (k < totalRounds)%nat ->
  (tryBuild allPlayers allMatches boards (Z.of_nat totalRounds) targetGames).1 !! k
  = Some (numberBoards (Z.of_nat (S k))
            (greedyPick boards
               (rankedCandidates allMatches
                  (buildEnd allPlayers allMatches boards (Z.of_nat k) targetGames).1
                  (Z.of_nat (S k)) targetGames))).
Proof.
  intros Hk. rewrite tryBuild_round by done. rewrite buildEnd_succ.
  destruct (buildEnd_lastPlayedInv allPlayers allMatches boards targetGames k) as [Hlen _].
  destruct (buildEnd allPlayers allMatches boards (Z.of_nat k) targetGames) as [ta schedule].
  rewrite roundStep_greedyPick. cbn [fst snd] in *.
  rewrite lookup_app_r by lia. by rewrite Hlen, Nat.sub_diag.
Qed.

Lemma tryBuild_match_origin allPlayers allMatches boards targetGames (k totalRounds : nat) ms m :
  (tryBuild allPlayers allMatches boards (Z.of_nat totalRounds) targetGames).1 !! k = Some ms ->
  m ∈ ms ->
  Match.round m = Z.of_nat k + 1
  ∧ ∃ c, c ∈ allMatches ∧ Match.A m = Cand.A c ∧ Match.B m = Cand.B c
         ∧ Match.group m = Cand.group c.
Proof.
  intros Hms Hm.
  assert (k < totalRounds)%nat as Hk.
  { apply lookup_lt_Some in Hms. rewrite tryBuild_schedule in Hms.
    destruct (buildEnd_lastPlayedInv allPlayers allMatches boards targetGames totalRounds)
      as [Hlen _]. lia. }
  rewrite tryBuild_round_selection in Hms by done. injection Hms as <-.
  apply numberBoards_elem in Hm as (c & Hc & Ha & Hb & Hg & Hr).
  split; [lia|]. exists c. split; [|done].
  clear Ha Hb Hg Hr. revert c Hc. apply greedyPick_ind.
  - by intros c ?%elem_of_nil.
  - intros chosen c' IH Hc' _ _ _ c [Hc | ->%list_elem_of_singleton]%elem_of_app;
      [by apply IH|].
    by apply rankedCandidates_elem in Hc' as [? _].
Qed.

(** The schedule that is returned: the fallback, or that of an attempt. *)
Lemma buildGlobalSchedule_cases groupRounds boards preferredRounds :
  let groups := groupsOf groupRounds in
  buildGlobalSchedule groupRounds boards preferredRounds
  = emptySchedule (atLeastOne preferredRounds)
  ∨ ∃ found : nat,
      buildGlobalSchedule groupRounds boards preferredRounds
      = (tryBuild (allPlayersOf groups) (allMatchesOf groups) (atLeastOne boards)
                  (Z.of_nat (Z.to_nat (atLeastOne preferredRounds))) (Z.of_nat found)).1.
Proof.
  cbn zeta. unfold buildGlobalSchedule. set (groups := groupsOf groupRounds).
  destruct (searchTarget_cases (allPlayersOf groups) (allMatchesOf groups)
              (atLeastOne boards) (atLeastOne preferredRounds)
              (Z.to_nat (initialTarget groups (atLeastOne boards) (atLeastOne preferredRounds))))
    as [[-> _] | (found & _ & Hfound & _)]; [by left|].
  right. exists found. rewrite Z2Nat.id by (pose proof (atLeastOne_ge preferredRounds); lia).
  by rewrite Hfound.
Qed.

(** X9. Every match of round [k] (counted from 0) of the schedule that
    [buildGlobalSchedule] returns carries the round number [k + 1], pairs
    two different players and carries the number, counted from 1, of a group
    of the pairings in which both players are named. *)
Theorem buildGlobalSchedule_matches_within_groups groupRounds boards preferredRounds
    (k : nat) (ms : list Match.t) :
  buildGlobalSchedule groupRounds boards preferredRounds !! k = Some ms ->
  Forall (fun m =>
            Match.round m = Z.of_nat k + 1
            ∧ Match.A m ≠ Match.B m
            ∧ ∃ (gi : nat) g, groupsOf groupRounds !! gi = Some g
                              ∧ Match.group m = Z.of_nat gi + 1
                              ∧ Match.A m ∈ g ∧ Match.B m ∈ g)
         ms.
Proof.
  intros Hms. apply Forall_forall. intros m Hm.
  destruct (buildGlobalSchedule_cases groupRounds boards preferredRounds) as [Heq | [found Heq]];
    rewrite Heq in Hms.
  - unfold emptySchedule in Hms. apply lookup_replicate_1 in Hms as [-> _].
    by apply elem_of_nil in Hm.
  - destruct (tryBuild_match_origin _ _ _ _ _ _ _ _ Hms Hm)
      as (Hround & c & Hc & -> & -> & ->).
    split; [done|].
    apply allMatchesOf_elem_index in Hc as (gi & g & Hg & Hgroup & Ha & Hb & Hne).
    split.
    + apply Hne. eapply groupsOf_NoDup. by eapply list_elem_of_lookup_2.
    + by exists gi, g.
Qed.

Lemma buildGlobalSchedule_matches_within_groups_witness :
  Forall (fun m =>
            Match.round m = 1
            ∧ Match.A m ≠ Match.B m
            ∧ ∃ (gi : nat) g, groupsOf eightPlayers !! gi = Some g
                              ∧ Match.group m = Z.of_nat gi + 1
                              ∧ Match.A m ∈ g ∧ Match.B m ∈ g)
         [Match.mk 1 1 "P1" "P7" 1; Match.mk 1 2 "P3" "P5" 1; Match.mk 1 3 "P2" "P8" 2]%string.
Proof.
  apply (buildGlobalSchedule_matches_within_groups eightPlayers (Num 3) (Num 6) 0).
  vm_compute. reflexivity.
Defined.

(** X10. The schedule that [buildGlobalSchedule] returns is always
    equalized: there is a number, between 0 and the cap the search starts
    from, such that every player named in the pairings is in exactly that
    many matches. *)
Theorem buildGlobalSchedule_always_equalized groupRounds boards preferredRounds :
  let groups := groupsOf groupRounds in
  ∃ target : Z,
    0 <= target <= initialTarget groups (atLeastOne boards) (atLeastOne preferredRounds)
    ∧ ∀ p, p ∈ allPlayersOf groups ->
           appearances p (buildGlobalSchedule groupRounds boards preferredRounds) = target.
Proof.
  cbn zeta. destruct (allPlayersOf (groupsOf groupRounds)) as [|q rest] eqn:Hplayers.
  - exists 0. split; [unfold initialTarget; lia|]. by intros p ?%elem_of_nil.
  - destruct (equal_games_with_players groupRounds boards preferredRounds)
      as (target & Hrange & _ & Hall & _); [by rewrite Hplayers|].
    exists target. split; [done|]. rewrite <- Hplayers. exact Hall.
Qed.

Lemma foldl_min_nonneg (c : Z) (cs : list Z) :
  0 <= c -> Forall (fun x => 0 <= x) cs -> 0 <= foldl Z.min c cs.
Proof.
  intros Hc Hcs. revert c Hc. induction Hcs as [|d cs Hd Hcs IH]; intros c Hc; [done|].
  cbn [foldl]. apply IH. lia.
Qed.

Lemma capByOpponents_small_group groups g :
  g ∈ groups -> (length g <= 1)%nat -> capByOpponents groups = 0.
Proof.
  intros Hg Hlen. unfold capByOpponents.
  assert (0 ∈ map (fun g => Z.max 0 (Z.of_nat (length g) - 1)) groups) as Hzero.
  { apply list_elem_of_In, in_map_iff. exists g. split; [lia | by apply list_elem_of_In]. }
  assert (Forall (fun x => 0 <= x) (map (fun g => Z.max 0 (Z.of_nat (length g) - 1)) groups))
    as Hnonneg.
  { apply Forall_forall. intros x Hx%list_elem_of_In. apply in_map_iff in Hx as (g' & <- & _).
    lia. }
  destruct (map _ groups) as [|c cs]; [done|].
  apply Forall_cons in Hnonneg as [Hc Hcs].
  pose proof (foldl_min_nonneg c cs Hc Hcs) as Hlow.
  destruct (foldl_min_le c cs) as [Hle Hall].
  apply elem_of_cons in Hzero as [<- | Hzero]; [lia|].
  rewrite Forall_forall in Hall. specialize (Hall 0 Hzero). lia.
Qed.

Lemma schedule_empty_with_small_group groupRounds boards preferredRounds g :
  g ∈ groupsOf groupRounds -> (length g <= 1)%nat ->
  buildGlobalSchedule groupRounds boards preferredRounds
  = emptySchedule (atLeastOne preferredRounds).
Proof.
  intros Hg Hlen. unfold buildGlobalSchedule.
  assert (initialTarget (groupsOf groupRounds) (atLeastOne boards) (atLeastOne preferredRounds)
          = 0) as ->.
  { unfold initialTarget. rewrite (capByOpponents_small_group _ g Hg Hlen). lia. }
  change (Z.to_nat 0) with 0%nat. cbn [searchTarget]. change (Z.of_nat 0) with 0.
  destruct (tryBuild _ _ _ _ 0) as [s e] eqn:Htry.
  destruct e; [|done]. cbn [fst snd].
  apply (f_equal fst) in Htry. cbn [fst] in Htry. rewrite <- Htry.
  apply tryBuild_target_zero.
Qed.

(** X11. When one of the groups read out of the pairings has fewer than
    two players, the opponent cap is 0 and [buildGlobalSchedule] returns
    only empty rounds, however many players the other groups have. *)
Theorem small_group_empties_schedule groupRounds boards preferredRounds g :
  g ∈ groupsOf groupRounds -> (length g <= 1)%nat ->
  buildGlobalSchedule groupRounds boards preferredRounds
  = emptySchedule (atLeastOne preferredRounds).
Proof. apply schedule_empty_with_small_group. Qed.

Lemma small_group_empties_schedule_witness :
  buildGlobalSchedule [[[("P1", "P3")]]; [[]]]%string (Num 2) (Num 3) = emptySchedule 3.
Proof.
  apply (small_group_empties_schedule [[[("P1", "P3")]]; [[]]]%string (Num 2) (Num 3) []).
  - vm_compute. right. left.
  - vm_compute. lia.
Defined.

Lemma schedule_empty_with_few_players (players : list string) (numGroups boards preferredRounds : jsnum) :
  Z.of_nat (length players) < 2 * atLeastOne numGroups ->
  buildGlobalSchedule (buildGroupPairings (splitIntoGroups players numGroups))
                      boards preferredRounds
  = emptySchedule (atLeastOne preferredRounds).
Proof.
  intros Hfew. pose proof (groupCount_pos numGroups) as Hg.
  destruct (splitIntoGroups_sizes players numGroups) as [Hlen Hsize].
  destruct (Hsize (Z.to_nat (atLeastOne numGroups) - 1)%nat ltac:(lia)) as (grp & Hgrp & Hl).
  pose proof (Nat.mod_upper_bound (length players) (Z.to_nat (atLeastOne numGroups))
                ltac:(lia)) as Hr.
  rewrite decide_False, Nat.add_0_r in Hl by lia.
  assert (length grp <= 1)%nat as Hsmall.
  { rewrite Hl.
    assert (length players / Z.to_nat (atLeastOne numGroups) < 2)%nat; [|lia].
    apply Nat.Div0.div_lt_upper_bound. lia. }
  apply (schedule_empty_with_small_group _ _ _ (groupPlayers (roundRobinPairs grp))).
  - unfold groupsOf, buildGroupPairings.
    change (map groupPlayers (map roundRobinPairs ?l))
      with (groupPlayers <$> (roundRobinPairs <$> l)).
    apply list_elem_of_fmap. exists (roundRobinPairs grp). split; [done|].
    apply list_elem_of_fmap. exists grp. split; [done|].
    by eapply list_elem_of_lookup_2.
  - rewrite groupPlayers_small_group by done. cbn. lia.
Qed.

(** X12. From the players to the schedule: with fewer than two players
    per group on average, some group has at most one player, whom the pairer
    leaves out, and no match at all is scheduled. *)
Theorem too_few_players_per_group (players : list string) (numGroups boards preferredRounds : jsnum) :
  Z.of_nat (length players) < 2 * atLeastOne numGroups ->
  buildGlobalSchedule (buildGroupPairings (splitIntoGroups players numGroups))
                      boards preferredRounds
  = emptySchedule (atLeastOne preferredRounds).
Proof. apply schedule_empty_with_few_players. Qed.

Lemma too_few_players_per_group_witness :
  buildGlobalSchedule (buildGroupPairings (splitIntoGroups ["P1"; "P2"; "P3"]%string (Num 2)))
                      (Num 2) (Num 3)
  = emptySchedule 3.
Proof.
  apply (too_few_players_per_group ["P1"; "P2"; "P3"]%string (Num 2) (Num 2) (Num 3)).
  vm_compute. reflexivity.
Defined.

(** ** More on the board rebalance layer *)

Lemma roundConflict_nonneg lastBoard ms : 0 <= roundConflict lastBoard ms.
Proof.
  induction ms as [|m ms IH]; [done|]. rewrite roundConflict_cons.
  pose proof (conflictForMatch_range lastBoard m). lia.
Qed.

Lemma roundConflict_zero_lookup lastBoard ms (i : nat) m :
  roundConflict lastBoard ms = 0 -> ms !! i = Some m -> conflictForMatch lastBoard m = 0.
Proof.
  revert i. induction ms as [|x ms IH]; intros i Hzero Hi; [done|].
  rewrite roundConflict_cons in Hzero.
  pose proof (conflictForMatch_range lastBoard x).
  pose proof (roundConflict_nonneg lastBoard ms).
  destruct i as [|i]; cbn in Hi.
  - injection Hi as <-. lia.
  - apply (IH i); [lia | done].
Qed.

Lemma trySwap_without_conflict lastBoard i j st :
  roundConflict lastBoard st.1 = 0 -> trySwap lastBoard i j st = st.
Proof.
  intros Hzero.
  destruct (trySwap_cases lastBoard i j st) as [Heq | (m1 & m2 & _ & Hi & Hj & Hlt & _)];
    [done|]. exfalso.
  rewrite (roundConflict_zero_lookup _ _ _ _ Hzero Hi),
    (roundConflict_zero_lookup _ _ _ _ Hzero Hj) in Hlt.
  pose proof (conflictForMatch_range lastBoard (setBoard m1 (Match.board m2))).
  pose proof (conflictForMatch_range lastBoard (setBoard m2 (Match.board m1))). lia.
Qed.

Lemma swapPass_without_conflict lastBoard ms :
  roundConflict lastBoard ms = 0 -> swapPass lastBoard ms = (ms, false).
Proof.
  intros Hzero. unfold swapPass. generalize (length ms) at 1 as len.
  intros len. induction (seq 0 (length ms)) as [|i idx IH]; [done|].
  cbn [foldl].
  assert (innerLoop lastBoard len i (ms, false) = (ms, false)) as ->; [|exact IH].
  unfold innerLoop. induction (seq (S i) (len - S i)) as [|j js IHj]; [done|].
  cbn [foldl]. by rewrite trySwap_without_conflict.
Qed.

(** A round that repeats no board is left as it is, after one pass. *)
Lemma improveLoop_without_conflict lastBoard ms :
  roundConflict lastBoard ms = 0 -> improveLoop 10 lastBoard ms 0 = (ms, 1%nat).
Proof.
  intros Hzero. cbn [improveLoop]. by rewrite swapPass_without_conflict.
Qed.

Lemma roundConflict_empty ms : roundConflict ∅ ms = 0.
Proof.
  induction ms as [|m ms IH]; [done|]. rewrite roundConflict_cons, IH.
  unfold conflictForMatch, sameBoard.
  rewrite !bool_decide_eq_false_2; [done | by rewrite lookup_empty..].
Qed.

(** X13. A round in which no player is on the board of the dictionary is
    returned unchanged after a single pass; the first round of a schedule,
    which is compared with the empty dictionary, is therefore never
    changed. *)
Theorem rebalanceBoards_keeps_rounds_without_conflict :
  (∀ lastBoard ms, roundConflict lastBoard ms = 0 ->
                   improveLoop 10 lastBoard ms 0 = (ms, 1%nat))
  ∧ (∀ schedule, head (rebalanceBoards schedule) = head schedule).
Proof.
  split; [apply improveLoop_without_conflict|].
  intros [|ms rest]; [done|].
  rewrite rebalanceBoards_unfold. cbn [rebalanceFrom head]. unfold improveRound.
  by rewrite improveLoop_without_conflict by apply roundConflict_empty.
Qed.

Lemma roundPlayers_withoutBoard ms ms' :
  withoutBoard <$> ms' = withoutBoard <$> ms ->
  roundPlayers ms' = roundPlayers ms ∧ unorderedPair <$> ms' = unorderedPair <$> ms.
Proof.
  revert ms. induction ms' as [|m' ms' IH]; intros [|m ms] Heq; try done.
  cbn [fmap list_fmap] in Heq. unfold withoutBoard at 1 3 in Heq.
  injection Heq as _ Ha Hb _ Hrest.
  destruct (IH ms Hrest) as [Hp Hu].
  unfold roundPlayers in *. cbn [flat_map fmap list_fmap app].
  fold (roundPlayers ms') (roundPlayers ms). unfold roundPlayers. rewrite Hp, Hu.
  unfold unorderedPair. by rewrite Ha, Hb.
Qed.

Lemma rebalanceBoards_frame schedule :
  Forall2 (fun ms' ms => withoutBoard <$> ms' = withoutBoard <$> ms
                         ∧ Match.board <$> ms' ≡ₚ Match.board <$> ms)
          (rebalanceBoards schedule) schedule.
Proof. rewrite rebalanceBoards_unfold. apply rebalanceFrom_frame. Qed.

Lemma rebalanceBoards_pairs schedule :
  unorderedPair <$> concat (rebalanceBoards schedule) = unorderedPair <$> concat schedule.
Proof.
  pose proof (rebalanceBoards_frame schedule) as Hf.
  induction Hf as [|ms' ms s' s [Hw _] _ IH]; [done|].
  cbn [concat]. rewrite !fmap_app, IH.
  by destruct (roundPlayers_withoutBoard _ _ Hw) as [_ ->].
Qed.

(** The rounds of the rebalanced schedule of the builder. *)
Lemma rebalanced_schedule_rounds groupRounds boards preferredRounds (k : nat) ms :
  rebalanceBoards (buildGlobalSchedule groupRounds boards preferredRounds) !! k = Some ms ->
  NoDup (roundPlayers ms)
  ∧ Z.of_nat (length ms) <= atLeastOne boards
  ∧ Match.board <$> ms ≡ₚ Z.of_nat <$> seq 1 (length ms)
  ∧ Forall (fun m => Match.round m = Z.of_nat k + 1) ms.
Proof.
  intros Hk.
  destruct (buildGlobalSchedule_buildInv groupRounds boards preferredRounds)
    as (ta & Hgood & _). cbn [snd] in Hgood.
  destruct (Forall2_lookup_l _ _ _ _ _
              (rebalanceBoards_frame (buildGlobalSchedule groupRounds boards preferredRounds))
              Hk) as (ms0 & Hms0 & Hw & Hb).
  destruct (Forall_lookup_1 _ _ _ _ Hgood Hms0) as (Hnd & Hlen & Hboards).
  destruct (roundPlayers_withoutBoard _ _ Hw) as [-> _].
  assert (length ms = length ms0) as ->
    by (apply (f_equal length) in Hw; by rewrite !length_fmap in Hw).
  split; [done|]. split; [done|]. split; [by rewrite Hb, Hboards|].
  apply Forall_forall. intros m Hm.
  assert (withoutBoard m ∈ withoutBoard <$> ms0) as Hin
    by (rewrite <- Hw; apply list_elem_of_fmap; by exists m).
  apply list_elem_of_fmap in Hin as (m0 & Heq & Hm0).
  unfold withoutBoard in Heq. injection Heq as -> _ _ _.
  destruct (buildGlobalSchedule_cases groupRounds boards preferredRounds)
    as [Hempty | (found & Hfound)].
  - rewrite Hempty in Hms0. unfold emptySchedule in Hms0.
    apply lookup_replicate in Hms0 as [-> _]. by apply elem_of_nil in Hm0.
  - rewrite Hfound in Hms0.
    by destruct (tryBuild_match_origin _ _ _ _ _ _ _ _ Hms0 Hm0) as [? _].
Qed.

(** ** The totals *)

Lemma zeroed_lookup players p :
  zeroed players !! p = if decide (p ∈ players) then Some 0 else None.
Proof.
  unfold zeroed. destruct (decide (p ∈ players)) as [Hp|Hp].
  - destruct (list_to_map _ !! p) as [z|] eqn:Hz.
    + apply elem_of_list_to_map_2 in Hz. apply list_elem_of_fmap in Hz as (q & Heq & _).
      by injection Heq as -> ->.
    + apply not_elem_of_list_to_map in Hz. exfalso. apply Hz.
      rewrite <- list_fmap_compose. apply list_elem_of_fmap. by exists p.
  - apply not_elem_of_list_to_map. rewrite <- list_fmap_compose.
    intros (q & -> & Hq)%list_elem_of_fmap. done.
Qed.

(** The inner loop of [totals] over the players of one round. *)
Lemma totals_round (counts : gmap string Z) (playing : list string) (p : string) :
  NoDup playing ->
  foldl (fun counts p =>
           if decide (is_Some (counts !! p)) then <[p := getZ counts p + 1]> counts
           else counts) counts playing !! p
  = (fun c => c + (if decide (p ∈ playing) then 1 else 0)) <$> counts !! p.
Proof.
  intros Hnd. revert counts. induction Hnd as [|q playing Hq Hnd IH]; intros counts.
  - cbn [foldl]. rewrite decide_False by (by intros ?%elem_of_nil).
    destruct (counts !! p); cbn; [f_equal; lia | done].
  - cbn [foldl]. rewrite IH. destruct (decide (q = p)) as [->|Hne].
    + rewrite (decide_False (P := p ∈ playing)) by done.
      rewrite (decide_True (P := p ∈ p :: playing)) by (by left).
      destruct (decide (is_Some (counts !! p))) as [[c Hc]|Hnone].
      * rewrite lookup_insert_eq. unfold getZ. rewrite Hc. cbn. f_equal. lia.
      * destruct (counts !! p) as [c|] eqn:Hc; [exfalso; by apply Hnone|done].
    + assert ((if decide (is_Some (counts !! q)) then <[q := getZ counts q + 1]> counts
               else counts) !! p = counts !! p) as ->.
      { destruct (decide (is_Some (counts !! q))); [by rewrite lookup_insert_ne|done]. }
      destruct (decide (p ∈ playing)) as [Hp|Hp].
      * by rewrite (decide_True (P := p ∈ q :: playing)) by (by right).
      * rewrite (decide_False (P := p ∈ q :: playing)); [done|].
        intros [->|?]%elem_of_cons; done.
Qed.

Lemma totals_lookup players schedule p :
  totals players schedule !! p
  = if decide (p ∈ players) then Some (roundsPlayed p schedule) else None.
Proof.
  unfold totals.
  assert (∀ counts,
            foldl (fun counts roundMatches =>
                     let playing := setToArray (flat_map (fun m => [Match.A m; Match.B m])
                                                         roundMatches) in
                     foldl (fun counts p =>
                              if decide (is_Some (counts !! p))
                              then <[p := getZ counts p + 1]> counts else counts)
                           counts playing)
                  counts schedule !! p
            = (fun c => c + roundsPlayed p schedule) <$> counts !! p) as Hfold.
  { induction schedule as [|ms schedule IH]; intros counts.
    - cbn [foldl]. unfold roundsPlayed. cbn.
      destruct (counts !! p); cbn; [f_equal; lia | done].
    - cbn [foldl]. rewrite IH. cbn zeta. rewrite totals_round by apply setToArray_NoDup.
      unfold roundsPlayed. rewrite filter_cons.
      change (flat_map (fun m => [Match.A m; Match.B m]) ms) with (roundPlayers ms).
      destruct (counts !! p) as [c|]; [|done]. cbn. f_equal.
      destruct (decide (p ∈ roundPlayers ms)) as [Hp|Hp].
      + rewrite decide_True by (by apply setToArray_elem). cbn [length]. lia.
      + rewrite decide_False by (by rewrite setToArray_elem). lia. }
  rewrite Hfold, zeroed_lookup. destruct (decide (p ∈ players)); [|done].
  cbn [fmap option_fmap option_map]. f_equal.
Qed.

(** X15. [totals] gives every listed player the number of rounds in which
    the player is in a match, however often the player is in the round. *)
Theorem totals_counts_rounds_played players schedule p :
  p ∈ players -> totals players schedule !! p = Some (roundsPlayed p schedule).
Proof. intros Hp. by rewrite totals_lookup, decide_True. Qed.

Lemma totals_counts_rounds_played_witness :
  "b"%string ∈ ["a"; "b"]%string
  ∧ totals ["a"; "b"]%string
           [[Match.mk 1 1 "a" "b" 1; Match.mk 1 2 "b" "c" 1]; []; [Match.mk 3 1 "c" "b" 1]]
      !! "b"%string
    = Some (roundsPlayed "b"
              [[Match.mk 1 1 "a" "b" 1; Match.mk 1 2 "b" "c" 1]; []; [Match.mk 3 1 "c" "b" 1]]).
Proof.
  assert ("b"%string ∈ ["a"; "b"]%string) as Hp by (right; left).
  split; [exact Hp|]. apply (totals_counts_rounds_played _ _ _ Hp).
Defined.

Lemma roundsPlayed_frame p (s2 s : list (list Match.t)) :
  Forall2 (fun ms2 ms => roundPlayers ms2 = roundPlayers ms) s2 s ->
  roundsPlayed p s2 = roundsPlayed p s.
Proof.
  unfold roundsPlayed. induction 1 as [|ms2 ms s2 s Hp _ IH]; [done|].
  rewrite !filter_cons, Hp. destruct (decide (p ∈ roundPlayers ms)); cbn [length]; lia.
Qed.

Lemma roundsPlayed_rebalanceBoards p schedule :
  roundsPlayed p (rebalanceBoards schedule) = roundsPlayed p schedule.
Proof.
  apply roundsPlayed_frame.
  eapply Forall2_impl; [apply rebalanceBoards_frame|].
  intros ms2 ms [Hw _]. by destruct (roundPlayers_withoutBoard _ _ Hw).
Qed.

(** X16. The totals are the same before and after the board rebalance. *)
Theorem totals_rebalanceBoards players schedule :
  totals players (rebalanceBoards schedule) = totals players schedule.
Proof.
  apply map_eq. intros p. by rewrite !totals_lookup, roundsPlayed_rebalanceBoards.
Qed.

Lemma filter_playsIn_round p ms :
  NoDup (roundPlayers ms) ->
  length (filter (playsIn p) ms) = if decide (p ∈ roundPlayers ms) then 1%nat else 0%nat.
Proof.
  induction ms as [|m ms IH]; intros Hnd.
  - cbn. by rewrite decide_False by (by intros ?%elem_of_nil).
  - change (roundPlayers (m :: ms)) with (Match.A m :: Match.B m :: roundPlayers ms) in *.
    apply NoDup_cons in Hnd as [Ha Hnd]. apply NoDup_cons in Hnd as [Hb Hnd].
    specialize (IH Hnd). rewrite filter_cons.
    destruct (decide (playsIn p m)) as [Hin|Hout].
    + rewrite decide_True by (destruct Hin as [<-|<-]; [left | right; left]).
      cbn [length]. rewrite IH, decide_False; [done|].
      destruct Hin as [<-|<-]; [|done]. intros ?. apply Ha. by right.
    + rewrite IH. unfold playsIn in Hout.
      destruct (decide (p ∈ roundPlayers ms)) as [Hp|Hp].
      * by rewrite decide_True by (right; by right).
      * rewrite decide_False; [done|].
        intros [->|[->|?]%elem_of_cons]%elem_of_cons; tauto.
Qed.

(** With no player twice in a round, the matches of a player are the rounds
    the player is in. *)
Lemma appearances_roundsPlayed p schedule :
  Forall (fun ms => NoDup (roundPlayers ms)) schedule ->
  appearances p schedule = roundsPlayed p schedule.
Proof.
  unfold appearances, roundsPlayed. induction 1 as [|ms s Hnd _ IH]; [done|].
  cbn [concat]. rewrite filter_app, length_app, filter_cons, filter_playsIn_round by done.
  destruct (decide (p ∈ roundPlayers ms)); cbn [length]; lia.
Qed.

Lemma roundsPlayed_emptySchedule p n : roundsPlayed p (emptySchedule n) = 0.
Proof.
  unfold roundsPlayed, emptySchedule.
  induction (Z.to_nat n) as [|k IH]; [done|].
  cbn [replicate]. rewrite filter_cons, decide_False by (by intros ?%elem_of_nil). exact IH.
Qed.

(** ** The group numbers of the players *)

Lemma playerGroupMap_snoc groups g :
  playerGroupMap (groups ++ [g])
  = foldl (fun m p => recordBoard m p (Z.of_nat (length groups) + 1)) (playerGroupMap groups) g.
Proof.
  unfold playerGroupMap. rewrite imap_app, foldl_app. cbn [imap foldl fst snd].
  by rewrite Nat.add_0_r.
Qed.

Lemma recordBoard_fold_lookup (m : gmap string Z) (g : list string) (v : Z) (p : string) :
  foldl (fun m p => recordBoard m p v) m g !! p
  = if decide (p ∈ g ∧ p ≠ "__proto__"%string) then Some v else m !! p.
Proof.
  revert m. induction g as [|q g IH]; intros m.
  - cbn [foldl]. rewrite decide_False; [done|]. by intros [?%elem_of_nil _].
  - cbn [foldl]. rewrite IH. unfold recordBoard.
    destruct (decide (p ∈ g ∧ p ≠ "__proto__"%string)) as [[Hin Hne]|Hout].
    + by rewrite decide_True by (split; [by right|done]).
    + destruct (decide (q = "__proto__"%string)) as [->|Hq].
      * rewrite decide_False; [done|]. intros [[->|?]%elem_of_cons ?]; tauto.
      * destruct (decide (p = q)) as [->|Hpq].
        -- rewrite lookup_insert_eq. by rewrite decide_True by (split; [by left|done]).
        -- rewrite lookup_insert_ne by done. rewrite decide_False; [done|].
           intros [[->|?]%elem_of_cons ?]; tauto.
Qed.

Lemma playerGroupMap_None groups p :
  p ∉ concat groups ∨ p = "__proto__"%string -> playerGroupMap groups !! p = None.
Proof.
  induction groups as [|g groups IH] using rev_ind; intros Hp; [done|].
  rewrite playerGroupMap_snoc, recordBoard_fold_lookup.
  rewrite concat_app in Hp. cbn [concat] in Hp. rewrite app_nil_r in Hp.
  rewrite decide_False.
  - apply IH. destruct Hp as [Hp|Hp]; [left|by right].
    intros ?. apply Hp. apply elem_of_app. by left.
  - intros [Hin Hne]. destruct Hp as [Hp|Hp]; [|done].
    apply Hp. apply elem_of_app. by right.
Qed.

Lemma playerGroupMap_Some groups (gi : nat) g p :
  NoDup (concat groups) -> groups !! gi = Some g -> p ∈ g -> p ≠ "__proto__"%string ->
  playerGroupMap groups !! p = Some (Z.of_nat gi + 1).
Proof.
  revert gi g. induction groups as [|x groups IH] using rev_ind; intros gi g Hnd Hg Hp Hne;
    [done|].
  rewrite playerGroupMap_snoc, recordBoard_fold_lookup.
  rewrite concat_app in Hnd. cbn [concat] in Hnd. rewrite app_nil_r in Hnd.
  apply NoDup_app in Hnd as (Hnd & Hdisj & _).
  destruct (decide (gi < length groups)%nat) as [Hlt|Hge].
  - rewrite lookup_app_l in Hg by done.
    assert (p ∈ concat groups) as Hin.
    { apply elem_of_concat. exists g. split; [done|]. by eapply list_elem_of_lookup_2. }
    rewrite decide_False by (intros [? _]; by eapply Hdisj).
    by apply (IH gi g).
  - rewrite lookup_app_r in Hg by lia.
    destruct (gi - length groups)%nat as [|k] eqn:Hk; [|done].
    cbn in Hg. injection Hg as ->. rewrite decide_True by done.
    do 2 f_equal. lia.
Qed.

(** X18. The object [playerGroupMap] of the app, built on the groups of
    [splitIntoGroups] from a player list without repetition: the player at
    index [i] has the group number [i mod g + 1], and the object gets no
    entry for anybody else, nor for a player called [__proto__]. *)
Theorem playerGroupMap_of_splitIntoGroups (players : list string) (numGroups : jsnum) :
  NoDup players ->
  let g := Z.to_nat (atLeastOne numGroups) in
  (∀ (i : nat) p, players !! i = Some p -> p ≠ "__proto__"%string ->
      playerGroupMap (splitIntoGroups players numGroups) !! p
      = Some (Z.of_nat (i mod g) + 1))
  ∧ (∀ p, p ∉ players ∨ p = "__proto__"%string ->
      playerGroupMap (splitIntoGroups players numGroups) !! p = None).
Proof.
  intros Hnd g. split.
  - intros i p Hi Hne.
    destruct (splitIntoGroups_position players numGroups i p Hi) as (grp & Hgrp & Hp).
    apply (playerGroupMap_Some _ _ grp); [|done| |done].
    + by rewrite splitIntoGroups_perm.
    + by eapply list_elem_of_lookup_2.
  - intros p Hp. apply playerGroupMap_None.
    by rewrite splitIntoGroups_perm.
Qed.

Lemma playerGroupMap_of_splitIntoGroups_witness :
  NoDup ["a"; "b"; "c"; "__proto__"; "e"]%string
  ∧ playerGroupMap (splitIntoGroups ["a"; "b"; "c"; "__proto__"; "e"]%string (Num 2))
      !! "e"%string = Some 1
  ∧ playerGroupMap (splitIntoGroups ["a"; "b"; "c"; "__proto__"; "e"]%string (Num 2))
      !! "__proto__"%string = None.
Proof.
  assert (NoDup ["a"; "b"; "c"; "__proto__"; "e"]%string) as Hnd
    by (apply (bool_decide_unpack _); vm_compute; exact I).
  split; [exact Hnd|].
  destruct (playerGroupMap_of_splitIntoGroups _ (Num 2) Hnd) as [Hsome Hnone].
  split.
  - apply (Hsome 4%nat "e"%string); [reflexivity | discriminate].
  - apply Hnone. by right.
Defined.

Lemma rebalanceBoards_match_origin schedule m2 :
  m2 ∈ concat (rebalanceBoards schedule) ->
  ∃ m, m ∈ concat schedule ∧ withoutBoard m2 = withoutBoard m.
Proof.
  intros (ms2 & Hm & Hms)%elem_of_concat.
  apply list_elem_of_lookup in Hms as (k & Hk).
  destruct (Forall2_lookup_l _ _ _ _ _ (rebalanceBoards_frame schedule) Hk)
    as (ms & Hms & Hw & _).
  assert (withoutBoard m2 ∈ withoutBoard <$> ms) as Hin
    by (rewrite <- Hw; apply list_elem_of_fmap; by exists m2).
  apply list_elem_of_fmap in Hin as (m & Heq & Hin).
  exists m. split; [|done]. apply elem_of_concat. exists ms. split; [done|].
  by eapply list_elem_of_lookup_2.
Qed.

(** X19. In the schedule the app shows for a player list without
    repetition, the group number of every match is the group number that
    [playerGroupMap] has for both of its players: the group column of the
    export is the same in the rows of a player who plays and in the rows of
    a player who is off. *)
Theorem match_group_is_player_group (players : list string)
    (numGroups boards preferredRounds : jsnum) :
  NoDup players -> "__proto__"%string ∉ players ->
  let groups := splitIntoGroups players numGroups in
  Forall (fun m =>
            playerGroupMap groups !! Match.A m = Some (Match.group m)
            ∧ playerGroupMap groups !! Match.B m = Some (Match.group m))
         (concat (rebalanceBoards
                    (buildGlobalSchedule (buildGroupPairings groups) boards preferredRounds))).
Proof.
  intros Hnd Hproto groups. apply Forall_forall. intros m2 Hm2.
  apply rebalanceBoards_match_origin in Hm2 as (m & Hm & Hw).
  unfold withoutBoard in Hw. injection Hw as _ -> -> ->.
  apply elem_of_concat in Hm as (ms & Hm & Hms).
  apply list_elem_of_lookup in Hms as (k & Hk).
  destruct (buildGlobalSchedule_cases (buildGroupPairings groups) boards preferredRounds)
    as [Hempty | (found & Hfound)].
  { rewrite Hempty in Hk. unfold emptySchedule in Hk.
    apply lookup_replicate in Hk as [-> _]. by apply elem_of_nil in Hm. }
  rewrite Hfound in Hk.
  destruct (tryBuild_match_origin _ _ _ _ _ _ _ _ Hk Hm) as (_ & c & Hc & Ha & Hb & Hgr).
  apply allMatchesOf_elem_index in Hc as (gi & g & Hg & Hgi & HA & HB & _).
  unfold groupsOf, buildGroupPairings in Hg.
  change (map groupPlayers (map roundRobinPairs groups))
    with (groupPlayers <$> (roundRobinPairs <$> groups)) in Hg.
  rewrite !list_lookup_fmap in Hg.
  destruct (groups !! gi) as [grp|] eqn:Hgrp; [|done]. cbn in Hg. injection Hg as <-.
  apply groupPlayers_subset in HA as [HA _]. apply groupPlayers_subset in HB as [HB _].
  assert (NoDup (concat groups)) as Hnd2 by (unfold groups; by rewrite splitIntoGroups_perm).
  assert (∀ p, p ∈ grp -> p ≠ "__proto__"%string) as Hne.
  { intros p Hp ->. apply Hproto. rewrite <- (splitIntoGroups_perm players numGroups).
    apply elem_of_concat. exists grp. split; [done|]. by eapply list_elem_of_lookup_2. }
  rewrite Ha, Hb, Hgr, Hgi.
  split; apply (playerGroupMap_Some _ _ grp); auto.
Qed.

Lemma match_group_is_player_group_witness :
  NoDup (buildPlayers (Num 8)) ∧ ("__proto__"%string ∉ buildPlayers (Num 8))
  ∧ Forall (fun m =>
              playerGroupMap (splitIntoGroups (buildPlayers (Num 8)) (Num 2)) !! Match.A m
              = Some (Match.group m)
              ∧ playerGroupMap (splitIntoGroups (buildPlayers (Num 8)) (Num 2)) !! Match.B m
                = Some (Match.group m))
           (concat (rebalanceBoards
                      (buildGlobalSchedule
                         (buildGroupPairings (splitIntoGroups (buildPlayers (Num 8)) (Num 2)))
                         (Num 4) (Num 6)))).
Proof.
  assert (NoDup (buildPlayers (Num 8))) as Hnd
    by (apply (bool_decide_unpack _); vm_compute; exact I).
  assert ("__proto__"%string ∉ buildPlayers (Num 8)) as Hproto
    by (apply (bool_decide_unpack _); vm_compute; exact I).
  split; [exact Hnd|]. split; [exact Hproto|].
  apply (match_group_is_player_group _ (Num 2) (Num 4) (Num 6) Hnd Hproto).
Defined.

(** ** The export and the score cards *)

Lemma assignedOf_snoc ms m :
  assignedOf (ms ++ [m])
  = <[Match.B m := Slot.mk (Match.board m) (Match.group m) (Match.A m)]>
      (<[Match.A m := Slot.mk (Match.board m) (Match.group m) (Match.B m)]> (assignedOf ms)).
Proof. unfold assignedOf. by rewrite foldl_app. Qed.

(** The entry of a player is made from the last match of the round with
    the player. *)
Lemma assignedOf_lookup ms p :
  assignedOf ms !! p
  = (fun m => Slot.mk (Match.board m) (Match.group m)
                      (if decide (Match.B m = p) then Match.A m else Match.B m))
      <$> last (filter (playsIn p) ms).
Proof.
  induction ms as [|m ms IH] using rev_ind; [done|].
  rewrite assignedOf_snoc, filter_app, filter_cons, filter_nil.
  destruct (decide (Match.B m = p)) as [Hb|Hb].
  - rewrite decide_True by (by right). rewrite last_snoc. cbn.
    rewrite decide_True by done. subst p. by rewrite lookup_insert_eq.
  - rewrite lookup_insert_ne by done.
    destruct (decide (Match.A m = p)) as [Ha|Ha].
    + rewrite decide_True by (by left). rewrite last_snoc. cbn.
      rewrite decide_False by done. subst p. by rewrite lookup_insert_eq.
    + rewrite lookup_insert_ne by done.
      rewrite decide_False by (intros [?|?]; done). by rewrite app_nil_r.
Qed.

Lemma playsIn_roundPlayers p ms :
  p ∈ roundPlayers ms <-> ∃ m, m ∈ ms ∧ playsIn p m.
Proof.
  unfold roundPlayers, playsIn. induction ms as [|m ms IH].
  - split; [by intros ?%elem_of_nil | by intros (? & ?%elem_of_nil & _)].
  - cbn [flat_map app]. rewrite !elem_of_cons, IH. split.
    + intros [->|[->|(x & Hx & Hp)]].
      * exists m. split; [by left | by left].
      * exists m. split; [by left | by right].
      * exists x. split; [by right | done].
    + intros (x & [->|Hx]%elem_of_cons & Hp).
      * destruct Hp as [<-|<-]; tauto.
      * right. right. by exists x.
Qed.

Lemma filter_playsIn_nil p ms : filter (playsIn p) ms = [] <-> p ∉ roundPlayers ms.
Proof.
  rewrite playsIn_roundPlayers. split.
  - intros Hnil (m & Hm & Hp).
    assert (m ∈ filter (playsIn p) ms) as Hin by (by apply list_elem_of_filter).
    rewrite Hnil in Hin. by apply elem_of_nil in Hin.
  - intros Hnone. destruct (filter (playsIn p) ms) as [|m rest] eqn:Hf; [done|].
    exfalso. apply Hnone. exists m.
    assert (m ∈ filter (playsIn p) ms) as Hin by (rewrite Hf; by left).
    apply list_elem_of_filter in Hin as [? ?]. done.
Qed.

(** In a round with no player twice a player has one match at most. *)
Lemma filter_playsIn_unique p ms m :
  NoDup (roundPlayers ms) -> m ∈ ms -> playsIn p m ->
  filter (playsIn p) ms = [m] ∧ Match.A m ≠ Match.B m.
Proof.
  intros Hnd Hm Hp.
  assert (length (filter (playsIn p) ms) = 1%nat) as Hlen.
  { rewrite filter_playsIn_round by done. rewrite decide_True; [done|].
    apply playsIn_roundPlayers. by exists m. }
  assert (m ∈ filter (playsIn p) ms) as Hin by (by apply list_elem_of_filter).
  split.
  - destruct (filter (playsIn p) ms) as [|x [|y rest]]; cbn in Hlen; try lia.
    by apply list_elem_of_singleton in Hin as ->.
  - clear Hlen Hin Hp. induction ms as [|x ms IH]; [by apply elem_of_nil in Hm|].
    change (roundPlayers (x :: ms)) with (Match.A x :: Match.B x :: roundPlayers ms) in Hnd.
    apply NoDup_cons in Hnd as [Ha Hnd]. apply NoDup_cons in Hnd as [_ Hnd].
    apply elem_of_cons in Hm as [->|Hm]; [|by apply IH].
    intros Heq. apply Ha. rewrite Heq. by left.
Qed.

Lemma lookup_concat_uniform {T} (n : nat) (ls : list (list T)) (r i : nat) l x :
  Forall (fun l => length l = n) ls -> ls !! r = Some l -> l !! i = Some x ->
  concat ls !! (r * n + i)%nat = Some x.
Proof.
  intros Hall. revert r. induction Hall as [|l0 ls Hl0 _ IH]; intros r Hr Hi; [done|].
  cbn [concat]. destruct r as [|r]; cbn in Hr.
  - injection Hr as ->. rewrite lookup_app_l by (by eapply lookup_lt_Some). done.
  - rewrite lookup_app_r by lia.
    replace (S r * n + i - length l0)%nat with (r * n + i)%nat by lia.
    by apply IH.
Qed.

Lemma length_concat_uniform {T} (n : nat) (ls : list (list T)) :
  Forall (fun l => length l = n) ls -> length (concat ls) = (length ls * n)%nat.
Proof.
  induction 1 as [|l ls Hl _ IH]; [done|].
  cbn [concat length]. rewrite length_app, IH. lia.
Qed.

Lemma csvRows_uniform players groupText schedule :
  Forall (fun l => length l = length players)
         (imap (fun r matches => map (csvRow r (assignedOf matches) groupText) players)
               schedule).
Proof.
  apply Forall_lookup. intros r l Hl. rewrite list_lookup_imap in Hl.
  destruct (schedule !! r); [|done]. cbn in Hl. injection Hl as <-. apply length_map.
Qed.

(** X20. The lines of [toCSVWithOff]: after the header there is one line
    for every round and every listed player, round after round in the order
    of the players. The line of a player who is in no match of the round
    says OFF; in a round with no player twice, the line of a player in a
    match has the board and the group of that match and the other player. *)
Theorem toCSVWithOff_lines (players : list string) (groupText : string -> string)
    (schedule : list (list Match.t)) :
  length (csvLines players groupText schedule) = S (length schedule * length players)
  ∧ csvLines players groupText schedule !! 0%nat
    = Some "Round,Board,Group,Player,Opponent"%string
  ∧ ∀ (r i : nat) ms p, schedule !! r = Some ms -> players !! i = Some p ->
      ∃ line,
        csvLines players groupText schedule !! S (r * length players + i) = Some line
        ∧ (p ∉ roundPlayers ms ->
           line = joinWith "," [numberToString (Z.of_nat r + 1); "OFF"; groupText p; p; ""])
        ∧ (NoDup (roundPlayers ms) ->
           ∀ m, m ∈ ms -> playsIn p m ->
             line = joinWith "," [numberToString (Z.of_nat r + 1);
                                  numberToString (Match.board m);
                                  numberToString (Match.group m); p;
                                  if decide (Match.A m = p) then Match.B m else Match.A m]).
Proof.
  pose proof (csvRows_uniform players groupText schedule) as Huni.
  split; [|split].
  - unfold csvLines. cbn [length]. rewrite (length_concat_uniform _ _ Huni).
    by rewrite length_imap.
  - done.
  - intros r i ms p Hr Hi. exists (csvRow r (assignedOf ms) groupText p).
    split; [|split].
    + unfold csvLines. cbn [lookup list_lookup].
      apply (lookup_concat_uniform _ _ _ _
               (map (csvRow r (assignedOf ms) groupText) players) _ Huni).
      * by rewrite list_lookup_imap, Hr.
      * change (map ?f ?l) with (f <$> l). by rewrite list_lookup_fmap, Hi.
    + intros Hoff. unfold csvRow. rewrite assignedOf_lookup.
      by rewrite (proj2 (filter_playsIn_nil p ms) Hoff).
    + intros Hnd m Hm Hp. unfold csvRow. rewrite assignedOf_lookup.
      destruct (filter_playsIn_unique p ms m Hnd Hm Hp) as [-> Hab]. cbn.
      destruct Hp as [<-|<-].
      * by rewrite decide_False, decide_True by done.
      * by rewrite decide_True, decide_False by done.
Qed.

(** X21. A score card row and the export agree: both say that the player
    is off exactly when the player is in no match of the round, and in a
    round with no player twice both show the same board and the same
    opponent. *)
Theorem scorecard_agrees_with_export (round : list Match.t) (pName : string) :
  (scorecardCell round pName = None <-> pName ∉ roundPlayers round)
  ∧ (assignedOf round !! pName = None <-> pName ∉ roundPlayers round)
  ∧ (NoDup (roundPlayers round) ->
     scorecardCell round pName
     = (fun a => (Slot.board a, Slot.opp a)) <$> assignedOf round !! pName).
Proof.
  unfold scorecardCell. rewrite assignedOf_lookup.
  split; [|split].
  - rewrite fmap_None, <- filter_playsIn_nil. by destruct (filter _ round).
  - rewrite fmap_None, <- filter_playsIn_nil, last_None. done.
  - intros Hnd. destruct (filter (playsIn pName) round) as [|m rest] eqn:Hf; [done|].
    assert (m ∈ filter (playsIn pName) round) as Hin by (rewrite Hf; by left).
    apply list_elem_of_filter in Hin as [Hp Hm].
    destruct (filter_playsIn_unique pName round m Hnd Hm Hp) as [Hone Hab].
    rewrite Hf in Hone. injection Hone as ->. cbn.
    destruct Hp as [<-|<-].
    + by rewrite decide_True, decide_False by done.
    + by rewrite decide_False, decide_True by done.
Qed.

(** ** The match overview *)

Lemma compareOverview_le a b :
  compareOverview a b <= 0 <-> roundThenBoard (roundAndBoard a) (roundAndBoard b).
Proof.
  unfold compareOverview, roundThenBoard, roundAndBoard. cbn [fst snd].
  destruct (Z.eqb_spec (Match.round a - Match.round b) 0); cbn [negb]; lia.
Qed.

Lemma roundThenBoard_antisym k1 k2 :
  roundThenBoard k1 k2 -> roundThenBoard k2 k1 -> k1 = k2.
Proof.
  destruct k1 as [r1 b1], k2 as [r2 b2]. unfold roundThenBoard. cbn [fst snd].
  intros H1 H2. f_equal; lia.
Qed.

Lemma matchOverview_sorted schedule :
  StronglySorted roundThenBoard (roundAndBoard <$> matchOverview schedule).
Proof.
  unfold matchOverview.
  apply (StronglySorted_fmap roundAndBoard (fun a b => compareOverview a b <= 0)).
  - intros a b. apply compareOverview_le.
  - apply sortBy_sorted.
    + intros a b. rewrite !compareOverview_le. unfold roundThenBoard. lia.
    + intros a b c. rewrite !compareOverview_le. unfold roundThenBoard. lia.
Qed.

(** The rounds [off + 1], [off + 2], ... with the boards [1 .. n] of each. *)
Lemma numbered_rows_sorted (off : nat) (lens : list nat) :
  StronglySorted roundThenBoard
    (concat (imap (fun k n => (fun b => (Z.of_nat (off + k) + 1, Z.of_nat b)) <$> seq 1 n)
                  lens))
  ∧ ∀ x, x ∈ concat (imap (fun k n => (fun b => (Z.of_nat (off + k) + 1, Z.of_nat b))
                                        <$> seq 1 n) lens) ->
         Z.of_nat off < x.1.
Proof.
  revert off. induction lens as [|n lens IH]; intros off.
  - split; [constructor | by intros x ?%elem_of_nil].
  - rewrite imap_cons. cbn [concat].
    rewrite (imap_ext _ (fun k n => (fun b => (Z.of_nat (S off + k) + 1, Z.of_nat b))
                                      <$> seq 1 n))
      by (intros k x _; cbn; by replace (off + S k)%nat with (S (off + k)) by lia).
    destruct (IH (S off)) as [Hsorted Hlater]. split.
    + apply StronglySorted_app_2; [| |done].
      * intros x1 x2 (b & -> & _)%list_elem_of_fmap Hx2. specialize (Hlater x2 Hx2).
        left. cbn [fst]. lia.
      * apply (StronglySorted_fmap _ (fun a b : nat => (a <= b)%nat)).
        -- intros a b Hab. right. cbn [fst snd]. lia.
        -- generalize 1%nat as start. induction n as [|n IHn]; intros start; [constructor|].
           cbn [seq]. constructor; [apply IHn|].
           apply Forall_forall. intros b Hb%elem_of_seq. lia.
    + intros x [(b & -> & _)%list_elem_of_fmap | Hx]%elem_of_app.
      * cbn [fst]. lia.
      * specialize (Hlater x Hx). lia.
Qed.

Lemma concat_Permutation_Forall2 {T} (ls1 ls2 : list (list T)) :
  Forall2 (fun l1 l2 => l1 ≡ₚ l2) ls1 ls2 -> concat ls1 ≡ₚ concat ls2.
Proof. induction 1 as [|l1 l2 ls1 ls2 Hl _ IH]; [done|]. cbn [concat]. by rewrite Hl, IH. Qed.

(** X22. The match overview of the schedule the app shows lists the
    rounds in order and, within a round, the boards 1, 2, ... without a gap,
    whatever boards the rebalance layer has exchanged; it has every match of
    the schedule once. *)
Theorem matchOverview_rounds_then_boards groupRounds boards preferredRounds :
  let shown := rebalanceBoards (buildGlobalSchedule groupRounds boards preferredRounds) in
  roundAndBoard <$> matchOverview shown
  = concat (imap (fun k ms => (fun b => (Z.of_nat k + 1, Z.of_nat b)) <$> seq 1 (length ms))
                 shown)
  ∧ matchOverview shown ≡ₚ concat shown.
Proof.
  cbn zeta.
  set (shown := rebalanceBoards (buildGlobalSchedule groupRounds boards preferredRounds)).
  split; [|apply sortBy_perm].
  apply (StronglySorted_unique_strong roundThenBoard).
  - intros x1 x2 _ _. apply roundThenBoard_antisym.
  - apply matchOverview_sorted.
  - destruct (numbered_rows_sorted 0 (length <$> shown)) as [Hsorted _].
    by rewrite imap_fmap in Hsorted.
  - unfold matchOverview. rewrite sortBy_perm.
    assert (roundAndBoard <$> concat shown
            = concat ((fun ms : list Match.t => roundAndBoard <$> ms) <$> shown)) as ->.
    { induction shown as [|ms s IH]; [done|]. cbn [concat]. by rewrite fmap_app, IH. }
    apply concat_Permutation_Forall2.
    apply Forall2_same_length_lookup_2; [by rewrite length_fmap, length_imap|].
    intros k l1 l2 Hl1 Hl2. rewrite list_lookup_fmap in Hl1. rewrite list_lookup_imap in Hl2.
    destruct (shown !! k) as [ms|] eqn:Hk; [|done]. cbn in Hl1, Hl2.
    injection Hl1 as <-. injection Hl2 as <-.
    destruct (rebalanced_schedule_rounds _ _ _ _ _ Hk) as (_ & _ & Hboards & Hround).
    assert (roundAndBoard <$> ms
            = (fun b => (Z.of_nat k + 1, b)) <$> (Match.board <$> ms)) as ->.
    { rewrite <- list_fmap_compose. apply Forall_fmap_ext_1.
      eapply Forall_impl; [exact Hround|]. intros m Hm. unfold roundAndBoard. cbn.
      by rewrite Hm. }
    rewrite Hboards. by rewrite <- list_fmap_compose.
Qed.

(** * Counts that are not whole numbers *)

(** ** Rational numbers against whole numbers *)

Lemma Qle_bool_inject_Z (a b : Z) : Qle_bool (inject_Z a) (inject_Z b) = (a <=? b).
Proof.
  apply eq_true_iff_eq. by rewrite Qle_bool_iff, Z.leb_le, Zle_Qle.
Qed.

Lemma Qeq_bool_inject_Z (a b : Z) : Qeq_bool (inject_Z a) (inject_Z b) = (a =? b).
Proof.
  apply eq_true_iff_eq. rewrite Qeq_bool_iff, Z.eqb_eq. split.
  - apply inject_Z_injective.
  - by intros ->.
Qed.

Lemma inject_Z_sub (a b : Z) : inject_Z (a - b) = (inject_Z a - inject_Z b)%Q.
Proof. unfold Z.sub, Qminus. by rewrite inject_Z_plus, inject_Z_opp. Qed.

(** [q <= z] for a whole [z] is [ceiling q <= z]. *)
Lemma Qle_bool_ceiling (q : Q) (z : Z) : Qle_bool q (inject_Z z) = (Qceiling q <=? z).
Proof.
  apply eq_true_iff_eq. rewrite Qle_bool_iff, Z.leb_le. split.
  - intros Hle. apply Qceiling_resp_le in Hle. by rewrite Qceiling_Z in Hle.
  - intros Hle. apply Qle_trans with (inject_Z (Qceiling q)); [apply Qle_ceiling|].
    by rewrite Zle_Qle in Hle.
Qed.

Lemma isWhole_iff (q : Q) : Js.isWhole q = true <-> ∃ z : Z, (q == inject_Z z)%Q.
Proof.
  unfold Js.isWhole. rewrite Qeq_bool_iff. split.
  - intros Hq. by exists (Qfloor q).
  - intros (z & Hz). rewrite Hz at 2. by rewrite Qfloor_Z.
Qed.

Lemma isWhole_inject_Z (z : Z) : Js.isWhole (inject_Z z) = true.
Proof. apply isWhole_iff. by exists z. Qed.

Lemma isWhole_comp (q1 q2 : Q) : (q1 == q2)%Q -> Js.isWhole q1 = Js.isWhole q2.
Proof.
  intros Heq. apply eq_true_iff_eq. rewrite !isWhole_iff.
  split; intros (z & Hz); exists z; [by rewrite <- Heq | by rewrite Heq].
Qed.

(** [z === q] for a whole [z]. *)
Lemma Qeq_bool_whole (z : Z) (q : Q) :
  Qeq_bool (inject_Z z) q = (z =? Qceiling q) && Js.isWhole q.
Proof.
  apply eq_true_iff_eq. rewrite andb_true_iff, Qeq_bool_iff, Z.eqb_eq, isWhole_iff. split.
  - intros Heq. split; [by rewrite <- Heq, Qceiling_Z | exists z; by symmetry].
  - intros [-> (z' & Hz)]. rewrite Hz at 1. by rewrite Qceiling_Z.
Qed.

(** ** The attempts of the builder *)

Lemma Js_reached_ceiling ta (targetGames : Q) p :
  Js.reached ta targetGames p = (Qceiling targetGames <=? getZ (gamesPlayed ta) p).
Proof. apply Qle_bool_ceiling. Qed.

Lemma Js_eligible_ceiling ta (targetGames : Q) m :
  Js.eligible ta targetGames m <-> eligible ta (Qceiling targetGames) m.
Proof.
  unfold Js.eligible, eligible. rewrite !Js_reached_ceiling, !Z.leb_nle. tauto.
Qed.

Lemma Js_need_difference ta (targetGames : Q) (c : Z) p1 p2 :
  (Js.need ta targetGames p2 - Js.need ta targetGames p1
   == inject_Z ((c - getZ (gamesPlayed ta) p2) - (c - getZ (gamesPlayed ta) p1)))%Q.
Proof.
  unfold Js.need. rewrite !inject_Z_sub. ring.
Qed.

Lemma Js_maxNeed_min ta (targetGames : Q) m :
  (Js.maxNeed ta targetGames m
   == targetGames - inject_Z (Z.min (getZ (gamesPlayed ta) (Cand.A m))
                                    (getZ (gamesPlayed ta) (Cand.B m))))%Q.
Proof.
  unfold Js.maxNeed, Js.qmax, Js.need.
  set (a := getZ (gamesPlayed ta) (Cand.A m)). set (b := getZ (gamesPlayed ta) (Cand.B m)).
  destruct (Qle_bool (targetGames - inject_Z a) (targetGames - inject_Z b)) eqn:Hle.
  - apply Qle_bool_iff in Hle.
    assert (inject_Z b <= inject_Z a)%Q as Hba by lra.
    rewrite <- Zle_Qle in Hba. by rewrite Z.min_r.
  - assert (¬ (targetGames - inject_Z a <= targetGames - inject_Z b)%Q) as Hnle
      by (rewrite <- Qle_bool_iff, Hle; discriminate).
    assert (inject_Z a <= inject_Z b)%Q as Hab by lra.
    rewrite <- Zle_Qle in Hab. by rewrite Z.min_l.
Qed.

(** The sign of the comparator does not depend on the target. *)
Lemma Js_compareCandidates_sign ta r (targetGames : Q) (c : Z) m1 m2 :
  Qle_bool (Js.compareCandidates ta r targetGames m1 m2) 0
  = (compareCandidates ta r c m1 m2 <=? 0).
Proof.
  unfold Js.compareCandidates, compareCandidates. cbn zeta.
  destruct (negb (byeScore ta r m2 =? byeScore ta r m1)); [apply (Qle_bool_inject_Z _ 0)|].
  set (a1 := getZ (gamesPlayed ta) (Cand.A m1)). set (b1 := getZ (gamesPlayed ta) (Cand.B m1)).
  set (a2 := getZ (gamesPlayed ta) (Cand.A m2)). set (b2 := getZ (gamesPlayed ta) (Cand.B m2)).
  assert (Js.combinedNeed ta targetGames m2 - Js.combinedNeed ta targetGames m1
          == inject_Z (combinedNeed ta c m2 - combinedNeed ta c m1))%Q as Hd.
  { unfold Js.combinedNeed, combinedNeed, Js.need. fold a1 b1 a2 b2.
    rewrite !inject_Z_sub, !inject_Z_plus, !inject_Z_sub. ring. }
  assert (Qeq_bool (Js.combinedNeed ta targetGames m2) (Js.combinedNeed ta targetGames m1)
          = (combinedNeed ta c m2 =? combinedNeed ta c m1)) as ->.
  { apply eq_true_iff_eq. rewrite Qeq_bool_iff, Z.eqb_eq. split.
    - intros Heq. assert (inject_Z (combinedNeed ta c m2 - combinedNeed ta c m1) == 0)%Q as H0
        by (rewrite <- Hd; clear Hd; lra).
      apply (proj1 (inject_Z_injective _ 0)) in H0. lia.
    - intros Heq. rewrite Heq, Z.sub_diag in Hd. change (inject_Z 0) with 0%Q in Hd. lra. }
  destruct (negb (combinedNeed ta c m2 =? combinedNeed ta c m1)).
  - apply eq_true_iff_eq. by rewrite Qle_bool_iff, Z.leb_le, Hd, (Zle_Qle _ 0).
  - apply eq_true_iff_eq. rewrite Qle_bool_iff, Z.leb_le, !Js_maxNeed_min.
    unfold maxNeed. fold a1 b1 a2 b2. split.
    + intros Hle. assert (inject_Z (Z.min a1 b1) <= inject_Z (Z.min a2 b2))%Q as H by lra.
      rewrite <- Zle_Qle in H. lia.
    + intros Hle. assert (Z.min a1 b1 <= Z.min a2 b2) as H by lia.
      rewrite Zle_Qle in H. lra.
Qed.

Lemma sortByQ_sortBy {T} (cq : T -> T -> Q) (cz : T -> T -> Z) (l : list T) :
  (∀ x y, Qle_bool (cq x y) 0 = (cz x y <=? 0)) -> Js.sortByQ cq l = sortBy cz l.
Proof.
  intros Hsign. unfold Js.sortByQ, sortBy. induction l as [|x l IH]; [done|].
  cbn [foldr]. rewrite IH. generalize (foldr (insertBy cz) [] l) as sorted.
  induction sorted as [|y sorted IHs]; [done|].
  cbn [Js.insertByQ insertBy]. by rewrite Hsign, IHs.
Qed.

Lemma Js_rankedCandidates_ceiling allMatches ta r (targetGames : Q) :
  Js.rankedCandidates allMatches ta r targetGames
  = rankedCandidates allMatches ta r (Qceiling targetGames).
Proof.
  unfold Js.rankedCandidates, rankedCandidates.
  rewrite (list_filter_iff (Js.eligible ta targetGames) (eligible ta (Qceiling targetGames)))
    by (intros m; apply Js_eligible_ceiling).
  apply sortByQ_sortBy. intros m1 m2. apply Js_compareCandidates_sign.
Qed.

Lemma Js_selectLoop_limit boards (limit r : Z) candidates st :
  match boards with
  | Js.Bounded b => limit = Qceiling b
  | Js.Unbounded => Z.of_nat (length (roundMatches st) + length candidates) <= limit
  end ->
  Js.selectLoop boards r candidates st = selectLoop limit r candidates st.
Proof.
  revert st. induction candidates as [|m rest IH]; intros st Hlimit; [done|].
  cbn [Js.selectLoop selectLoop].
  assert (Js.full boards (roundMatches st) = (limit <=? Z.of_nat (length (roundMatches st))))
    as ->.
  { destruct boards as [b|]; cbn [Js.full].
    - subst limit. apply Qle_bool_ceiling.
    - symmetry. apply Z.leb_gt. cbn [length] in Hlimit. lia. }
  destruct (limit <=? Z.of_nat (length (roundMatches st))); [done|].
  destruct (bool_decide (Cand.A m ∈ usedThisRound st) || bool_decide (Cand.B m ∈ usedThisRound st)).
  - apply IH. destruct boards; [done|]. cbn [length] in Hlimit. lia.
  - apply IH. destruct boards; [done|]. cbn [commit roundMatches length] in *.
    rewrite length_app. cbn [length] in *. lia.
Qed.

Lemma Js_roundStep_limit allMatches boards (targetGames : Q) acc r :
  Js.roundStep allMatches boards targetGames acc r
  = roundStep allMatches (boardLimit boards allMatches) (Qceiling targetGames) acc r.
Proof.
  unfold Js.roundStep, roundStep. cbn zeta.
  rewrite Js_rankedCandidates_ceiling, (Js_selectLoop_limit _ (boardLimit boards allMatches));
    [done|].
  destruct boards as [b|]; [done|]. cbn [boardLimit roundMatches length].
  rewrite rankedCandidates_perm. pose proof (length_filter (eligible acc.1 (Qceiling targetGames))
                                               allMatches). lia.
Qed.

Lemma foldl_ext_all {S T} (f g : S -> T -> S) (l : list T) (s : S) :
  (∀ s x, f s x = g s x) -> foldl f s l = foldl g s l.
Proof.
  intros Hfg. revert s. induction l as [|x l IH]; intros s; [done|].
  cbn [foldl]. by rewrite Hfg, IH.
Qed.

(** An attempt with any target and any board count is the attempt with
    the target and the board count rounded up and the round count rounded
    down, except that it is never equal at a target that is not whole. *)
Lemma Js_tryBuild_rounded allPlayers allMatches boards (totalRounds targetGames : Q) :
  Js.tryBuild allPlayers allMatches boards totalRounds targetGames
  = ((tryBuild allPlayers allMatches (boardLimit boards allMatches) (Qfloor totalRounds)
               (Qceiling targetGames)).1,
     (tryBuild allPlayers allMatches (boardLimit boards allMatches) (Qfloor totalRounds)
               (Qceiling targetGames)).2 && Js.isWhole targetGames).
Proof.
  unfold Js.tryBuild, tryBuild. cbn zeta. cbn [fst snd].
  rewrite (foldl_ext_all (Js.roundStep allMatches boards targetGames)
             (roundStep allMatches (boardLimit boards allMatches) (Qceiling targetGames)))
    by (intros; apply Js_roundStep_limit).
  f_equal. rewrite <- andb_assoc. f_equal.
  destruct (mathMax _) as [|z|]; [done| |done].
  cbn [Js.isTarget xeqb]. apply Qeq_bool_whole.
Qed.

Lemma Js_searchTarget_whole allPlayers allMatches boards (totalRounds target : Q)
    (n left : nat) :
  (target == inject_Z (Z.of_nat n))%Q -> (n < left)%nat ->
  Js.searchTarget allPlayers allMatches boards totalRounds target left
  = searchTarget allPlayers allMatches (boardLimit boards allMatches) (Qfloor totalRounds) n.
Proof.
  revert target left. induction n as [|n IH]; intros target left Htarget Hleft.
  - destruct left as [|left]; [lia|]. cbn [Js.searchTarget searchTarget].
    assert (Qle_bool 0 target = true) as ->
      by (apply Qle_bool_iff; rewrite Htarget; apply Qle_refl).
    rewrite Js_tryBuild_rounded. cbn [fst snd].
    rewrite (Qceiling_comp _ _ Htarget), Qceiling_Z, (isWhole_comp _ _ Htarget),
      isWhole_inject_Z, andb_true_r.
    destruct (tryBuild _ _ _ _ _).2; [done|].
    destruct left as [|left]; [done|]. cbn [Js.searchTarget].
    assert (Qle_bool 0 (target - 1) = false) as ->; [|done].
    apply not_true_is_false. rewrite Qle_bool_iff, Htarget.
    change (inject_Z (Z.of_nat 0)) with 0%Q. lra.
  - destruct left as [|left]; [lia|]. cbn [Js.searchTarget searchTarget].
    assert (Qle_bool 0 target = true) as ->.
    { apply Qle_bool_iff. rewrite Htarget. rewrite <- (Zle_Qle 0). lia. }
    rewrite Js_tryBuild_rounded. cbn [fst snd].
    rewrite (Qceiling_comp _ _ Htarget), Qceiling_Z, (isWhole_comp _ _ Htarget),
      isWhole_inject_Z, andb_true_r.
    destruct (tryBuild _ _ _ _ _).2; [done|].
    apply IH; [|lia]. rewrite Htarget, Nat2Z.inj_succ. unfold Z.succ.
    rewrite inject_Z_plus. change (inject_Z 1) with 1%Q. lra.
Qed.

Lemma Js_searchTarget_fraction allPlayers allMatches boards (totalRounds target : Q)
    (left : nat) :
  Js.isWhole target = false ->
  Js.searchTarget allPlayers allMatches boards totalRounds target left
  = emptySchedule (Qfloor totalRounds).
Proof.
  revert target. induction left as [|left IH]; intros target Hfraction; [done|].
  cbn [Js.searchTarget]. destruct (Qle_bool 0 target); [|done].
  rewrite Js_tryBuild_rounded. cbn [fst snd]. rewrite Hfraction, andb_false_r.
  apply IH. apply not_true_is_false. rewrite isWhole_iff. intros (z & Hz).
  apply not_true_iff_false in Hfraction. apply Hfraction, isWhole_iff.
  exists (z + 1). rewrite inject_Z_plus, <- Hz. change (inject_Z 1) with 1%Q. lra.
Qed.

(** The steps that [buildGlobalSchedule] allows are all the steps of the
    loop: more of them change nothing. *)
Lemma Js_searchTarget_fuel allPlayers allMatches boards (totalRounds target : Q) (left : nat) :
  (0 <= target)%Q -> (Z.to_nat (Qfloor target + 1) <= left)%nat ->
  Js.searchTarget allPlayers allMatches boards totalRounds target left
  = Js.searchTarget allPlayers allMatches boards totalRounds target
                    (Z.to_nat (Qfloor target + 1)).
Proof.
  intros Hnonneg Hleft.
  assert (0 <= Qfloor target) as Hfloor by (apply Qfloor_resp_le in Hnonneg; exact Hnonneg).
  destruct (Js.isWhole target) eqn:Hwhole.
  - assert (target == inject_Z (Z.of_nat (Z.to_nat (Qfloor target))))%Q as Htarget.
    { rewrite Z2Nat.id by done. unfold Js.isWhole in Hwhole. by apply Qeq_bool_iff in Hwhole. }
    by rewrite !(Js_searchTarget_whole _ _ _ _ _ _ _ Htarget) by lia.
  - by rewrite !Js_searchTarget_fraction.
Qed.

Lemma Js_qmax_le (x y : Q) : (x <= Js.qmax x y)%Q.
Proof.
  unfold Js.qmax. destruct (Qle_bool x y) eqn:Hle; [by apply Qle_bool_iff|apply Qle_refl].
Qed.

Lemma Js_initialTarget_nonneg groups boards totalRounds :
  (0 <= Js.initialTarget groups boards totalRounds)%Q.
Proof. apply Js_qmax_le. Qed.

(** What [buildGlobalSchedule] does with any counts, through the search
    over whole targets. *)
Lemma Js_buildGlobalSchedule_rounded groupRounds boards preferredRounds :
  let groups := groupsOf groupRounds in
  let limit := boardLimit (Js.atLeastOne boards) (allMatchesOf groups) in
  Js.buildGlobalSchedule groupRounds boards preferredRounds
  = match Js.atLeastOne preferredRounds with
    | Js.Unbounded => Js.NeverReturns
    | Js.Bounded totalRounds =>
        let target := Js.initialTarget groups (Js.atLeastOne boards) totalRounds in
        Js.Returned
          (if Js.isWhole target
           then searchTarget (allPlayersOf groups) (allMatchesOf groups) limit
                             (Qfloor totalRounds) (Z.to_nat (Qfloor target))
           else emptySchedule (Qfloor totalRounds))
    end.
Proof.
  cbn zeta. unfold Js.buildGlobalSchedule.
  destruct (Js.atLeastOne preferredRounds) as [totalRounds|]; [|done]. f_equal.
  set (target := Js.initialTarget _ _ _).
  pose proof (Js_initialTarget_nonneg (groupsOf groupRounds) (Js.atLeastOne boards) totalRounds)
    as Hnonneg. fold target in Hnonneg.
  destruct (Js.isWhole target) eqn:Hwhole.
  - assert (0 <= Qfloor target) as Hfloor.
    { apply Qfloor_resp_le in Hnonneg. exact Hnonneg. }
    apply Js_searchTarget_whole; [|lia].
    rewrite Z2Nat.id by done. unfold Js.isWhole in Hwhole. by apply Qeq_bool_iff in Hwhole.
  - by apply Js_searchTarget_fraction.
Qed.

(** ** The coerced counts *)

Lemma Js_atLeastOne_ge (x : Js.number) (q : Q) :
  Js.atLeastOne x = Js.Bounded q -> (1 <= q)%Q.
Proof.
  destruct x as [q0| | |]; cbn [Js.atLeastOne]; try (intros [= <-]; apply Qle_refl).
  destruct (Qeq_bool q0 0); intros [= <-]; [apply Qle_refl | apply Js_qmax_le].
Qed.

Lemma Js_atLeastOne_floor (x : Js.number) (q : Q) :
  Js.atLeastOne x = Js.Bounded q -> 1 <= Qfloor q ∧ 1 <= Qceiling q.
Proof.
  intros Hq%Js_atLeastOne_ge. split.
  - apply Qfloor_resp_le in Hq. exact Hq.
  - apply Qceiling_resp_le in Hq. exact Hq.
Qed.

Lemma Js_qmax_inject_Z (a b : Z) : Js.qmax (inject_Z a) (inject_Z b) = inject_Z (Z.max a b).
Proof.
  unfold Js.qmax. rewrite Qle_bool_inject_Z.
  destruct (Z.leb_spec a b); [by rewrite Z.max_r by lia | by rewrite Z.max_l by lia].
Qed.

Lemma Js_qmin_inject_Z (a b : Z) : Js.qmin (inject_Z a) (inject_Z b) = inject_Z (Z.min a b).
Proof.
  unfold Js.qmin. rewrite Qle_bool_inject_Z.
  destruct (Z.leb_spec a b); [by rewrite Z.min_l by lia | by rewrite Z.min_r by lia].
Qed.

(** On a whole number and on [NaN] the coercion is the one of the whole
    numbers. *)
Lemma Js_atLeastOne_ofJsnum (x : jsnum) :
  Js.atLeastOne (Js.ofJsnum x) = Js.Bounded (inject_Z (atLeastOne x)).
Proof.
  destruct x as [z|]; [|done]. cbn [Js.ofJsnum Js.atLeastOne].
  unfold atLeastOne, orDefault.
  change (Qeq_bool (inject_Z z) 0) with (Qeq_bool (inject_Z z) (inject_Z 0)).
  rewrite Qeq_bool_inject_Z. destruct (z =? 0); [done|].
  change (Js.qmax 1 (inject_Z z)) with (Js.qmax (inject_Z 1) (inject_Z z)).
  by rewrite Js_qmax_inject_Z.
Qed.

Lemma Js_initialTarget_whole groups (boards totalRounds : Z) :
  Js.initialTarget groups (Js.Bounded (inject_Z boards)) (inject_Z totalRounds)
  = inject_Z (initialTarget groups boards totalRounds).
Proof.
  unfold Js.initialTarget, initialTarget, Js.capByBoards, capByBoards. cbn zeta.
  assert (Qfloor (inject_Z boards * inject_Z totalRounds * 2
                  / inject_Z (playerCount (allPlayersOf groups)))
          = boards * totalRounds * 2 / playerCount (allPlayersOf groups)) as ->.
  { rewrite Zdiv_Qdiv. change 2%Q with (inject_Z 2). by rewrite <- !inject_Z_mult. }
  rewrite !Js_qmin_inject_Z. change 0%Q with (inject_Z 0). rewrite Js_qmax_inject_Z.
  f_equal. lia.
Qed.

(** On whole numbers and [NaN] the builder returns, and returns the
    schedule computed on whole numbers. *)
Lemma Js_buildGlobalSchedule_ofJsnum groupRounds (boards preferredRounds : jsnum) :
  Js.buildGlobalSchedule groupRounds (Js.ofJsnum boards) (Js.ofJsnum preferredRounds)
  = Js.Returned (buildGlobalSchedule groupRounds boards preferredRounds).
Proof.
  rewrite Js_buildGlobalSchedule_rounded. cbn zeta. rewrite !Js_atLeastOne_ofJsnum.
  rewrite Js_initialTarget_whole, isWhole_inject_Z, !Qfloor_Z. cbn [boardLimit].
  by rewrite Qceiling_Z.
Qed.

Lemma capByOpponents_nonneg groups : 0 <= capByOpponents groups.
Proof.
  unfold capByOpponents.
  destruct (map _ groups) as [|c cs] eqn:Hmap; [done|].
  assert (Forall (fun x => 0 <= x) (c :: cs)) as Hall.
  { rewrite <- Hmap. change (map ?f ?l) with (f <$> l). apply Forall_fmap, Forall_true.
    intros g. cbn. lia. }
  apply Forall_cons in Hall as [Hc Hcs]. by apply foldl_min_nonneg.
Qed.

Lemma Js_qmin_le_r (x y : Q) : (Js.qmin x y <= y)%Q.
Proof.
  unfold Js.qmin. destruct (Qle_bool x y) eqn:Hle; [by apply Qle_bool_iff | apply Qle_refl].
Qed.

Lemma Js_qmin_le_l (x y : Q) : (Js.qmin x y <= x)%Q.
Proof.
  unfold Js.qmin. destruct (Qle_bool x y) eqn:Hle; [apply Qle_refl|].
  assert (¬ (x <= y)%Q) by (rewrite <- Qle_bool_iff, Hle; discriminate). lra.
Qed.

Lemma Js_qmax_lub (x y z : Q) : (x <= z)%Q -> (y <= z)%Q -> (Js.qmax x y <= z)%Q.
Proof. unfold Js.qmax. by destruct (Qle_bool x y). Qed.

Lemma Js_initialTarget_le_opponents groups boards totalRounds :
  Qfloor (Js.initialTarget groups boards totalRounds) <= capByOpponents groups.
Proof.
  assert (Js.initialTarget groups boards totalRounds <= inject_Z (capByOpponents groups))%Q
    as Hle.
  { unfold Js.initialTarget. cbn zeta. apply Js_qmax_lub.
    - rewrite <- (Zle_Qle 0). apply capByOpponents_nonneg.
    - destruct (Js.capByBoards _ _ _) as [c|].
      + eapply Qle_trans; [apply Js_qmin_le_r|]. apply Js_qmin_le_r.
      + apply Js_qmin_le_r. }
  apply Qfloor_resp_le in Hle. by rewrite Qfloor_Z in Hle.
Qed.

Lemma boardLimit_nonneg boards allMatches x :
  Js.atLeastOne x = boards -> 0 <= boardLimit boards allMatches.
Proof.
  intros Hx. destruct boards as [b|]; cbn [boardLimit]; [|lia].
  apply Js_atLeastOne_floor in Hx. lia.
Qed.

(** A schedule that the builder returns is the fallback or the schedule
    of an equal attempt at a whole target, with the board count rounded up
    and the round count rounded down. *)
Lemma Js_buildGlobalSchedule_cases groupRounds boards preferredRounds schedule :
  Js.buildGlobalSchedule groupRounds boards preferredRounds = Js.Returned schedule ->
  let groups := groupsOf groupRounds in
  let limit := boardLimit (Js.atLeastOne boards) (allMatchesOf groups) in
  ∃ totalRounds : Q,
    Js.atLeastOne preferredRounds = Js.Bounded totalRounds
    ∧ (schedule = emptySchedule (Qfloor totalRounds)
       ∨ ∃ found : nat,
           Z.of_nat found <= capByOpponents groups
           ∧ tryBuild (allPlayersOf groups) (allMatchesOf groups) limit (Qfloor totalRounds)
                      (Z.of_nat found)
             = (schedule, true)).
Proof.
  rewrite Js_buildGlobalSchedule_rounded. cbn zeta.
  destruct (Js.atLeastOne preferredRounds) as [totalRounds|]; [|done].
  intros [= <-]. exists totalRounds. split; [done|].
  set (target := Js.initialTarget _ _ _).
  destruct (Js.isWhole target); [|by left].
  destruct (searchTarget_cases (allPlayersOf (groupsOf groupRounds))
              (allMatchesOf (groupsOf groupRounds))
              (boardLimit (Js.atLeastOne boards) (allMatchesOf (groupsOf groupRounds)))
              (Qfloor totalRounds) (Z.to_nat (Qfloor target)))
    as [[-> _] | (found & Hfound & Hbuild & _)]; [by left|].
  right. exists found. split; [|done].
  pose proof (Js_initialTarget_le_opponents (groupsOf groupRounds) (Js.atLeastOne boards)
                totalRounds) as Hle. fold target in Hle.
  pose proof (capByOpponents_nonneg (groupsOf groupRounds)). lia.
Qed.

(** The invariant of the attempts holds of whatever the builder returns. *)
Lemma Js_buildGlobalSchedule_buildInv groupRounds boards preferredRounds schedule :
  Js.buildGlobalSchedule groupRounds boards preferredRounds = Js.Returned schedule ->
  ∃ ta, buildInv (boardLimit (Js.atLeastOne boards) (allMatchesOf (groupsOf groupRounds)))
                 (ta, schedule).
Proof.
  intros Hs.
  pose proof (boardLimit_nonneg (Js.atLeastOne boards) (allMatchesOf (groupsOf groupRounds))
                boards eq_refl) as Hlimit.
  destruct (Js_buildGlobalSchedule_cases _ _ _ _ Hs)
    as (totalRounds & _ & [-> | (found & _ & Hfound)]).
  - exists (initTally []). by apply emptySchedule_buildInv.
  - apply (f_equal fst) in Hfound. cbn [fst] in Hfound. rewrite <- Hfound, tryBuild_schedule.
    eexists. rewrite <- surjective_pairing. apply buildEnd_buildInv; [done|].
    intros m Hm. by apply allMatches_players in Hm as [? _].
Qed.

Lemma Js_buildGlobalSchedule_length groupRounds boards preferredRounds schedule :
  Js.buildGlobalSchedule groupRounds boards preferredRounds = Js.Returned schedule ->
  ∃ totalRounds : Q,
    Js.atLeastOne preferredRounds = Js.Bounded totalRounds
    ∧ length schedule = Z.to_nat (Qfloor totalRounds).
Proof.
  intros Hs.
  destruct (Js_buildGlobalSchedule_cases _ _ _ _ Hs)
    as (totalRounds & Hrounds & [-> | (found & _ & Hfound)]);
    exists totalRounds; (split; [done|]).
  - unfold emptySchedule. by rewrite length_replicate.
  - apply (f_equal fst) in Hfound. cbn [fst] in Hfound. rewrite <- Hfound, tryBuild_schedule.
    destruct (Js_atLeastOne_floor _ _ Hrounds) as [Hfloor _].
    rewrite <- (Z2Nat.id (Qfloor totalRounds)) at 1 by lia.
    by destruct (buildEnd_lastPlayedInv (allPlayersOf (groupsOf groupRounds))
                   (allMatchesOf (groupsOf groupRounds))
                   (boardLimit (Js.atLeastOne boards) (allMatchesOf (groupsOf groupRounds)))
                   (Z.of_nat found) (Z.to_nat (Qfloor totalRounds))) as [-> _].
Qed.

(** ** Groups for any group count *)

Lemma Js_remainder_whole (i : nat) (g : Q) (z : Z) :
  (g == inject_Z z)%Q -> (Js.remainder i g == inject_Z (Z.of_nat i mod z))%Q.
Proof.
  intros Hg. unfold Js.remainder.
  assert (Qfloor (inject_Z (Z.of_nat i) / g) = Z.of_nat i / z) as ->
    by (by rewrite Zdiv_Qdiv, Hg).
  destruct (decide (z = 0)) as [->|Hz].
  - rewrite Z.mod_0_r, Z.div_0_r, Hg. ring.
  - rewrite Z.mod_eq, inject_Z_sub, inject_Z_mult, Hg by done. ring.
Qed.

Lemma Qfloor_unit_interval (x : Q) : (0 <= x)%Q -> (x < 1)%Q -> Qfloor x = 0.
Proof.
  intros H0 H1. pose proof (Qfloor_le x) as Hle. pose proof (Qlt_floor x) as Hlt.
  assert (inject_Z (Qfloor x) < inject_Z 1)%Q as Hup
    by (apply Qle_lt_trans with x; done).
  assert (inject_Z 0 < inject_Z (Qfloor x + 1))%Q as Hlow
    by (apply Qle_lt_trans with x; done).
  rewrite <- Zlt_Qlt in Hup, Hlow. lia.
Qed.

Lemma Js_remainder_small (i : nat) (g : Q) :
  (inject_Z (Z.of_nat i) < g)%Q -> (Js.remainder i g == inject_Z (Z.of_nat i))%Q.
Proof.
  intros Hlt. unfold Js.remainder.
  assert (0 <= inject_Z (Z.of_nat i))%Q as Hi by (rewrite <- (Zle_Qle 0); lia).
  assert (0 < g)%Q as Hg by (by apply Qle_lt_trans with (inject_Z (Z.of_nat i))).
  rewrite Qfloor_unit_interval.
  - change (inject_Z 0) with 0%Q. ring.
  - apply Qle_shift_div_l; [done|]. by rewrite Qmult_0_l.
  - apply Qlt_shift_div_r; [done|]. by rewrite Qmult_1_l.
Qed.

Lemma Js_position_whole {T} (xs : list T) (x : Q) (k : nat) :
  (x == inject_Z (Z.of_nat k))%Q ->
  Js.position xs x = if decide (k < length xs)%nat then Some k else None.
Proof.
  intros Hx. unfold Js.position.
  rewrite (isWhole_comp _ _ Hx), isWhole_inject_Z, (Qfloor_comp _ _ Hx), Qfloor_Z.
  cbn [andb]. rewrite (proj2 (Z.leb_le 0 (Z.of_nat k))) by lia. cbn [andb].
  rewrite Nat2Z.id.
  destruct (decide (k < length xs)%nat).
  - by rewrite (proj2 (Z.ltb_lt _ _)) by lia.
  - by rewrite (proj2 (Z.ltb_ge _ _)) by lia.
Qed.

Lemma floor_below_fraction (g : Q) :
  Js.isWhole g = false -> (inject_Z (Qfloor g) < g)%Q.
Proof.
  intros Hfraction. destruct (Qle_lt_or_eq _ _ (Qfloor_le g)) as [Hlt|Heq]; [done|].
  exfalso. apply not_true_iff_false in Hfraction. apply Hfraction.
  unfold Js.isWhole. apply Qeq_bool_iff. by symmetry.
Qed.

Lemma splitIntoGroups_length (players : list string) (numGroups : jsnum) :
  length (splitIntoGroups players numGroups) = Z.to_nat (atLeastOne numGroups).
Proof. by destruct (splitIntoGroups_sizes players numGroups) as [? _]. Qed.

(** As long as every index read is one of the groups, the groups are those
    dealt out for the whole number of groups. *)
Lemma Js_splitIntoGroups_deal (players : list string) (g : Q) :
  1 <= Qfloor g ->
  Js.isWhole g = true ∨ (length players <= Z.to_nat (Qfloor g))%nat ->
  foldl (Js.pushPlayer g) (Js.Returned (replicate (Z.to_nat (Qfloor g)) [])) (imap pair players)
  = Js.Returned (splitIntoGroups players (Num (Qfloor g))).
Proof.
  intros Hfloor. pose proof (atLeastOne_pos (Qfloor g) Hfloor) as Hone.
  induction players as [|p players IH] using rev_ind; intros Hfits.
  - rewrite splitIntoGroups_nil, Hone. done.
  - rewrite imap_app, foldl_app, IH, splitIntoGroups_snoc, Hone;
      [|destruct Hfits as [?|Hlen]; [by left | right; rewrite length_app in Hlen; lia]].
    cbn [imap foldl Js.pushPlayer fst snd]. rewrite Nat.add_0_r.
    set (k := Z.to_nat (Qfloor g)). set (i := length players).
    assert (Js.position (splitIntoGroups players (Num (Qfloor g))) (Js.remainder i g)
            = Some (i mod k)%nat) as ->; [|done].
    assert (i mod k < k)%nat as Hmod by (apply Nat.mod_upper_bound; lia).
    rewrite (Js_position_whole _ _ (i mod k)%nat).
    + by rewrite decide_True by (by rewrite splitIntoGroups_length, Hone).
    + destruct (Js.isWhole g) eqn:Hwhole.
      * unfold Js.isWhole in Hwhole. apply Qeq_bool_iff in Hwhole.
        rewrite (Js_remainder_whole i g (Qfloor g) Hwhole).
        rewrite Nat2Z.inj_mod. unfold k. by rewrite Z2Nat.id by lia.
      * destruct Hfits as [?|Hlen]; [done|]. rewrite length_app in Hlen. cbn [length] in Hlen.
        rewrite Nat.mod_small by lia. apply Js_remainder_small.
        apply Qlt_le_trans with (inject_Z (Qfloor g)); [|apply Qfloor_le].
        rewrite <- Zlt_Qlt. lia.
Qed.

Lemma Js_pushPlayer_thrown (g : Q) (e : Js.thrown) (l : list (nat * string)) :
  foldl (Js.pushPlayer g) (Js.Throws e) l = Js.Throws e.
Proof. induction l as [|x l IH]; [done|]. exact IH. Qed.

(** With a group count that is not whole, the player whose index is the
    whole part of the count is pushed onto [undefined]. *)
Lemma Js_splitIntoGroups_throws (players : list string) (g : Q) :
  1 <= Qfloor g -> Js.isWhole g = false -> (Z.to_nat (Qfloor g) < length players)%nat ->
  foldl (Js.pushPlayer g) (Js.Returned (replicate (Z.to_nat (Qfloor g)) [])) (imap pair players)
  = Js.Throws Js.TypeError.
Proof.
  intros Hfloor Hfraction Hmany. set (k := Z.to_nat (Qfloor g)) in *.
  rewrite <- (take_drop k players) at 1.
  assert (length (take k players) = k) as Hlen by (rewrite length_take; lia).
  rewrite imap_app, foldl_app.
  rewrite Js_splitIntoGroups_deal by (try done; right; fold k; lia).
  destruct (drop k players) as [|p rest] eqn:Hdrop.
  { apply (f_equal length) in Hdrop. rewrite length_drop in Hdrop. cbn in Hdrop. lia. }
  cbn [imap foldl Js.pushPlayer fst snd]. rewrite Hlen, Nat.add_0_r.
  rewrite (Js_position_whole _ _ k).
  - rewrite decide_False; [apply Js_pushPlayer_thrown|].
    rewrite splitIntoGroups_length, atLeastOne_pos by done. fold k. lia.
  - apply Js_remainder_small. unfold k. rewrite Z2Nat.id by lia.
    by apply floor_below_fraction.
Qed.

(** What [splitIntoGroups] does for every group count. *)
Lemma Js_splitIntoGroups_cases (players : list string) (numGroups : Js.number) :
  match Js.atLeastOne numGroups with
  | Js.Unbounded => Js.splitIntoGroups players numGroups = Js.Throws Js.RangeError
  | Js.Bounded g =>
      if Js.isWhole g || bool_decide (length players <= Z.to_nat (Qfloor g))%nat
      then Js.splitIntoGroups players numGroups
           = Js.Returned (splitIntoGroups players (Num (Qfloor g)))
      else Js.splitIntoGroups players numGroups = Js.Throws Js.TypeError
  end.
Proof.
  unfold Js.splitIntoGroups.
  destruct (Js.atLeastOne numGroups) as [g|] eqn:Hg; [|done].
  destruct (Js_atLeastOne_floor _ _ Hg) as [Hfloor _].
  destruct (Js.isWhole g) eqn:Hwhole; cbn [orb].
  - apply Js_splitIntoGroups_deal; [done | by left].
  - destruct (bool_decide_reflect (length players <= Z.to_nat (Qfloor g))%nat) as [Hlen|Hlen].
    + apply Js_splitIntoGroups_deal; [done | by right].
    + apply Js_splitIntoGroups_throws; [done | done | lia].
Qed.

Lemma Js_splitIntoGroups_ofJsnum (players : list string) (numGroups : jsnum) :
  Js.splitIntoGroups players (Js.ofJsnum numGroups)
  = Js.Returned (splitIntoGroups players numGroups).
Proof.
  pose proof (Js_splitIntoGroups_cases players (Js.ofJsnum numGroups)) as Hcases.
  rewrite Js_atLeastOne_ofJsnum, isWhole_inject_Z, Qfloor_Z in Hcases. cbn [orb] in Hcases.
  rewrite Hcases. unfold splitIntoGroups.
  by rewrite (atLeastOne_pos _ (atLeastOne_ge numGroups)).
Qed.

(** X3. [splitIntoGroups] for every group count.  With [Infinity] groups
    the array of groups cannot be made.  With a whole count [g], and with a
    count that is not whole as long as there are no more players than its
    whole part, it makes [floor(g)] groups and deals the players out in turn:
    the player at index [i] is member number [i / floor(g)] of group
    [i mod floor(g)], and the groups together hold the players, each as often
    as the player list does.  With a count that is not whole and more
    players than that, the call ends in a [TypeError]. *)
Theorem splitIntoGroups_deals_in_turn (players : list string) (numGroups : Js.number) :
  match Js.atLeastOne numGroups with
  | Js.Unbounded => Js.splitIntoGroups players numGroups = Js.Throws Js.RangeError
  | Js.Bounded g =>
      let k := Z.to_nat (Qfloor g) in
      if Js.isWhole g || bool_decide (length players <= k)%nat
      then ∃ groups,
             Js.splitIntoGroups players numGroups = Js.Returned groups
             ∧ length groups = k
             ∧ concat groups ≡ₚ players
             ∧ ∀ (i : nat) p, players !! i = Some p ->
                 ∃ grp, groups !! (i mod k)%nat = Some grp ∧ grp !! (i / k)%nat = Some p
      else Js.splitIntoGroups players numGroups = Js.Throws Js.TypeError
  end.
Proof.
  pose proof (Js_splitIntoGroups_cases players numGroups) as Hcases.
  destruct (Js.atLeastOne numGroups) as [g|] eqn:Hg; [|done]. cbn zeta.
  destruct (Js.isWhole g || bool_decide (length players <= Z.to_nat (Qfloor g))%nat); [|done].
  destruct (Js_atLeastOne_floor _ _ Hg) as [Hfloor _].
  pose proof (atLeastOne_pos _ Hfloor) as Hone.
  exists (splitIntoGroups players (Num (Qfloor g))). split; [done|].
  split; [by rewrite splitIntoGroups_length, Hone|].
  split; [apply splitIntoGroups_perm|].
  intros i p Hi. pose proof (splitIntoGroups_position players (Num (Qfloor g)) i p Hi) as Hpos.
  cbn zeta in Hpos. by rewrite Hone in Hpos.
Qed.

(** C3, as the code has it.  In every round of a schedule that
    [buildGlobalSchedule] returns no player is in two matches, the boards
    are 1, 2, ... in the order in which the matches were put into the round,
    and the number of matches is at most the coerced board count rounded up
    to a whole number: at most the board count itself when that is a whole
    number. *)
Theorem rounds_fit_boards_rounded_up groupRounds (boards preferredRounds : Js.number)
    (schedule : list (list Match.t)) :
  Js.buildGlobalSchedule groupRounds boards preferredRounds = Js.Returned schedule ->
  Forall (fun ms =>
            NoDup (roundPlayers ms)
            ∧ Match.board <$> ms = Z.of_nat <$> seq 1 (length ms)
            ∧ match Js.atLeastOne boards with
              | Js.Bounded b =>
                  Z.of_nat (length ms) <= Qceiling b
                  ∧ (Js.isWhole b = true -> (inject_Z (Z.of_nat (length ms)) <= b)%Q)
              | Js.Unbounded => True
              end)
         schedule.
Proof.
  intros Hs. destruct (Js_buildGlobalSchedule_buildInv _ _ _ _ Hs) as (ta & Hgood & _).
  cbn [snd] in Hgood. eapply Forall_impl; [exact Hgood|].
  intros ms (Hnd & Hlen & Hboards). split; [done|]. split; [done|].
  destruct (Js.atLeastOne boards) as [b|]; [|done]. cbn [boardLimit] in Hlen.
  split; [done|]. intros Hwhole. unfold Js.isWhole in Hwhole. apply Qeq_bool_iff in Hwhole.
  apply Qle_trans with (inject_Z (Qceiling b)); [by rewrite <- Zle_Qle|].
  rewrite Hwhole at 1. rewrite Qceiling_Z. apply Qfloor_le.
Qed.

Lemma rounds_fit_boards_rounded_up_witness :
  Forall (fun ms =>
            NoDup (roundPlayers ms)
            ∧ Match.board <$> ms = Z.of_nat <$> seq 1 (length ms)
            ∧ match Js.atLeastOne (Js.Finite (3 # 2)) with
              | Js.Bounded b =>
                  Z.of_nat (length ms) <= Qceiling b
                  ∧ (Js.isWhole b = true -> (inject_Z (Z.of_nat (length ms)) <= b)%Q)
              | Js.Unbounded => True
              end)
         [[Match.mk 1 1 "P1" "P4" 1; Match.mk 1 2 "P2" "P3" 1]; []]%string.
Proof.
  apply (rounds_fit_boards_rounded_up
           (buildGroupPairings (splitIntoGroups ["P1"; "P2"; "P3"; "P4"]%string (Num 1)))
           (Js.Finite (3 # 2)) (Js.Finite 2)).
  vm_compute. reflexivity.
Defined.

(** C3, as the claim has it, fails: with four players in one group, 1.5
    boards and 2 rounds the first round has two matches. *)
Lemma round_exceeds_fractional_board_count :
  Js.atLeastOne (Js.Finite (3 # 2)) = Js.Bounded (3 # 2)
  ∧ Js.buildGlobalSchedule
      (buildGroupPairings (splitIntoGroups ["P1"; "P2"; "P3"; "P4"]%string (Num 1)))
      (Js.Finite (3 # 2)) (Js.Finite 2)
    = Js.Returned [[Match.mk 1 1 "P1" "P4" 1; Match.mk 1 2 "P2" "P3" 1]; []]%string
  ∧ ¬ Forall (fun ms : list Match.t => (inject_Z (Z.of_nat (length ms)) <= 3 # 2)%Q)
             [[Match.mk 1 1 "P1" "P4" 1; Match.mk 1 2 "P2" "P3" 1]; []]%string.
Proof.
  split; [reflexivity|]. split; [vm_compute; reflexivity|].
  intros Hall. apply Forall_cons in Hall as [Hfirst _]. vm_compute in Hfirst. by apply Hfirst.
Qed.

(** X8. [buildGlobalSchedule] returns for every finite round count, and
    returns as many rounds as the coerced round count rounded down to a whole
    number, for a successful attempt as well as for the fallback; with
    [Infinity] rounds it does not return. *)
Theorem buildGlobalSchedule_round_count groupRounds (boards preferredRounds : Js.number) :
  match Js.atLeastOne preferredRounds with
  | Js.Bounded totalRounds =>
      ∃ schedule,
        Js.buildGlobalSchedule groupRounds boards preferredRounds = Js.Returned schedule
        ∧ length schedule = Z.to_nat (Qfloor totalRounds)
  | Js.Unbounded =>
      Js.buildGlobalSchedule groupRounds boards preferredRounds = Js.NeverReturns
  end.
Proof.
  destruct (Js.atLeastOne preferredRounds) as [totalRounds|] eqn:Hrounds.
  - pose proof (Js_buildGlobalSchedule_rounded groupRounds boards preferredRounds) as Hb.
    cbn zeta in Hb. rewrite Hrounds in Hb. eexists. split; [exact Hb|].
    destruct (Js_buildGlobalSchedule_length _ _ _ _ Hb) as (t & Ht & ->).
    rewrite Hrounds in Ht. by injection Ht as ->.
  - unfold Js.buildGlobalSchedule. by rewrite Hrounds.
Qed.

Lemma rebalanceBoards_goodRounds (limit : Z) schedule (k : nat) ms :
  Forall (goodRound limit) schedule ->
  rebalanceBoards schedule !! k = Some ms ->
  NoDup (roundPlayers ms)
  ∧ Z.of_nat (length ms) <= limit
  ∧ Match.board <$> ms ≡ₚ Z.of_nat <$> seq 1 (length ms).
Proof.
  intros Hgood Hk.
  destruct (Forall2_lookup_l _ _ _ _ _ (rebalanceBoards_frame schedule) Hk)
    as (ms0 & Hms0 & Hw & Hb).
  destruct (Forall_lookup_1 _ _ _ _ Hgood Hms0) as (Hnd & Hlen & Hboards).
  destruct (roundPlayers_withoutBoard _ _ Hw) as [-> _].
  assert (length ms = length ms0) as ->
    by (apply (f_equal length) in Hw; by rewrite !length_fmap in Hw).
  split; [done|]. split; [done|]. by rewrite Hb, Hboards.
Qed.

(** X14. The schedule the app shows, the rebalanced schedule of the
    builder, has the coerced round count, rounded down, as its number of
    rounds; in every round no player is in two matches, there are at most as
    many matches as the coerced board count rounded up and the boards are
    1, 2, ... each used once; and no pair of players meets twice. *)
Theorem rebalanced_schedule_well_formed groupRounds (boards preferredRounds : Js.number)
    (schedule : list (list Match.t)) :
  Js.buildGlobalSchedule groupRounds boards preferredRounds = Js.Returned schedule ->
  let shown := rebalanceBoards schedule in
  (∃ totalRounds, Js.atLeastOne preferredRounds = Js.Bounded totalRounds
                  ∧ length shown = Z.to_nat (Qfloor totalRounds))
  ∧ Forall (fun ms =>
              NoDup (roundPlayers ms)
              ∧ match Js.atLeastOne boards with
                | Js.Bounded b => Z.of_nat (length ms) <= Qceiling b
                | Js.Unbounded => True
                end
              ∧ Match.board <$> ms ≡ₚ Z.of_nat <$> seq 1 (length ms))
           shown
  ∧ NoDup (unorderedPair <$> concat shown).
Proof.
  intros Hs. cbn zeta.
  destruct (Js_buildGlobalSchedule_buildInv _ _ _ _ Hs) as (ta & Hgood & Hpairs & _).
  cbn [snd] in Hgood, Hpairs. split; [|split].
  - destruct (Js_buildGlobalSchedule_length _ _ _ _ Hs) as (t & Ht & Hlen).
    exists t. split; [done|].
    by rewrite (Forall2_length _ _ _ (rebalanceBoards_frame schedule)).
  - apply Forall_lookup. intros k ms Hk.
    destruct (rebalanceBoards_goodRounds _ _ _ _ Hgood Hk) as (Hnd & Hlen & Hboards).
    split; [done|]. split; [|done].
    by destruct (Js.atLeastOne boards).
  - by rewrite rebalanceBoards_pairs.
Qed.

Lemma rebalanced_schedule_well_formed_witness :
  let shown := rebalanceBoards [[Match.mk 1 1 "P1" "P4" 1; Match.mk 1 2 "P2" "P3" 1]; []]%string in
  (∃ totalRounds, Js.atLeastOne (Js.Finite (5 # 2)) = Js.Bounded totalRounds
                  ∧ length shown = Z.to_nat (Qfloor totalRounds))
  ∧ Forall (fun ms =>
              NoDup (roundPlayers ms)
              ∧ match Js.atLeastOne (Js.Finite (3 # 2)) with
                | Js.Bounded b => Z.of_nat (length ms) <= Qceiling b
                | Js.Unbounded => True
                end
              ∧ Match.board <$> ms ≡ₚ Z.of_nat <$> seq 1 (length ms))
           shown
  ∧ NoDup (unorderedPair <$> concat shown).
Proof.
  apply (rebalanced_schedule_well_formed
           (buildGroupPairings (splitIntoGroups ["P1"; "P2"; "P3"; "P4"]%string (Num 1)))
           (Js.Finite (3 # 2)) (Js.Finite (5 # 2))).
  vm_compute. reflexivity.
Defined.

(** ** From the names to the totals *)

Lemma Js_splitIntoGroups_returned (players : list string) (numGroups : Js.number) groups :
  Js.splitIntoGroups players numGroups = Js.Returned groups ->
  concat groups ≡ₚ players ∧ (1 <= length groups)%nat.
Proof.
  intros Hgroups. pose proof (Js_splitIntoGroups_cases players numGroups) as Hcases.
  destruct (Js.atLeastOne numGroups) as [g|] eqn:Hg; [|congruence].
  destruct (Js.isWhole g || bool_decide (length players <= Z.to_nat (Qfloor g))%nat);
    [|congruence].
  rewrite Hgroups in Hcases. injection Hcases as ->.
  destruct (Js_atLeastOne_floor _ _ Hg) as [Hfloor _].
  split; [apply splitIntoGroups_perm|].
  rewrite splitIntoGroups_length, atLeastOne_pos by done. lia.
Qed.

Lemma groups_of_two_hold_twice (groups : list (list string)) :
  Forall (fun grp => (2 <= length grp)%nat) groups ->
  (2 * length groups <= length (concat groups))%nat.
Proof.
  induction 1 as [|grp groups Hgrp _ IH]; [done|].
  cbn [concat length]. rewrite length_app. lia.
Qed.

(** When every group has two players or more, the pairings name every
    player. *)
Lemma pairings_name_every_player (groups : list (list string)) (p : string) :
  Forall (fun grp => (2 <= length grp)%nat) groups ->
  BYE ∉ concat groups -> p ∈ concat groups ->
  p ∈ allPlayersOf (groupsOf (buildGroupPairings groups)).
Proof.
  intros Hsizes Hbye (grp & Hp & Hgrp)%elem_of_concat.
  apply setToArray_elem, elem_of_concat.
  exists (groupPlayers (roundRobinPairs grp)). split.
  - apply groupPlayers_names_all; [|intros ?; apply Hbye, elem_of_concat; by exists grp|done].
    by apply (proj1 (Forall_forall _ _) Hsizes).
  - unfold groupsOf, buildGroupPairings.
    change (map groupPlayers (map roundRobinPairs ?l))
      with (groupPlayers <$> (roundRobinPairs <$> l)).
    apply list_elem_of_fmap. exists (roundRobinPairs grp). split; [done|].
    apply list_elem_of_fmap. by exists grp.
Qed.

Lemma small_group_in_pairings (groups : list (list string)) grp :
  grp ∈ groups -> (length grp <= 1)%nat ->
  capByOpponents (groupsOf (buildGroupPairings groups)) = 0.
Proof.
  intros Hgrp Hsmall.
  apply (capByOpponents_small_group _ (groupPlayers (roundRobinPairs grp))).
  - unfold groupsOf, buildGroupPairings.
    change (map groupPlayers (map roundRobinPairs ?l))
      with (groupPlayers <$> (roundRobinPairs <$> l)).
    apply list_elem_of_fmap. exists (roundRobinPairs grp). split; [done|].
    apply list_elem_of_fmap. by exists grp.
  - rewrite groupPlayers_small_group by done. cbn. lia.
Qed.

Lemma totals_of_returned_schedule (players : list string) (groups : list (list string))
    (boards preferredRounds : Js.number) (schedule : list (list Match.t)) :
  BYE ∉ players -> concat groups ≡ₚ players ->
  Js.buildGlobalSchedule (buildGroupPairings groups) boards preferredRounds
  = Js.Returned schedule ->
  ∃ games : Z,
    (∀ p, p ∈ players -> totals players (rebalanceBoards schedule) !! p = Some games)
    ∧ ((length players < 2 * length groups)%nat -> games = 0).
Proof.
  intros Hbye Hperm Hs.
  set (groupRounds := buildGroupPairings groups) in *.
  assert (∀ games, (∀ p, p ∈ players -> roundsPlayed p schedule = games) ->
                   ∀ p, p ∈ players ->
                        totals players (rebalanceBoards schedule) !! p = Some games)
    as Htotals.
  { intros games Hgames p Hp.
    by rewrite totals_lookup, decide_True, roundsPlayed_rebalanceBoards, Hgames by done. }
  assert (∀ t, schedule = emptySchedule t ->
               ∃ games : Z,
                 (∀ p, p ∈ players ->
                       totals players (rebalanceBoards schedule) !! p = Some games)
                 ∧ ((length players < 2 * length groups)%nat -> games = 0)) as Hempty.
  { intros t ->. exists 0. split; [|done].
    apply Htotals. intros p _. apply roundsPlayed_emptySchedule. }
  destruct (Js_buildGlobalSchedule_cases _ _ _ _ Hs)
    as (totalRounds & _ & [Hfallback | (found & Hcap & Hfound)]); [by eapply Hempty|].
  destruct (decide (Forall (fun grp => (2 <= length grp)%nat) groups)) as [Hsizes|Hsmall].
  - exists (Z.of_nat found). split.
    + apply Htotals. intros p Hp.
      assert (p ∈ allPlayersOf (groupsOf groupRounds)) as Hnamed
        by (apply pairings_name_every_player; by rewrite ?Hperm).
      pose proof (boardLimit_nonneg (Js.atLeastOne boards)
                    (allMatchesOf (groupsOf groupRounds)) boards eq_refl) as Hlimit.
      assert ((tryBuild (allPlayersOf (groupsOf groupRounds))
                 (allMatchesOf (groupsOf groupRounds))
                 (boardLimit (Js.atLeastOne boards) (allMatchesOf (groupsOf groupRounds)))
                 (Qfloor totalRounds) (Z.of_nat found)).2 = true) as Hequal
        by (by rewrite Hfound).
      apply tryBuild_equal_iff in Hequal as [_ Hequal];
        [|done|intros m Hm; by apply allMatches_players in Hm as [? _]].
      specialize (Hequal p Hnamed). rewrite Hfound in Hequal. cbn [fst] in Hequal.
      rewrite <- Hequal. symmetry. apply appearances_roundsPlayed.
      destruct (Js_buildGlobalSchedule_buildInv _ _ _ _ Hs) as (ta & Hgood & _).
      cbn [snd] in Hgood. eapply Forall_impl; [exact Hgood|]. by intros ms (? & _).
    + intros Hfew. apply groups_of_two_hold_twice in Hsizes.
      rewrite Hperm in Hsizes. lia.
  - apply not_Forall_Exists in Hsmall; [|apply _].
    apply Exists_exists in Hsmall as (grp & Hgrp & Hlen).
    unfold groupRounds in Hcap.
    assert (length grp <= 1)%nat as Hone by (apply Nat.lt_succ_r, Nat.nle_gt, Hlen).
    rewrite (small_group_in_pairings groups grp) in Hcap by done.
    assert (found = 0%nat) as -> by lia.
    apply (Hempty (Qfloor totalRounds)).
    apply (f_equal fst) in Hfound. cbn [fst] in Hfound.
    by rewrite <- Hfound, tryBuild_target_zero.
Qed.

(** X17. From the names to the totals of the page, for any counts.
    Whenever [splitIntoGroups] returns groups and [buildGlobalSchedule]
    returns a schedule for their pairings, all listed players end with the
    same total, when nobody is called BYE; the total is 0 when there are
    fewer than two players per group on average. *)
Theorem app_totals_all_equal (players : list string)
    (numGroups boards preferredRounds : Js.number)
    (groups : list (list string)) (schedule : list (list Match.t)) :
  BYE ∉ players ->
  Js.splitIntoGroups players numGroups = Js.Returned groups ->
  Js.buildGlobalSchedule (buildGroupPairings groups) boards preferredRounds
  = Js.Returned schedule ->
  ∃ games : Z,
    (∀ p, p ∈ players -> totals players (rebalanceBoards schedule) !! p = Some games)
    ∧ ((length players < 2 * length groups)%nat -> games = 0).
Proof.
  intros Hbye Hgroups. apply totals_of_returned_schedule; [done|].
  by destruct (Js_splitIntoGroups_returned _ _ _ Hgroups).
Qed.

Lemma app_totals_all_equal_witness :
  ∃ games : Z,
    (∀ p, p ∈ buildPlayers (Num 8) ->
          totals (buildPlayers (Num 8))
                 (rebalanceBoards
                    (buildGlobalSchedule
                       (buildGroupPairings (splitIntoGroups (buildPlayers (Num 8)) (Num 2)))
                       (Num 4) (Num 2))) !! p
          = Some games)
    ∧ ((length (buildPlayers (Num 8))
        < 2 * length (splitIntoGroups (buildPlayers (Num 8)) (Num 2)))%nat -> games = 0).
Proof.
  assert (BYE ∉ buildPlayers (Num 8)) as Hbye
    by (apply (bool_decide_unpack _); vm_compute; exact I).
  assert (Js.splitIntoGroups (buildPlayers (Num 8)) (Js.Finite 2)
          = Js.Returned (splitIntoGroups (buildPlayers (Num 8)) (Num 2))) as Hgroups
    by (vm_compute; reflexivity).
  assert (Js.buildGlobalSchedule
            (buildGroupPairings (splitIntoGroups (buildPlayers (Num 8)) (Num 2)))
            (Js.Finite (7 # 2)) (Js.Finite (5 # 2))
          = Js.Returned
              (buildGlobalSchedule
                 (buildGroupPairings (splitIntoGroups (buildPlayers (Num 8)) (Num 2)))
                 (Num 4) (Num 2))) as Hschedule
    by (vm_compute; reflexivity).
  exact (app_totals_all_equal _ _ _ _ _ _ Hbye Hgroups Hschedule).
Defined.

(** ** Whole counts among all counts *)

(** X23. On whole numbers and [NaN] both functions return, and return
    what the definitions on whole numbers compute: the groups of
    [splitIntoGroups] and the schedule of [buildGlobalSchedule]. *)
Theorem whole_counts_agree (players : list string)
    (groupRounds : list (list (list (string * string))))
    (numGroups boards preferredRounds : jsnum) :
  Js.splitIntoGroups players (Js.ofJsnum numGroups)
  = Js.Returned (splitIntoGroups players numGroups)
  ∧ Js.buildGlobalSchedule groupRounds (Js.ofJsnum boards) (Js.ofJsnum preferredRounds)
    = Js.Returned (buildGlobalSchedule groupRounds boards preferredRounds).
Proof. split; [apply Js_splitIntoGroups_ofJsnum | apply Js_buildGlobalSchedule_ofJsnum]. Qed.



(** ** An attempt at any target *)

(** X25. An attempt of the builder with any board count, any finite
    round count and any target, whole or not: in every round no player is in
    two matches, the boards are 1, 2, ... in selection order and there are at
    most as many matches as the board count rounded up; no pair of players
    meets twice; and the attempt is equal only at a whole target, which is
    then the number of matches of every player.  None of this depends on how
    the first target is computed. *)
Theorem attempt_at_any_target groupRounds (boards : Js.number) (totalRounds targetGames : Q) :
  let groups := groupsOf groupRounds in
  let attempt := Js.tryBuild (allPlayersOf groups) (allMatchesOf groups)
                             (Js.atLeastOne boards) totalRounds targetGames in
  Forall (fun ms =>
            NoDup (roundPlayers ms)
            ∧ Match.board <$> ms = Z.of_nat <$> seq 1 (length ms)
            ∧ match Js.atLeastOne boards with
              | Js.Bounded b => Z.of_nat (length ms) <= Qceiling b
              | Js.Unbounded => True
              end)
         attempt.1
  ∧ NoDup (unorderedPair <$> concat attempt.1)
  ∧ (attempt.2 = true ->
     Js.isWhole targetGames = true
     ∧ ∀ p, p ∈ allPlayersOf groups ->
            (inject_Z (appearances p attempt.1) == targetGames)%Q).
Proof.
  cbn zeta. rewrite Js_tryBuild_rounded. cbn [fst snd].
  set (groups := groupsOf groupRounds).
  set (limit := boardLimit (Js.atLeastOne boards) (allMatchesOf groups)).
  pose proof (boardLimit_nonneg (Js.atLeastOne boards) (allMatchesOf groups) boards eq_refl)
    as Hlimit. fold limit in Hlimit.
  assert (∀ m, m ∈ allMatchesOf groups -> Cand.A m ≠ Cand.B m) as Hdiff
    by (intros m Hm; by apply allMatches_players in Hm as [? _]).
  destruct (buildEnd_buildInv (allPlayersOf groups) (allMatchesOf groups) limit
              (Qfloor totalRounds) (Qceiling targetGames) Hlimit Hdiff)
    as (Hgood & Hpairs & _).
  rewrite tryBuild_schedule. split; [|split; [done|]].
  - eapply Forall_impl; [exact Hgood|]. intros ms (Hnd & Hlen & Hboards).
    split; [done|]. split; [done|]. unfold limit in Hlen.
    by destruct (Js.atLeastOne boards).
  - intros [Hequal Hwhole]%andb_true_iff. split; [done|].
    apply tryBuild_equal_iff in Hequal as [_ Hequal]; [|done..].
    intros p Hp. rewrite <- tryBuild_schedule, (Hequal p Hp).
    unfold Js.isWhole in Hwhole. apply Qeq_bool_iff in Hwhole.
    rewrite (Qceiling_comp _ _ Hwhole), Qceiling_Z. by symmetry.
Qed.
